(** * Nodify: interval sampling of lines and radius thinning of nodes

    A shallow embedding of [LineTools.add_nodes], [LineTools.thin_nodes] and
    [LineTools.records_within] from [Nodify.py], and the properties of the
    node generation and thinning engine that follow from the code.

    Conventions of the embedding:
    - a feature collection (a shapefile opened with fiona) is the list of
      its features in file order;
    - a record read from a collection is a feature together with its
      ['id'], which fiona derives from the position in the file;
    - attribute mappings are finite maps from field names to strings;
      fiona gives every record of a collection every field of the schema
      of the collection, so a field that one record lacks is a field that
      the whole collection lacks; a field whose value is missing in the
      file (which fiona yields as [None]) is not covered;
    - coordinates and lengths are rationals (every finite float is one);
      [interval] is an integer, as the docstring of [add_nodes] types it,
      so that [d] in the sampling loop is a Python integer and the test
      [d < geom.length] is exact;
    - what shapely and fiona compute (arc length, interpolation, buffers,
      containment, bounding boxes, the bounding box filter of a collection)
      is not part of the repository: it is the interface [Kernel] below;
    - the list [recs] of [thin_nodes] is mutated in place through the
      aliases [active_rec] and [search_rec]; the embedding threads the
      list as state and addresses records by index, so that two aliases
      of one record see each other's writes;
    - exceptions are results ([Raise]); a [while] loop that may run
      forever takes fuel and reports whether it returned;
    - the console output of [thin_nodes] (the messages of lines 111, 113
      and 146 and the time estimate of lines 115-120, which depends on the
      clock) is left out. The estimate is computed for the records 100,
      200, ... only, and its division by the time elapsed raises
      [ZeroDivisionError] when the clock has not advanced since the pass
      started: the embedding is that of the runs on which it has, among
      them every run on a file of at most 100 records. *)

From Stdlib Require Import QArith Qabs Qminmax Qround Lqa.
From stdpp Require Import base list gmap strings.

(** ** Data model *)

Definition point : Type := Q * Q.

(** (minx, miny, maxx, maxy), as [obj.bounds] returns it. *)
Definition bbox : Type := Q * Q * Q * Q.

(** The geometries the two tools meet: lines on the way in, points on the
    way out. The same type stands for the GeoJSON-like mapping stored under
    ['geometry'] and for the shapely object built from it. *)
Inductive geom : Type :=
| Point (p : point)
| LineString (ps : list point).

(** A feature as it is written to a collection. A feature without geometry
    has [None] under ['geometry']. *)
Record feature : Type := Feature {
  geometry : option geom;
  properties : gmap string string
}.

(** A record as it is read from a collection. *)
Record rec : Type := Rec {
  rec_id : Z;
  rec_geometry : option geom;
  rec_properties : gmap string string
}.

(** shapely and fiona, as far as [Nodify.py] calls them. [buffer g r] is
    [g.buffer(r, 100)]; [store_filter file b] is the sequence of records
    that iterating the collection yields after [f_input.filter(b)]. *)
Class Kernel : Type := {
  region : Type;
  geom_length : geom → Q;
  interpolate : geom → Z → geom;
  buffer : geom → Q → region;
  within : geom → region → bool;
  bounds : region → bbox;
  store_filter : list rec → bbox → list rec
}.

(** The exceptions the statements of the two tools can raise: a missing
    key of an attribute mapping, an index outside [recs], and a method call
    on [None] (the geometry of a record without geometry). *)
Inductive exn : Type :=
| KeyError (key : string)
| IndexError
| AttributeError.

Inductive res (A : Type) : Type :=
| Ok (a : A)
| Raise (e : exn).
Arguments Ok {A} a.
Arguments Raise {A} e.

(** [shape(rec['geometry'])] and [mapping(geom)] convert between the mapping
    and the shapely object. [shape] reads the type of the geometry with
    [ob.get("type")]: on the [None] of a record without geometry the call
    raises [AttributeError]. [shape] never returns [None], so the tests
    [geom is None] of lines 75 and 128 never succeed, and lines 76 and
    129-131 are never run: the embedding has no branch for them. *)
Definition shape (g : option geom) : res geom :=
  match g with
  | Some g => Ok g
  | None => Raise AttributeError
  end.

Definition mapping (g : geom) : option geom := Some g.

(** Iterating an opened collection: the record at position [i] has id [i].
    The records of a collection all have the fields of its schema: the
    files of the program are the lists whose features have the same
    fields, and the statements about a missing field are about a field
    that every feature lacks. *)
Definition fiona_read (file : list feature) : list rec :=
  imap (λ i f, Rec (Z.of_nat i) (geometry f) (properties f)) file.

(** [f_output.write(r)] stores geometry and properties; the id is not
    stored. *)
Definition fiona_write (r : rec) : feature :=
  Feature (rec_geometry r) (rec_properties r).

(** ** add_nodes *)

(** How far a run got: it returned, it is still inside a loop when the
    fuel is used up, or an exception ended it. In each case [written] is
    what [f_output] has received. *)
Inductive progress : Type :=
| Returned
| Running
| Raised (e : exn).

Section AddNodes.
Context `{K : Kernel}.

(** Lines 83-85: [while d < geom.length: f_output.write(...); d += interval].
    [fuel] bounds the number of evaluations of the loop test. *)
Fixpoint sample_loop (fuel : nat) (geom : geom) (r : gmap string string)
    (interval d : Z) : list feature * progress :=
  match fuel with
  | O => ([], Running)
  | S fuel' =>
      if Qlt_le_dec (inject_Z d) (geom_length geom) then
        let '(written, p) := sample_loop fuel' geom r interval (d + interval) in
        (Feature (mapping (interpolate geom d)) r :: written, p)
      else ([], Returned)
  end.

(** Lines 74-85, the body of [for rec in f_input]. *)
Definition sample_line (fuel : nat) (rec : feature) (interval : Z)
    : list feature * progress :=
  match shape (geometry rec) with
  | Raise e => ([], Raised e)
  | Ok geom =>
      let d := 0%Z in
      let r := <["PROCESSED" := "N"]> (<["INCLUDE" := "Y"]> (properties rec)) in
      sample_loop fuel geom r interval d
  end.

(** Lines 73-88. *)
Fixpoint add_nodes (fuel : nat) (f_input : list feature) (interval : Z)
    : list feature * progress :=
  match f_input with
  | [] => ([], Returned)
  | rec :: f_input' =>
      match sample_line fuel rec interval with
      | (written, Returned) =>
          let '(written', p) := add_nodes fuel f_input' interval in
          (written ++ written', p)
      | (written, Running) => (written, Running)
      | (written, Raised e) => (written, Raised e)
      end
  end.

(** The arc-length distances [0, I, 2·I, ..., (n-1)·I]. *)
Definition distances (interval : Z) (n : nat) : list Z :=
  (λ k, Z.of_nat k * interval)%Z <$> seq 0 n.

(** The feature written at line 84 for the distance [d]. *)
Definition node (geom : geom) (r : gmap string string) (d : Z) : feature :=
  Feature (mapping (interpolate geom d)) r.

(** The attributes of the nodes of a feature, lines 79-81. *)
Definition node_properties (rec : feature) : gmap string string :=
  <["PROCESSED" := "N"]> (<["INCLUDE" := "Y"]> (properties rec)).

(** The number of multiples [k·I], [k ≥ 0], strictly below [L]. *)
Definition sample_count (L : Q) (interval : Z) : nat :=
  Z.to_nat (Qceiling (L / inject_Z interval)).

(** The count the specification states. *)
Definition spec_count (L : Q) (interval : Z) : nat :=
  Z.to_nat (Qfloor (L / inject_Z interval) + 1).
End AddNodes.

(** ** thin_nodes *)

(** The writes to the flags of a record, by the index of the record in
    [recs]. [Excluded probe target]: lines 140-141 with [active_rec =
    recs[probe]] and [search_rec = recs[target]]. [Reaffirmed x]: lines
    143-144. *)
Inductive event : Type :=
| Excluded (probe target : nat)
| Reaffirmed (x : nat).

(** The state of a run: the list [recs], and a ghost history of the flag
    writes, each with the value of [recs] just before it. No statement of
    the program reads the history. *)
Record state : Type := State {
  recs : list rec;
  trace : list (list rec * event)
}.

(** ['INCLUDE'] and ['PROCESSED'] of a record are assigned together.
    Assigning to a key of a dict adds the key when it is absent. *)
Definition set_flags (include processed : string) (r : rec) : rec :=
  Rec (rec_id r) (rec_geometry r)
      (<["PROCESSED" := processed]> (<["INCLUDE" := include]> (rec_properties r))).

(** The record an event writes, and the flags it writes there. *)
Definition target_of (ev : event) : nat :=
  match ev with
  | Excluded _ target => target
  | Reaffirmed x => x
  end.

(** The active record of the turn that performs the write. *)
Definition probe_of (ev : event) : nat :=
  match ev with
  | Excluded probe _ => probe
  | Reaffirmed x => x
  end.

Definition flags_of (ev : event) : string * string :=
  match ev with
  | Excluded _ _ => ("N", "Y")
  | Reaffirmed _ => ("Y", "N")
  end.

Definition apply_event (ev : event) (rs : list rec) : list rec :=
  alter (set_flags (flags_of ev).1 (flags_of ev).2) (target_of ev) rs.

(** State and exceptions. *)
Definition M (A : Type) : Type := state → res A * state.

Definition ret {A} (a : A) : M A := λ s, (Ok a, s).

Definition bind {A B} (m : M A) (f : A → M B) : M B :=
  λ s, match m s with
       | (Ok a, s') => f a s'
       | (Raise e, s') => (Raise e, s')
       end.

Definition raise {A} (e : exn) : M A := λ s, (Raise e, s).

Notation "'do' x <- m ; f" := (bind m (λ x, f))
  (at level 10, x name, m at level 100, f at level 200, only parsing).
Notation "'run' m ; f" := (bind m (λ _, f))
  (at level 10, m at level 100, f at level 200, only parsing).

Fixpoint for_each {A} (l : list A) (body : A → M unit) : M unit :=
  match l with
  | [] => ret tt
  | a :: l' => run body a; for_each l' body
  end.

(** [recs[i]] for a natural index. *)
Definition get_rec (i : nat) : M rec :=
  λ s, match recs s !! i with
       | Some r => (Ok r, s)
       | None => (Raise IndexError, s)
       end.

(** [recs[i]['properties'][key]]. *)
Definition prop (i : nat) (key : string) : M string :=
  do r <- get_rec i;
  match rec_properties r !! key with
  | Some v => ret v
  | None => raise (KeyError key)
  end.

(** The two assignments to the flags of [recs[target_of ev]]. *)
Definition write_flags (ev : event) : M unit :=
  λ s, (Ok tt, State (apply_event ev (recs s)) (trace s ++ [(recs s, ev)])).

(** Python list indexing by an integer: a negative index counts from the
    end, an index outside the list raises. *)
Definition py_index (n : nat) (i : Z) : option nat :=
  if decide (0 ≤ i < Z.of_nat n)%Z then Some (Z.to_nat i)
  else if decide (- Z.of_nat n ≤ i < 0)%Z then Some (Z.to_nat (Z.of_nat n + i))
  else None.

Definition index (i : Z) : M nat :=
  λ s, match py_index (length (recs s)) i with
       | Some j => (Ok j, s)
       | None => (Raise IndexError, s)
       end.

Section ThinNodes.
Context `{K : Kernel}.

(** Lines 159-176: the ids of the records that the collection yields
    after the bounding box filter. The collection is opened anew from
    [input_file], so the records are those of the file, not [recs]. *)
Definition records_within (input_file : list feature) (obj : region) : list Z :=
  rec_id <$> store_filter (fiona_read input_file) (bounds obj).

Variable input_file : list feature.
Variable group_field : string.
Variable radius : Q.

(** Line 124, with the short circuit of [or]. *)
Definition skipped (x : nat) : M bool :=
  do include <- prop x "INCLUDE";
  if decide (include = "N") then ret true
  else do processed <- prop x "PROCESSED"; ret (bool_decide (processed = "Y")).

(** Line 139, with the short circuit of [and]: each operand is evaluated
    only when the ones before it are true. *)
Definition excludes (x j : nat) (search_id : Z) : M bool :=
  do active_rec <- get_rec x;
  do search_rec <- get_rec j;
  if decide (rec_id active_rec = rec_id search_rec) then ret false else
  if decide (rec_id search_rec = search_id) then
    do active_group <- prop x group_field;
    do search_group <- prop j group_field;
    if decide (active_group = search_group) then
      do include <- prop j "INCLUDE";
      if decide (include = "Y") then
        do processed <- prop x "PROCESSED";
        ret (bool_decide (processed = "N"))
      else ret false
    else ret false
  else ret false.

(** Lines 136-141, the body of [for search_id in search_ids]. *)
Definition scan (x : nat) (geom_buffer : region) (search_id : Z) : M unit :=
  do j <- index search_id;
  do search_rec <- get_rec j;
  match shape (rec_geometry search_rec) with
  | Raise e => raise e
  | Ok search_geom =>
      if within search_geom geom_buffer then
        do b <- excludes x j search_id;
        if b then write_flags (Excluded x j) else ret tt
      else ret tt
  end.

(** Lines 122-144, the body of [for x in range(len(recs))]. An active
    record without geometry ends the run at line 127. *)
Definition turn (x : nat) : M unit :=
  do skip <- skipped x;
  if skip then ret tt else
  do active_rec <- get_rec x;
  match shape (rec_geometry active_rec) with
  | Raise e => raise e
  | Ok geom =>
      let search_ids := records_within input_file (buffer geom (radius * 1.1)) in
      let geom_buffer := buffer geom radius in
      run for_each search_ids (scan x geom_buffer);
      write_flags (Reaffirmed x)
  end.

(** Lines 116-144. *)
Definition thin_pass : M unit :=
  λ s, for_each (seq 0 (length (recs s))) turn s.

(** Lines 152-154. *)
Fixpoint write_kept (rs : list rec) : res (list feature) :=
  match rs with
  | [] => Ok []
  | r :: rs' =>
      match rec_properties r !! "INCLUDE" with
      | None => Raise (KeyError "INCLUDE")
      | Some include =>
          match write_kept rs' with
          | Raise e => Raise e
          | Ok f_output =>
              Ok (if decide (include = "Y") then fiona_write r :: f_output
                  else f_output)
          end
      end
  end.

(** Lines 105-156: the result is the content of [output_file], or the
    exception that ended the run; the state is [recs] at that moment. *)
Definition thin_nodes : res (list feature) * state :=
  match thin_pass (State (fiona_read input_file) []) with
  | (Ok _, s) => (write_kept (recs s), s)
  | (Raise e, s) => (Raise e, s)
  end.
End ThinNodes.

(** ** What a run may do

    The vocabulary of the statements about [thin_nodes]. *)

(** The pair (['INCLUDE'], ['PROCESSED']) of a record: (keep, settled). *)
Definition flags (r : rec) : option string * option string :=
  (rec_properties r !! "INCLUDE", rec_properties r !! "PROCESSED").

(** keep = true, settled = false. *)
Definition open_flags : option string * option string := (Some "Y", Some "N").


(** The records that line 153 writes. *)
Definition kept (r : rec) : Prop := rec_properties r !! "INCLUDE" = Some "Y".

#[global] Instance kept_dec (r : rec) : Decision (kept r) :=
  decide (rec_properties r !! "INCLUDE" = Some "Y").

(** A feature without its two flags. *)
Definition strip (f : feature) : feature :=
  Feature (geometry f) (delete "PROCESSED" (delete "INCLUDE" (properties f))).

(** The flags with which [add_nodes] creates every node. *)
Definition standard_flags (file : list feature) : Prop :=
  ∀ f, f ∈ file →
    properties f !! "INCLUDE" = Some "Y" ∧ properties f !! "PROCESSED" = Some "N".


(** A record that line 124 lets through as the active record. *)
Definition probe_ok (r : rec) : Prop :=
  ∃ include processed,
    rec_properties r !! "INCLUDE" = Some include ∧ include ≠ "N"
    ∧ rec_properties r !! "PROCESSED" = Some processed ∧ processed ≠ "Y".

(** Everything but the two flags. *)
Definition same_content (r r' : rec) : Prop :=
  rec_id r' = rec_id r
  ∧ rec_geometry r' = rec_geometry r
  ∧ ∀ key, key ≠ "INCLUDE" → key ≠ "PROCESSED" →
      rec_properties r' !! key = rec_properties r !! key.

(** A history that starts from [rs] and ends in [rs']: each entry holds the
    list as the entries before it have left it. *)
Inductive history : list rec → list (list rec * event) → list rec → Prop :=
| history_nil rs : history rs [] rs
| history_cons rs ev tr rs' :
    history (apply_event ev rs) tr rs' → history rs ((rs, ev) :: tr) rs'.

(** Every exclusion is by a record that comes before the record it
    excludes. *)
Definition ordered (tr : list (list rec * event)) : Prop :=
  ∀ before probe target, (before, Excluded probe target) ∈ tr → probe < target.

(** Squared Euclidean distance of two coordinates. *)
Definition dist2 (p q : point) : Q :=
  ((p.1 - q.1) * (p.1 - q.1) + (p.2 - q.2) * (p.2 - q.2))%Q.

Section Conditions.
Context `{K : Kernel}.
Variable group_field : string.
Variable radius : Q.

(** What the program has tested on [rs] when it performs the write [ev]. *)
Definition event_ok (rs : list rec) (ev : event) : Prop :=
  match ev with
  | Excluded probe target =>
      ∃ a t ga gt v,
        rs !! probe = Some a ∧ rs !! target = Some t ∧ probe_ok a
        ∧ rec_geometry a = Some ga ∧ rec_geometry t = Some gt
        ∧ within gt (buffer ga radius) = true
        ∧ rec_id a ≠ rec_id t
        ∧ rec_properties a !! group_field = Some v
        ∧ rec_properties t !! group_field = Some v
        ∧ rec_properties t !! "INCLUDE" = Some "Y"
        ∧ rec_properties a !! "PROCESSED" = Some "N"
  | Reaffirmed x =>
      ∃ r g, rs !! x = Some r ∧ probe_ok r ∧ rec_geometry r = Some g
  end.

(** [steps s s']: [s'] is [s] after some flag writes, each of them tested. *)
Inductive steps : state → state → Prop :=
| steps_refl s : steps s s
| steps_write s s' ev :
    steps s s' → event_ok (recs s') ev →
    steps s (State (apply_event ev (recs s')) (trace s' ++ [(recs s', ev)])).

(** The buffer of a point lies inside the circle of its radius (the
    polygon that approximates the circle has its vertices on it). *)
Definition buffer_inscribed : Prop :=
  ∀ c p r, within (Point p) (buffer (Point c) r) = true → (dist2 c p <= r * r)%Q.

(** The bounding box filter with the search margin misses no record that
    the exact test accepts. *)
Definition search_complete : Prop :=
  ∀ file geom r gs,
    r ∈ file → shape (rec_geometry r) = Ok gs →
    within gs (buffer geom radius) = true →
    r ∈ store_filter file (bounds (buffer geom (radius * 1.1))).

(** The exact test is symmetric: a geometry lies in the buffer of another
    exactly when the other lies in its buffer. *)
Definition within_symmetric : Prop :=
  ∀ g g', within g' (buffer g radius) = within g (buffer g' radius).

(** The filter yields records of the collection. *)
Definition search_sound : Prop :=
  ∀ file b r, r ∈ store_filter file b → r ∈ file.

(** Line 139 without the state: the records are given. *)
Definition excludes_on (a t : rec) (search_id : Z) : res bool :=
  if decide (rec_id a = rec_id t) then Ok false else
  if decide (rec_id t = search_id) then
    match rec_properties a !! group_field with
    | None => Raise (KeyError group_field)
    | Some active_group =>
        match rec_properties t !! group_field with
        | None => Raise (KeyError group_field)
        | Some search_group =>
            if decide (active_group = search_group) then
              match rec_properties t !! "INCLUDE" with
              | None => Raise (KeyError "INCLUDE")
              | Some include =>
                  if decide (include = "Y") then
                    match rec_properties a !! "PROCESSED" with
                    | None => Raise (KeyError "PROCESSED")
                    | Some processed => Ok (bool_decide (processed = "N"))
                    end
                  else Ok false
              end
            else Ok false
        end
    end
  else Ok false.

(** Each record is as in [init], or as in [init] and excluded. *)
Definition tame (init rs : list rec) : Prop :=
  Forall2 (λ r0 r, r = r0 ∨ r = set_flags "N" "Y" r0) init rs.

(** What the returned scan of the candidate [search_id] by the active
    record [a] with geometry [ga] has settled: the candidate named a record
    with a geometry, and if it passed the exact test and the two id tests,
    both group values exist and equal group values have the candidate
    excluded in [rs]. *)
Definition checked (init rs : list rec) (a : rec) (ga : geom) (search_id : Z) : Prop :=
  ∃ j t gt,
    py_index (length init) search_id = Some j
    ∧ init !! j = Some t ∧ rec_geometry t = Some gt
    ∧ (within gt (buffer ga radius) = true →
       rec_id a ≠ rec_id t → rec_id t = search_id →
       ∃ va vt,
         rec_properties a !! group_field = Some va
         ∧ rec_properties t !! group_field = Some vt
         ∧ (va = vt → rs !! j = Some (set_flags "N" "Y" t))).

(** What the returned turn of record [x] has settled, if the record is
    still as in [init]: it has a geometry and every candidate of its
    search is checked. *)
Definition settled (input_file : list feature) (rs : list rec) (x : nat) : Prop :=
  ∀ a, fiona_read input_file !! x = Some a → rs !! x = Some a →
    ∃ ga, rec_geometry a = Some ga
      ∧ ∀ search_id,
          search_id ∈ records_within input_file (buffer ga (radius * 1.1)) →
          checked (fiona_read input_file) rs a ga search_id.

(** The feature at [t] lies in the buffer of the feature at [p], another
    position of the file. *)
Definition meet (file : list feature) (p t : nat) : Prop :=
  p ≠ t
  ∧ ∃ fp ft gp gt,
      file !! p = Some fp ∧ file !! t = Some ft
      ∧ geometry fp = Some gp ∧ geometry ft = Some gt
      ∧ within gt (buffer gp radius) = true.

(** No two features of one group lie within the radius of each other, and
    every feature has a geometry and its group value wherever the exact
    test against another feature succeeds. *)
Definition separated (file : list feature) : Prop :=
  ∀ p fp, file !! p = Some fp →
    ∃ gp, geometry fp = Some gp
      ∧ ∀ t ft gt, file !! t = Some ft → p ≠ t → geometry ft = Some gt →
          within gt (buffer gp radius) = true →
          ∃ vp vt,
            properties fp !! group_field = Some vp
            ∧ properties ft !! group_field = Some vt
            ∧ vp ≠ vt.
End Conditions.

(** ** A planar kernel for the examples

    An exact instance of [Kernel] on which the programs can be run: arc
    length and interpolation along polylines whose segments are parallel to
    an axis (where the sum of the coordinate differences is the Euclidean
    length), the buffer of a point as the open disc around it, and the
    bounding box filter on the envelopes of the geometries. Lines have no
    buffer here. The examples keep every point well inside or well outside
    the discs they are tested against, where a disc and its approximation
    by a polygon agree. *)
Module Planar.
Open Scope Q_scope.

Definition seg_length (p q : point) : Q :=
  Qabs (q.1 - p.1) + Qabs (q.2 - p.2).

Fixpoint path_length (ps : list point) : Q :=
  match ps with
  | p :: (q :: _) as ps' => seg_length p q + path_length ps'
  | _ => 0
  end.

Definition arc_length (g : geom) : Q :=
  match g with
  | Point _ => 0
  | LineString ps => path_length ps
  end.

(** The point at distance [d] from [p] towards [q]. *)
Definition along (p q : point) (d : Q) : point :=
  let l := seg_length p q in
  if Qeq_bool l 0 then p
  else (Qred (p.1 + (q.1 - p.1) * (d / l)), Qred (p.2 + (q.2 - p.2) * (d / l))).

Fixpoint path_interpolate (ps : list point) (d : Q) : point :=
  match ps with
  | [] => (0, 0)
  | [p] => p
  | p :: (q :: _) as ps' =>
      if Qle_bool d (seg_length p q) then along p q (Qmax 0 d)
      else path_interpolate ps' (d - seg_length p q)
  end.

(** A negative distance is measured back from the end of the line. *)
Definition locate (g : geom) (d : Z) : geom :=
  match g with
  | Point p => Point p
  | LineString ps =>
      if Qle_bool 0 (inject_Z d) then Point (path_interpolate ps (inject_Z d))
      else Point (path_interpolate ps (path_length ps + inject_Z d))
  end.

Definition Qlt_bool (a b : Q) : bool := negb (Qle_bool b a).

Definition disc : Type := option (point * Q).

Definition disc_around (g : geom) (r : Q) : disc :=
  match g with
  | Point c => Some (c, r)
  | LineString _ => None
  end.

Definition inside (g : geom) (d : disc) : bool :=
  match g, d with
  | Point p, Some (c, r) => Qlt_bool 0 r && Qlt_bool (dist2 c p) (r * r)
  | _, _ => false
  end.

Definition envelope (d : disc) : bbox :=
  match d with
  | Some (c, r) => (c.1 - r, c.2 - r, c.1 + r, c.2 + r)
  | None => (0, 0, 0, 0)
  end.

Definition vertices (g : geom) : list point :=
  match g with
  | Point p => [p]
  | LineString ps => ps
  end.

(** The envelope of the vertices meets the box. *)
Definition meets (b : bbox) (ps : list point) : bool :=
  match ps with
  | [] => false
  | p :: ps' =>
      let '(minx, miny, maxx, maxy) := b in
      let lox := foldr (λ q, Qmin q.1) p.1 ps' in
      let hix := foldr (λ q, Qmax q.1) p.1 ps' in
      let loy := foldr (λ q, Qmin q.2) p.2 ps' in
      let hiy := foldr (λ q, Qmax q.2) p.2 ps' in
      Qle_bool lox maxx && Qle_bool minx hix
      && Qle_bool loy maxy && Qle_bool miny hiy
  end.

Definition selected (b : bbox) (r : rec) : bool :=
  match rec_geometry r with
  | Some g => meets b (vertices g)
  | None => false
  end.

Definition select (file : list rec) (b : bbox) : list rec :=
  filter (λ r, selected b r = true) file.

#[global] Instance kernel : Kernel := {|
  region := disc;
  geom_length := arc_length;
  interpolate := locate;
  buffer := disc_around;
  within := inside;
  bounds := envelope;
  store_filter := select
|}.
End Planar.

(** ** Inputs of the examples *)
Module Examples.
(** A straight line of 10000 units along the x axis. *)
Definition line_10km : feature :=
  Feature (Some (LineString [(0, 0); (10000, 0)]%Q)) {[ "label" := "I-5" ]}.

(** A line whose two vertices coincide: its length is 0. *)
Definition line_zero : feature :=
  Feature (Some (LineString [(5, 5); (5, 5)]%Q)) {[ "label" := "I-5" ]}.

(** A node with a label and the two flags. *)
Definition node_at (x y : Q) (label include processed : string) : feature :=
  Feature (Some (Point (x, y)))
    (<["PROCESSED" := processed]> (<["INCLUDE" := include]> {[ "label" := label ]})).

(** Two nodes 100 apart with different labels. *)
Definition two_groups : list feature :=
  [node_at 0 0 "I-5" "Y" "N"; node_at 100 0 "US-101" "Y" "N"].

(** Three nodes with one label, 1000 apart. *)
Definition three_in_a_row : list feature :=
  [node_at 0 0 "A" "Y" "N"; node_at 1000 0 "A" "Y" "N"; node_at 2000 0 "A" "Y" "N"].


(** Two nodes 1000 apart in a collection that has no ['label'] field. *)
Definition unlabelled : list feature :=
  [Feature (Some (Point (0, 0)%Q)) (<["PROCESSED" := "N"]> {[ "INCLUDE" := "Y" ]});
   Feature (Some (Point (1000, 0)%Q)) (<["PROCESSED" := "N"]> {[ "INCLUDE" := "Y" ]})].


End Examples.

(** ** More vocabulary: the nodes of a file of lines *)

Section Samples.
Context `{K : Kernel}.

(** The nodes of one feature: one at every multiple of the interval below
    the length of its geometry (and none for a feature without geometry,
    where the program raises). *)
Definition samples (interval : Z) (rec : feature) : list feature :=
  match geometry rec with
  | None => []
  | Some geom =>
      node geom (node_properties rec)
        <$> distances interval (sample_count (geom_length geom) interval)
  end.
End Samples.

(** Every record that has excluded another one is as in [init], and has a
    geometry. *)
Definition probes_open (init : list rec) (tr : list (list rec * event))
    (rs : list rec) : Prop :=
  ∀ before probe target, (before, Excluded probe target) ∈ tr →
    ∃ a g, init !! probe = Some a ∧ rs !! probe = Some a ∧ rec_geometry a = Some g.

Section During.
Context `{K : Kernel}.
Variable group_field : string.
Variable radius : Q.

(** What holds of the history and of [recs] during the turn of [x]: the
    records are as in the input or excluded, the records before [x] are
    settled, no write so far is by a record after [x], and the records
    that have excluded are open. *)
Definition during (input_file : list feature) (x : nat)
    (tr : list (list rec * event)) (rs : list rec) : Prop :=
  tame (fiona_read input_file) rs
  ∧ (∀ y, y < x → settled group_field radius input_file rs y)
  ∧ (∀ e, e ∈ tr → probe_of e.2 ≤ x)
  ∧ probes_open (fiona_read input_file) tr rs.
End During.

Section Safety.
Context `{K : Kernel}.

(** A record with the three fields that [thin_nodes] reads. *)
Definition has_fields (group_field : string) (m : gmap string string) : Prop :=
  is_Some (m !! "INCLUDE") ∧ is_Some (m !! "PROCESSED") ∧ is_Some (m !! group_field).
End Safety.

(** ** More inputs of the examples *)
Module MoreExamples.
(** A line of 10000 units and a line of length 0. *)
Definition two_lines : list feature := [Examples.line_10km; Examples.line_zero].

(** A line, a feature without geometry and a line of length 0. *)
Definition mixed_lines : list feature :=
  [Examples.line_10km; Feature None {[ "label" := "I-5" ]}; Examples.line_zero].

(** The nodes 0 and 2000 of [Examples.three_in_a_row]. *)
Definition two_apart : list feature :=
  [Examples.node_at 0 0 "A" "Y" "N"; Examples.node_at 2000 0 "A" "Y" "N"].

(** Two nodes in a collection that has no ['INCLUDE'] field. *)
Definition no_include : list feature :=
  [Feature (Some (Point (0, 0)%Q)) (<["PROCESSED" := "N"]> {[ "label" := "A" ]});
   Feature (Some (Point (5000, 0)%Q)) (<["PROCESSED" := "N"]> {[ "label" := "A" ]})].
End MoreExamples.

(** * ShieldLabels: the lines that feed add_nodes

    A shallow embedding of [split_and_duplicate_segments],
    [create_shield_type], [create_label] and [process_file] from
    [ShieldLabels.py] (Python 2). Conventions, beside those above:
    - a string is the sequence of its characters, and a character is an
      [ascii]: the embedding covers the strings whose characters have code
      points below 256;
    - the regular expressions are compiled without [re.UNICODE] and
      [re.LOCALE]: [\d] is [0-9], [\w] is [a-zA-Z0-9_], [\s] is the space
      and the characters 9 to 13, and [re.IGNORECASE] folds the case of the
      letters [a-z] only; each pattern is embedded as the function that
      decides it or computes its match;
    - which characters [strip()] removes depends on whether fiona yields a
      byte string or a unicode string: the predicate is a parameter;
    - an attribute is [None], a string or a number;
    - a loop over a collection that raises leaves the output written so
      far: a run yields the items it passed to [output.write], in order,
      and the exception, if any; what the driver of the output file makes
      of an item (the widths and types of the schema) is not part of the
      embedding;
    - [dissolve] (whose output order is that of a Python 2 dict) and the
      command line of [main] are not embedded. *)
Module Shield.
Import Stdlib.Strings.Ascii.

Inductive value : Type :=
| VNone
| VStr (s : string)
| VInt (n : Z)
| VFloat (q : Q).

Record item : Type := Item {
  item_geometry : option geom;
  item_properties : gmap string value
}.

Inductive error : Type :=
| KeyError (key : string)
| TypeError
| AttributeError.

Inductive result (A : Type) : Type :=
| Done (a : A)
| Failed (e : error).
Arguments Done {A} a.
Arguments Failed {A} e.

(** ** Characters *)

Definition code (c : ascii) : N := N_of_ascii c.

Definition between (lo hi : N) (c : ascii) : bool :=
  (lo <=? code c)%N && (code c <=? hi)%N.

(** [\d] *)
Definition is_digit (c : ascii) : bool := between 48 57 c.

Definition is_upper (c : ascii) : bool := between 65 90 c.
Definition is_lower (c : ascii) : bool := between 97 122 c.

(** [[a-z]] under [re.IGNORECASE] *)
Definition is_alpha (c : ascii) : bool := is_upper c || is_lower c.

(** [\w] *)
Definition is_word (c : ascii) : bool :=
  is_alpha c || is_digit c || Ascii.eqb c "_".

(** [\s] *)
Definition is_space (c : ascii) : bool := between 9 13 c || Ascii.eqb c " ".

(** The case folding of [re.IGNORECASE]. *)
Definition lower (c : ascii) : ascii :=
  if is_upper c then ascii_of_N (code c + 32) else c.

(** A character of a pattern against a character of the text. *)
Definition eq_ci (p c : ascii) : bool := Ascii.eqb (lower p) (lower c).

(** The text starts with the literal pattern, case folded. *)
Fixpoint prefix_ci (pat s : string) : bool :=
  match pat, s with
  | EmptyString, _ => true
  | String p pat', String c s' => eq_ci p c && prefix_ci pat' s'
  | String _ _, EmptyString => false
  end.

Fixpoint drop_chars (n : nat) (s : string) : string :=
  match n, s with
  | S n', String _ s' => drop_chars n' s'
  | _, _ => s
  end.

(** [s[:n]] *)
Fixpoint take_chars (n : nat) (s : string) : string :=
  match n, s with
  | S n', String c s' => String c (take_chars n' s')
  | _, _ => EmptyString
  end.

Fixpoint has_digit (s : string) : bool :=
  match s with
  | EmptyString => false
  | String c s' => is_digit c || has_digit s'
  end.

(** Every character of the text satisfies [p]. *)
Fixpoint all_chars (p : ascii → bool) (s : string) : bool :=
  match s with
  | EmptyString => true
  | String c s' => p c && all_chars p s'
  end.

(** The digits of the text, in order. *)
Fixpoint digits_of (s : string) : string :=
  match s with
  | EmptyString => EmptyString
  | String c s' => if is_digit c then String c (digits_of s') else digits_of s'
  end.

(** The two texts differ in the case of their letters at most. *)
Fixpoint same_ci (s t : string) : bool :=
  match s, t with
  | EmptyString, EmptyString => true
  | String c s', String d t' => eq_ci c d && same_ci s' t'
  | _, _ => false
  end.

(** ** split_and_duplicate_segments *)

(** [,|;] *)
Definition is_separator (c : ascii) : bool := Ascii.eqb c "," || Ascii.eqb c ";".

(** [re.split(',|;', refTag)]: the pieces between the separators, the
    empty ones too. *)
Fixpoint re_split (s : string) : list string :=
  match s with
  | EmptyString => [EmptyString]
  | String c s' =>
      if is_separator c then EmptyString :: re_split s'
      else match re_split s' with
           | piece :: pieces => String c piece :: pieces
           | [] => [String c EmptyString]
           end
  end.

(** [item['properties'][key] = v] *)
Definition set_property (key : string) (v : value) (it : item) : item :=
  Item (item_geometry it) (<[key := v]> (item_properties it)).

(** Lines 115-124, the body of [for item in input]: the items written for
    one item. *)
Definition split_item (it : item) : result (list item) :=
  match item_properties it !! "ref" with
  | None => Failed (KeyError "ref")
  | Some VNone => Done []
  | Some (VStr refTag) =>
      if decide (refTag = "None") then Done []
      else
        Done ((λ feature, set_property "ref" (VStr feature) it)
                <$> filter (λ feature, feature ≠ EmptyString) (re_split refTag))
  | Some (VInt _) | Some (VFloat _) => Failed TypeError
  end.

(** A loop over a collection whose body writes some items or raises. *)
Fixpoint write_each {A} (body : A → result (list item)) (input : list A)
    : list item * option error :=
  match input with
  | [] => ([], None)
  | it :: input' =>
      match body it with
      | Failed e => ([], Some e)
      | Done written =>
          let '(written', e) := write_each body input' in
          (written ++ written', e)
      end
  end.

(** Lines 107-124. *)
Definition split_and_duplicate_segments (input : list item)
    : list item * option error :=
  write_each split_item input.

(** ** create_shield_type *)

Definition state_hwys : list string :=
  ["IA"; "KS"; "UT"; "VA"; "NC"; "NE"; "SD"; "AL"; "ID"; "DE"; "AK"; "CT";
   "PR"; "NM"; "MS"; "CO"; "NJ"; "FL"; "MN"; "VI"; "NV"; "AZ"; "WI"; "ND";
   "PA"; "OK"; "KY"; "RI"; "NH"; "MO"; "ME"; "VT"; "GA"; "GU"; "AS"; "NY";
   "CA"; "HI"; "IL"; "TN"; "MA"; "OH"; "MD"; "MI"; "WY"; "WA"; "OR"; "MH";
   "SC"; "IN"; "LA"; "DC"; "MT"; "AR"; "WV"; "TX"; "ST"; "SR"; "SH"].

(** [^[I](\-|\s).*] with [re.IGNORECASE], searched: the text starts with
    an I and a hyphen or a space character. *)
Definition interstates_match (s : string) : bool :=
  match s with
  | String c0 (String c1 _) => eq_ci "I" c0 && (Ascii.eqb c1 "-" || is_space c1)
  | _ => false
  end.

(** [^[U][S](\s|\-).*] with [re.IGNORECASE], searched. *)
Definition us_hwys_match (s : string) : bool :=
  match s with
  | String c0 (String c1 (String c2 _)) =>
      eq_ci "U" c0 && eq_ci "S" c1 && (is_space c2 || Ascii.eqb c2 "-")
  | _ => false
  end.

(** [\b] after a word of the pattern that ends where [s] starts. *)
Definition boundary (s : string) : bool :=
  match s with
  | EmptyString => true
  | String c _ => negb (is_word c)
  end.

(** One of the words of [state_hwys] starts here and ends at a [\b]. *)
Definition state_here (s : string) : bool :=
  existsb (λ w, prefix_ci w s && boundary (drop_chars (String.length w) s))
    state_hwys.

(** [\b(IA|KS|...)\b] with [re.IGNORECASE], searched from a position whose
    preceding character is a word character or not. *)
Fixpoint state_from (after_word : bool) (s : string) : bool :=
  match s with
  | EmptyString => false
  | String c s' => (negb after_word && state_here s) || state_from (is_word c) s'
  end.

Definition state_hwys_match (s : string) : bool := state_from false s.

(** Lines 127-151. A fall through returns [None]. *)
Definition create_shield_type (it : item) (region : string)
    : result (option string) :=
  match item_properties it !! "ref" with
  | None => Failed (KeyError "ref")
  | Some refText =>
      if decide (region = "USA") then
        match refText with
        | VStr s =>
            if interstates_match s then Done (Some "I")
            else if us_hwys_match s then Done (Some "US")
            else if state_hwys_match s then Done (Some "ST")
            else Done None
        | _ => Failed TypeError
        end
      else if decide (region = "Global") then Done (Some "GLOBAL")
      else Done None
  end.

(** ** create_label *)

(** [re.sub(pat, repl, s, flags=re.IGNORECASE)] for a literal pattern: from
    the left, every occurrence that does not overlap an earlier one.
    [skip] counts the characters of the current occurrence still to pass. *)
Fixpoint sub_from (pat repl : string) (skip : nat) (s : string) : string :=
  match s with
  | EmptyString => EmptyString
  | String c s' =>
      match skip with
      | S n => sub_from pat repl n s'
      | O =>
          if prefix_ci pat s
          then repl +:+ sub_from pat repl (String.length pat - 1) s'
          else String c (sub_from pat repl 0 s')
      end
  end.

Definition re_sub (pat repl s : string) : string := sub_from pat repl 0 s.

(** Lines 160-184, in order. *)
Definition usa_substitutions : list (string * string) :=
  [("Business", ""); ("Alternate", ""); ("Truck", ""); ("Link", "");
   ("Bypass", ""); ("Spur", ""); ("Local", ""); ("Connector", "");
   ("Historic", ""); ("Alt", ""); ("Bus", ""); ("Loop", ""); ("Scenic", "");
   ("Ramp", ""); ("Express", ""); (" US", ""); (" I", "");
   ("North", "N"); ("South", "S"); ("East", "E"); ("West", "W")].

Definition usa_clean (refText : string) : string :=
  foldl (λ s sub, re_sub sub.1 sub.2 s) refText usa_substitutions.

(** [^\D*]: the text from its first digit on. *)
Fixpoint from_first_digit (s : string) : string :=
  match s with
  | EmptyString => EmptyString
  | String c s' => if is_digit c then s else from_first_digit s'
  end.

(** [\d+]: the digits at the start, and the rest. *)
Fixpoint span_digits (s : string) : string * string :=
  match s with
  | EmptyString => (EmptyString, EmptyString)
  | String c s' =>
      if is_digit c then
        let '(digits, rest) := span_digits s' in (String c digits, rest)
      else (EmptyString, s)
  end.

(** [[a-z ]*]: the letters and spaces at the start. *)
Fixpoint letters_and_spaces (s : string) : string :=
  match s with
  | EmptyString => EmptyString
  | String c s' =>
      if is_alpha c || Ascii.eqb c " " then String c (letters_and_spaces s')
      else EmptyString
  end.

(** [[a-z ]*[a-z]] on a run of letters and spaces: the longest start of
    the run that ends with a letter, empty when the run has no letter. *)
Fixpoint up_to_last_letter (s : string) : string :=
  match s with
  | EmptyString => EmptyString
  | String c s' =>
      match up_to_last_letter s' with
      | EmptyString => if is_alpha c then String c EmptyString else EmptyString
      | more => String c more
      end
  end.

(** [(?:(\w)|[- ][a-z ]*[a-z])?] after the digits. *)
Definition label_suffix (rest : string) : string :=
  match rest with
  | EmptyString => EmptyString
  | String c rest' =>
      if is_word c then String c EmptyString
      else if Ascii.eqb c "-" || Ascii.eqb c " " then
        match up_to_last_letter (letters_and_spaces rest') with
        | EmptyString => EmptyString
        | letters => String c letters
        end
      else EmptyString
  end.

(** Group 1 of [(?im)^\D*(\d+(?:(\w)|[- ][a-z ]*[a-z])?)], searched: none
    when the text has no digit. *)
Definition usa_label_match (s : string) : option string :=
  match from_first_digit s with
  | EmptyString => None
  | t => let '(digits, rest) := span_digits t in
         Some (digits +:+ label_suffix rest)
  end.

(** The characters that the pattern can put into group 1. *)
Definition label_char (c : ascii) : bool :=
  is_word c || Ascii.eqb c "-" || Ascii.eqb c " ".

(** [re.sub(r'MEX\s?\-?', "", s, flags=re.IGNORECASE)]: what follows an
    occurrence that starts the text. *)
Definition after_mex (s : string) : string :=
  let s1 := drop_chars 3 s in
  let s2 := match s1 with
            | String c s' => if is_space c then s' else s1
            | EmptyString => s1
            end in
  match s2 with
  | String c s' => if Ascii.eqb c "-" then s' else s2
  | EmptyString => s2
  end.

Fixpoint remove_mex_from (fuel : nat) (s : string) : string :=
  match fuel with
  | O => s
  | S fuel' =>
      match s with
      | EmptyString => EmptyString
      | String c s' =>
          if prefix_ci "MEX" s then remove_mex_from fuel' (after_mex s)
          else String c (remove_mex_from fuel' s')
      end
  end.

(** The fuel is the length of the text: every step passes a character. *)
Definition remove_mex (s : string) : string :=
  remove_mex_from (String.length s) s.

Section Strip.
(** The characters that [strip()] removes. *)
Variable strips : ascii → bool.

Fixpoint lstrip (s : string) : string :=
  match s with
  | EmptyString => EmptyString
  | String c s' => if strips c then lstrip s' else s
  end.

Fixpoint rstrip (s : string) : string :=
  match s with
  | EmptyString => EmptyString
  | String c s' =>
      match rstrip s' with
      | EmptyString => if strips c then EmptyString else String c EmptyString
      | more => String c more
      end
  end.

Definition strip (s : string) : string := rstrip (lstrip s).

(** Lines 198-215, the body of [try]; an exception inside it is caught and
    the function returns [None]. *)
Definition global_label (refText : value) : option string :=
  match refText with
  | VStr s =>
      let s := remove_mex s in
      if has_digit s then
        let truncateRef := strip (take_chars 7 s) in
        if has_digit truncateRef then Some truncateRef else None
      else None
  | _ => None
  end.

(** Lines 153-215. *)
Definition create_label (it : item) (region : string) : result (option string) :=
  match item_properties it !! "ref" with
  | None => Failed (KeyError "ref")
  | Some refText =>
      if decide (region = "USA") then
        match refText with
        | VStr s => Done (usa_label_match (usa_clean s))
        | _ => Failed TypeError
        end
      else if decide (region = "Global") then Done (global_label refText)
      else Done None
  end.

Definition value_of (label : option string) : value :=
  match label with
  | Some s => VStr s
  | None => VNone
  end.

Context `{K : Kernel}.

(** Lines 55-71, the body of [for item in input]. *)
Definition process_item (region : string) (it : item) : result (list item) :=
  match create_shield_type it region with
  | Failed e => Failed e
  | Done shield_val =>
      let it := set_property "shield_typ" (value_of shield_val) it in
      match create_label it region with
      | Failed e => Failed e
      | Done label_val =>
          let it := set_property "label" (value_of label_val) it in
          match shape (item_geometry it) with
          | Raise _ => Failed AttributeError
          | Ok geom =>
              let it := set_property "seg_len" (VFloat (geom_length geom)) it in
              match label_val with
              | None => Done []
              | Some label =>
                  let label_length_val := String.length label in
                  if bool_decide (region = "USA")
                     && ((5 <? label_length_val) || (label_length_val =? 0))%nat
                  then Done []
                  else
                    let it :=
                      set_property "label_len"
                        (VInt (Z.of_nat label_length_val)) it in
                    Done [Item (mapping geom) (item_properties it)]
              end
          end
      end
  end.

(** Lines 43-71. *)
Definition process_file (input : list item) (region : string)
    : list item * option error :=
  write_each (process_item region) input.
End Strip.

(** Items for the examples. *)
Module Roads.
Definition road (refText : value) : item :=
  Item (geometry Examples.line_10km) {[ "ref" := refText ]}.

Definition two_refs : list item := [road (VStr "MA 87; ,US 1"); road VNone].

Definition single_refs : list item :=
  [road (VStr "MA 87"); road (VStr " "); road (VStr "US 1")].

Definition european : list item := [road (VStr "E 45;E 20"); road VNone].

Definition mixed_refs : list item :=
  [road (VStr "Main St"); road (VStr "I-5"); road (VStr "MEX 15D toll road");
   road (VStr "US 1234567")].

(** [road (VStr refText)] as process_file writes it. *)
Definition labelled (refText shield label : string) : item :=
  Item (geometry Examples.line_10km)
    (<["label_len" := VInt (Z.of_nat (String.length label))]>
       (<["seg_len" := VFloat 10000]>
          (<["label" := VStr label]>
             (<["shield_typ" := VStr shield]> {[ "ref" := VStr refText ]})))).
End Roads.
End Shield.

(** * Properties of add_nodes *)

Section AddNodesFacts.
Context `{K : Kernel}.
Implicit Types (geom : geom) (r : gmap string string) (interval d : Z).

(** The loop returns as soon as the next multiple of the interval is
    not below the length, having written one node per multiple below. *)
Lemma sample_loop_returns geom r interval n : ∀ fuel d,
  n < fuel →
  (∀ k, k < n → (inject_Z (d + Z.of_nat k * interval) < geom_length geom)%Q) →
  (geom_length geom <= inject_Z (d + Z.of_nat n * interval))%Q →
  sample_loop fuel geom r interval d
  = ((λ k, node geom r (d + Z.of_nat k * interval)) <$> seq 0 n, Returned).
Proof.
  induction n as [|n IH]; intros fuel d Hfuel Hbelow Hstop.
  - destruct fuel as [|fuel]; [lia|]. simpl.
    destruct (Qlt_le_dec _ _) as [Hlt|_]; [|done].
    exfalso. replace (d + Z.of_nat 0 * interval)%Z with d in Hstop by lia.
    exact (Qlt_not_le _ _ Hlt Hstop).
  - destruct fuel as [|fuel]; [lia|]. simpl.
    destruct (Qlt_le_dec _ _) as [_|Hge].
    + rewrite (IH fuel (d + interval)%Z); [| lia | |].
      * unfold node at 2. replace (d + Z.of_nat 0 * interval)%Z with d by lia.
        do 2 f_equal. rewrite <- fmap_S_seq, <- list_fmap_compose.
        apply list_fmap_ext. intros _ k _. simpl. f_equal. lia.
      * intros k Hk. specialize (Hbelow (S k) ltac:(lia)).
        replace (d + interval + Z.of_nat k * interval)%Z with (d + Z.of_nat (S k) * interval)%Z by lia.
        exact Hbelow.
      * replace (d + interval + Z.of_nat n * interval)%Z with (d + Z.of_nat (S n) * interval)%Z by lia.
        exact Hstop.
    + exfalso. specialize (Hbelow 0 ltac:(lia)).
      replace (d + Z.of_nat 0 * interval)%Z with d in Hbelow by lia.
      exact (Qlt_not_le _ _ Hbelow Hge).
Qed.

(** With a non-positive interval [d] never reaches a positive length:
    every evaluation of the loop test writes one more node. *)
Lemma sample_loop_runs geom r interval : ∀ fuel d,
  (interval ≤ 0)%Z → (inject_Z d < geom_length geom)%Q →
  sample_loop fuel geom r interval d
  = ((λ k, node geom r (d + Z.of_nat k * interval)) <$> seq 0 fuel, Running).
Proof.
  induction fuel as [|fuel IH]; intros d Hi Hd; [done|]. simpl.
  destruct (Qlt_le_dec _ _) as [_|Hge]; [|exfalso; exact (Qlt_not_le _ _ Hd Hge)].
  rewrite IH; [| done |].
  - unfold node at 2. replace (d + Z.of_nat 0 * interval)%Z with d by lia.
    do 2 f_equal. rewrite <- fmap_S_seq, <- list_fmap_compose.
    apply list_fmap_ext. intros _ k _. simpl. f_equal. lia.
  - eapply Qle_lt_trans; [|exact Hd]. rewrite <- Zle_Qle. lia.
Qed.

Lemma sample_loop_empty geom r interval fuel d :
  (geom_length geom <= inject_Z d)%Q →
  sample_loop (S fuel) geom r interval d = ([], Returned).
Proof.
  intros Hd. simpl. destruct (Qlt_le_dec _ _) as [Hlt|_]; [|done].
  exfalso. exact (Qlt_not_le _ _ Hlt Hd).
Qed.

Lemma quotient_spec (L : Q) interval :
  (0 < interval)%Z → (L == (L / inject_Z interval) * inject_Z interval)%Q.
Proof.
  intros Hi. field. intros Hz. rewrite Zlt_Qlt in Hi. rewrite Hz in Hi.
  exact (Qlt_irrefl _ Hi).
Qed.

(** [sample_count L I] is the number of multiples of [I] below [L]. *)
Lemma sample_count_spec (L : Q) interval :
  (0 < interval)%Z →
  let n := sample_count L interval in
  (∀ k, k < n → (inject_Z (Z.of_nat k * interval) < L)%Q)
  ∧ (L <= inject_Z (Z.of_nat n * interval))%Q.
Proof.
  intros Hi n. subst n. unfold sample_count.
  pose proof (quotient_spec L interval Hi) as HL.
  set (q := (L / inject_Z interval)%Q) in *.
  pose proof (Qle_ceiling q) as Hup. pose proof (Qceiling_lt q) as Hlo.
  set (c := Qceiling q) in *. clearbody c. clearbody q.
  assert (0 < inject_Z interval)%Q as HiQ by (by rewrite Zlt_Qlt in Hi).
  split.
  - intros k Hk. assert (Z.of_nat k ≤ c - 1)%Z as Hkc by lia.
    rewrite Zle_Qle in Hkc. rewrite inject_Z_mult, HL.
    apply Qmult_lt_compat_r; [done | lra].
  - destruct (decide (0 ≤ c)%Z) as [Hc|Hc].
    + rewrite Z2Nat.id by done. rewrite inject_Z_mult, HL.
      apply Qmult_le_compat_r; [done | lra].
    + replace (Z.to_nat c) with 0 by lia.
      assert (c ≤ 0)%Z as Hc' by lia. rewrite Zle_Qle in Hc'.
      rewrite inject_Z_mult, HL. apply Qmult_le_compat_r; [|lra].
      change (inject_Z (Z.of_nat 0)) with 0%Q. change (inject_Z 0) with 0%Q in Hc'.
      lra.
Qed.

Lemma distances_length interval n : length (distances interval n) = n.
Proof. unfold distances. by rewrite length_fmap, length_seq. Qed.

Lemma elem_of_distances interval n d :
  d ∈ distances interval n ↔ ∃ k, k < n ∧ d = (Z.of_nat k * interval)%Z.
Proof.
  unfold distances. rewrite list_elem_of_fmap. split.
  - intros (k & -> & Hk). apply elem_of_seq in Hk. exists k. split; [lia|done].
  - intros (k & Hk & ->). exists k. split; [done|]. apply elem_of_seq. lia.
Qed.

(** Where the count of the specification and the count of the loop
    agree: on the lengths that are not a multiple of the interval. *)
Lemma sample_count_vs_spec (L : Q) interval :
  (0 < interval)%Z → (0 <= L)%Q →
  sample_count L interval = spec_count L interval
  ↔ ∀ k : Z, ¬ (L == inject_Z (k * interval))%Q.
Proof.
  intros Hi HL0. unfold sample_count, spec_count.
  pose proof (quotient_spec L interval Hi) as HL.
  set (q := (L / inject_Z interval)%Q) in *. clearbody q.
  assert (0 < inject_Z interval)%Q as HiQ by (by rewrite Zlt_Qlt in Hi).
  assert (0 <= q)%Q as Hq0.
  { destruct (Qlt_le_dec q 0) as [Hneg|?]; [exfalso|done].
    apply (Qmult_lt_compat_r _ _ (inject_Z interval)) in Hneg; [|done].
    lra. }
  pose proof (Qle_ceiling q) as Hup. pose proof (Qceiling_lt q) as Hlo.
  pose proof (Qfloor_le q) as Hfl. pose proof (Qlt_floor q) as Hfu.
  assert (0 ≤ Qfloor q)%Z as Hf0.
  { rewrite <- (Qfloor_Z 0). by apply Qfloor_resp_le. }
  assert (0 ≤ Qceiling q)%Z as Hc0.
  { rewrite <- (Qceiling_Z 0). by apply Qceiling_resp_le. }
  split.
  - intros Heq k Hk.
    assert (q == inject_Z k)%Q as Hqk.
    { rewrite inject_Z_mult in Hk. apply (Qmult_inj_r _ _ (inject_Z interval)); [lra|].
      by rewrite <- HL. }
    rewrite Hqk, Qceiling_Z in Hc0. rewrite Hqk, Qceiling_Z, Qfloor_Z in Heq. lia.
  - intros Hno. f_equal.
    assert (¬ (q == inject_Z (Qfloor q))%Q) as Hne.
    { intros Hqf. apply (Hno (Qfloor q)). rewrite inject_Z_mult, HL at 1.
      by rewrite Hqf at 1. }
    assert (inject_Z (Qfloor q) < q)%Q as Hlt.
    { apply Qle_lteq in Hfl as [?|Heq]; [done|]. by destruct Hne. }
    assert (Qfloor q < Qceiling q)%Z by (rewrite Zlt_Qlt; lra).
    assert (Qceiling q - 1 < Qfloor q + 1)%Z by (rewrite Zlt_Qlt; lra).
    lia.
Qed.

Lemma sample_line_returns (rec : feature) geom interval fuel :
  geometry rec = Some geom → (0 < interval)%Z →
  sample_count (geom_length geom) interval < fuel →
  sample_line fuel rec interval
  = (node geom (node_properties rec)
       <$> distances interval (sample_count (geom_length geom) interval),
     Returned).
Proof.
  intros Hg Hi Hfuel. unfold sample_line, shape. rewrite Hg.
  destruct (sample_count_spec (geom_length geom) interval Hi) as [Hbelow Hstop].
  rewrite (sample_loop_returns _ _ _ _ _ _ Hfuel); [| done | done].
  unfold distances. rewrite <- list_fmap_compose. done.
Qed.
End AddNodesFacts.

(** C1, as amended. For a line feature of length [L] and an interval
    [I > 0], the sampling loop of [add_nodes] returns and has written
    exactly [ceil(L / I)] nodes, in order at the distances [0, I, 2·I, ...]:
    the multiples of [I] strictly below [L], all of them and no other. For
    [L ≥ 0] this count is [floor(L / I) + 1] exactly when [L] is not a
    multiple of [I]. *)
Theorem sampling_count `{K : Kernel} (rec : feature) (geom : geom)
    (interval : Z) (fuel : nat) :
  geometry rec = Some geom →
  (0 < interval)%Z →
  sample_count (geom_length geom) interval < fuel →
  let L := geom_length geom in
  let n := sample_count L interval in
  add_nodes fuel [rec] interval
  = (node geom (node_properties rec) <$> distances interval n, Returned)
  ∧ length (distances interval n) = n
  ∧ (∀ d, d ∈ distances interval n
          ↔ ∃ k : nat, d = (Z.of_nat k * interval)%Z ∧ (inject_Z d < L)%Q)
  ∧ ((0 <= L)%Q →
     n = spec_count L interval ↔ ∀ k : Z, ¬ (L == inject_Z (k * interval))%Q).
Proof.
  intros Hg Hi Hfuel L n.
  destruct (sample_count_spec L interval Hi) as [Hbelow Hstop]. fold n in Hbelow, Hstop.
  split; [|split; [|split]].
  - simpl. rewrite (sample_line_returns rec geom interval fuel Hg Hi Hfuel).
    by rewrite app_nil_r.
  - apply distances_length.
  - intros d. rewrite elem_of_distances. split.
    + intros (k & Hk & ->). exists k. split; [done|]. by apply Hbelow.
    + intros (k & -> & Hd). exists k. split; [|done].
      destruct (decide (k < n)) as [|Hge]; [done|exfalso].
      assert (Z.of_nat n * interval ≤ Z.of_nat k * interval)%Z as Hle by nia.
      rewrite Zle_Qle in Hle.
      exact (Qlt_not_le _ _ Hd (Qle_trans _ _ _ Hstop Hle)).
  - intros HL. by apply sample_count_vs_spec.
Qed.

Lemma sampling_count_witness :
  add_nodes 10 [Examples.line_10km] 2500
  = (node (LineString [(0, 0); (10000, 0)]%Q) (node_properties Examples.line_10km)
       <$> distances 2500 4, Returned).
Proof.
  apply (sampling_count (K := Planar.kernel) Examples.line_10km
           (LineString [(0, 0); (10000, 0)]%Q) 2500 10);
    [reflexivity | lia | vm_compute; lia].
Defined.

(** C1 as stated fails on the example of the specification itself: a line
    of length 10000 sampled every 2500 gets the 4 nodes at 0, 2500, 5000 and
    7500, and [floor(10000 / 2500) + 1] is 5. *)
Lemma sampling_count_counterexample :
  Planar.arc_length (LineString [(0, 0); (10000, 0)]%Q) = 10000%Q
  ∧ geometry <$> (add_nodes 10 [Examples.line_10km] 2500).1
    = [Some (Point (0, 0)%Q); Some (Point (2500, 0)%Q);
       Some (Point (5000, 0)%Q); Some (Point (7500, 0)%Q)]
  ∧ (add_nodes 10 [Examples.line_10km] 2500).2 = Returned
  ∧ spec_count 10000 2500 = 5
  ∧ length (add_nodes 10 [Examples.line_10km] 2500).1 ≠ spec_count 10000 2500.
Proof. vm_compute. repeat split; congruence. Qed.

(** C2, as amended. For a line feature of length 0 the test [d < geom.length]
    fails at [d = 0]: the loop writes no node, whatever the interval. *)
Theorem degenerate_line `{K : Kernel} (rec : feature) (geom : geom)
    (interval : Z) (fuel : nat) :
  geometry rec = Some geom →
  (geom_length geom == 0)%Q →
  add_nodes (S fuel) [rec] interval = ([], Returned).
Proof.
  intros Hg HL. cbn [add_nodes]. unfold sample_line, shape. rewrite Hg.
  rewrite sample_loop_empty; [done|]. rewrite HL. apply Qle_refl.
Qed.

Lemma degenerate_line_witness :
  add_nodes 10 [Examples.line_zero] 1000 = ([], Returned).
Proof.
  apply (degenerate_line (K := Planar.kernel) Examples.line_zero
           (LineString [(5, 5); (5, 5)]%Q) 1000 9); [reflexivity | reflexivity].
Defined.

(** C2 as stated fails: a line of length 0 sampled every 1000 gets no
    node, not one. *)
Lemma degenerate_line_counterexample :
  Planar.arc_length (LineString [(5, 5); (5, 5)]%Q) = 0%Q
  ∧ add_nodes 10 [Examples.line_zero] 1000 = ([], Returned)
  ∧ length (add_nodes 10 [Examples.line_zero] 1000).1 ≠ 1.
Proof. vm_compute. repeat split; congruence. Qed.

(** C3, as amended. [add_nodes] does not validate the interval and raises
    nothing. With [interval <= 0] and a line of positive length the loop
    never returns: every evaluation of its test writes one more node, at
    the distances [0, I, 2·I, ...], so the output grows with the fuel. A
    line of length 0 gets no node and the run returns. *)
Theorem nonpositive_interval `{K : Kernel} (rec : feature) (geom : geom)
    (interval : Z) (fuel : nat) :
  geometry rec = Some geom →
  (interval ≤ 0)%Z →
  ((0 < geom_length geom)%Q →
   add_nodes fuel [rec] interval
   = (node geom (node_properties rec) <$> distances interval fuel, Running))
  ∧ ((geom_length geom <= 0)%Q →
     add_nodes (S fuel) [rec] interval = ([], Returned)).
Proof.
  intros Hg Hi. split; intros HL.
  - cbn [add_nodes]. unfold sample_line, shape. rewrite Hg.
    rewrite sample_loop_runs; [| done | done].
    unfold distances. rewrite <- list_fmap_compose. done.
  - cbn [add_nodes]. unfold sample_line, shape. rewrite Hg.
    by rewrite sample_loop_empty.
Qed.

Lemma nonpositive_interval_witness :
  add_nodes 3 [Examples.line_10km] 0
  = (node (LineString [(0, 0); (10000, 0)]%Q) (node_properties Examples.line_10km)
       <$> distances 0 3, Running).
Proof.
  apply (nonpositive_interval (K := Planar.kernel) Examples.line_10km
           (LineString [(0, 0); (10000, 0)]%Q) 0 3); [reflexivity | lia | reflexivity].
Defined.

(** C3 as stated fails: with interval 0 (and with interval -2500) the run
    on a line of length 10000 does not fail, and it has written three nodes
    when the loop test has been evaluated three times; on a line of length
    0 it returns normally. *)
Lemma nonpositive_interval_counterexample :
  (geometry <$> (add_nodes 3 [Examples.line_10km] 0).1
   = [Some (Point (0, 0)%Q); Some (Point (0, 0)%Q); Some (Point (0, 0)%Q)]
   ∧ (add_nodes 3 [Examples.line_10km] 0).2 = Running)
  ∧ (length (add_nodes 3 [Examples.line_10km] (-2500)).1 = 3
     ∧ (add_nodes 3 [Examples.line_10km] (-2500)).2 = Running)
  ∧ add_nodes 3 [Examples.line_zero] 0 = ([], Returned).
Proof. vm_compute. repeat split. Qed.

(** * Properties of thin_nodes *)

(** ** The record operations *)

Lemma set_flags_id include processed r :
  rec_id (set_flags include processed r) = rec_id r.
Proof. done. Qed.

Lemma set_flags_geometry include processed r :
  rec_geometry (set_flags include processed r) = rec_geometry r.
Proof. done. Qed.

Lemma set_flags_flags include processed r :
  flags (set_flags include processed r) = (Some include, Some processed).
Proof.
  unfold flags, set_flags. simpl.
  rewrite lookup_insert_ne by done. by rewrite !lookup_insert_eq.
Qed.

Lemma set_flags_other include processed r key :
  key ≠ "INCLUDE" → key ≠ "PROCESSED" →
  rec_properties (set_flags include processed r) !! key = rec_properties r !! key.
Proof. intros. unfold set_flags. simpl. by rewrite !lookup_insert_ne. Qed.

Lemma set_flags_same include processed r :
  flags r = (Some include, Some processed) → set_flags include processed r = r.
Proof.
  destruct r as [i g m]. unfold flags, set_flags. simpl. intros [= Hi Hp].
  f_equal. rewrite (insert_id m "INCLUDE") by done. by rewrite insert_id.
Qed.

Lemma apply_event_length ev rs : length (apply_event ev rs) = length rs.
Proof. unfold apply_event. by rewrite length_alter. Qed.

Lemma apply_event_target ev rs r :
  rs !! target_of ev = Some r →
  apply_event ev rs !! target_of ev
  = Some (set_flags (flags_of ev).1 (flags_of ev).2 r).
Proof. intros Hr. unfold apply_event. by rewrite list_lookup_alter_eq, Hr. Qed.

Lemma apply_event_other ev rs i :
  i ≠ target_of ev → apply_event ev rs !! i = rs !! i.
Proof. intros Hi. unfold apply_event. by rewrite list_lookup_alter_ne. Qed.

(** ** The program, statement by statement *)

Section Run.
Context `{K : Kernel}.
Variable input_file : list feature.
Variable group_field : string.
Variable radius : Q.

Local Abbreviation steps := (steps group_field radius).
Local Abbreviation event_ok := (event_ok group_field radius).
Local Abbreviation scan := (scan group_field).
Local Abbreviation turn := (turn input_file group_field radius).
Local Abbreviation thin_pass := (thin_pass input_file group_field radius).
Local Abbreviation thin_nodes := (thin_nodes input_file group_field radius).

Lemma steps_trans s1 s2 s3 : steps s1 s2 → steps s2 s3 → steps s1 s3.
Proof.
  intros H12 H23. induction H23 as [|s s' ev _ IH Hev]; [done|].
  apply steps_write; [by apply IH|done].
Qed.

Lemma steps_length s s' : steps s s' → length (recs s') = length (recs s).
Proof.
  induction 1 as [|s s' ev _ IH _]; [done|]. simpl.
  by rewrite apply_event_length.
Qed.

(** Line 124 reads only. *)
Lemma skipped_spec x s :
  match skipped x s with
  | (Ok false, s') => s' = s ∧ ∃ r, recs s !! x = Some r ∧ probe_ok r
  | (Ok true, s') =>
      s' = s ∧ ∃ r, recs s !! x = Some r
        ∧ (rec_properties r !! "INCLUDE" = Some "N"
           ∨ rec_properties r !! "PROCESSED" = Some "Y")
  | (Raise _, s') => s' = s
  end.
Proof.
  unfold skipped, prop, get_rec, bind, ret, raise.
  destruct (recs s !! x) as [r|] eqn:Hr; [|done].
  destruct (rec_properties r !! "INCLUDE") as [include|] eqn:Hi; [|done].
  destruct (decide (include = "N")) as [->|Hn].
  { split; [done|]. eauto. }
  rewrite Hr. destruct (rec_properties r !! "PROCESSED") as [processed|] eqn:Hp; [|done].
  destruct (decide (processed = "Y")) as [->|Hy].
  - rewrite bool_decide_eq_true_2 by done. split; [done|]. eauto.
  - rewrite bool_decide_eq_false_2 by done. split; [done|].
    exists r. split; [done|]. by exists include, processed.
Qed.

(** Line 139 reads only, and is true only when all five operands are. *)
Lemma excludes_spec x j search_id s :
  match excludes group_field x j search_id s with
  | (Ok true, s') =>
      s' = s ∧ ∃ a t v,
        recs s !! x = Some a ∧ recs s !! j = Some t
        ∧ rec_id a ≠ rec_id t ∧ rec_id t = search_id
        ∧ rec_properties a !! group_field = Some v
        ∧ rec_properties t !! group_field = Some v
        ∧ rec_properties t !! "INCLUDE" = Some "Y"
        ∧ rec_properties a !! "PROCESSED" = Some "N"
  | (_, s') => s' = s
  end.
Proof.
  unfold excludes, prop, get_rec, bind, ret, raise.
  destruct (recs s !! x) as [a|] eqn:Ha; [|done].
  destruct (recs s !! j) as [t|] eqn:Ht; [|done].
  destruct (decide (rec_id a = rec_id t)) as [|Hid]; [done|].
  destruct (decide (rec_id t = search_id)) as [Hsid|]; [|done].
  rewrite Ha. destruct (rec_properties a !! group_field) as [va|] eqn:Hva; [|done].
  rewrite Ht. destruct (rec_properties t !! group_field) as [vt|] eqn:Hvt; [|done].
  destruct (decide (va = vt)) as [->|]; [|done].
  rewrite Ht. destruct (rec_properties t !! "INCLUDE") as [include|] eqn:Hi; [|done].
  destruct (decide (include = "Y")) as [->|]; [|done].
  rewrite Ha. destruct (rec_properties a !! "PROCESSED") as [processed|] eqn:Hp; [|done].
  destruct (decide (processed = "N")) as [->|].
  - rewrite bool_decide_eq_true_2 by done. split; [done|].
    by exists a, t, vt.
  - by rewrite bool_decide_eq_false_2.
Qed.

(** One candidate: at most one write, which is tested and leaves the
    active record as it is. *)
Lemma scan_steps x a geom search_id s :
  recs s !! x = Some a → probe_ok a → rec_geometry a = Some geom →
  steps s (scan x (buffer geom radius) search_id s).2
  ∧ recs (scan x (buffer geom radius) search_id s).2 !! x = Some a.
Proof.
  intros Ha Hok Hg. unfold scan, index, get_rec, bind, ret, raise.
  destruct (py_index _ _) as [j|]; [|split; [constructor|done]].
  destruct (recs s !! j) as [t|] eqn:Ht; [|split; [constructor|done]].
  unfold shape. destruct (rec_geometry t) as [gt|] eqn:Hgt; [|split; [constructor|done]].
  destruct (within gt (buffer geom radius)) eqn:Hw; [|split; [constructor|done]].
  pose proof (excludes_spec x j search_id s) as Hex.
  destruct (excludes group_field x j search_id s) as [[[|]|e] s'].
  - destruct Hex as (-> & a' & t' & v & Ha' & Ht' & Hid & _ & Hva & Hvt & Hi & Hp).
    rewrite Ha in Ha'. injection Ha' as <-. rewrite Ht in Ht'. injection Ht' as <-.
    unfold write_flags. simpl. split.
    + apply (steps_write _ _ s s (Excluded x j)); [constructor|].
      by exists a, t, geom, gt, v.
    + rewrite apply_event_other; [done|]. simpl. intros ->.
      rewrite Ha in Ht. by injection Ht as <-.
  - subst s'. split; [constructor|done].
  - subst s'. split; [constructor|done].
Qed.

Lemma scans_steps x a geom search_ids : ∀ s,
  recs s !! x = Some a → probe_ok a → rec_geometry a = Some geom →
  steps s (for_each search_ids (scan x (buffer geom radius)) s).2
  ∧ recs (for_each search_ids (scan x (buffer geom radius)) s).2 !! x = Some a.
Proof.
  induction search_ids as [|search_id search_ids IH]; intros s Ha Hok Hg.
  { split; [constructor|done]. }
  simpl. unfold bind.
  destruct (scan_steps x a geom search_id s Ha Hok Hg) as [Hst Hx].
  destruct (scan x (buffer geom radius) search_id s) as [[[]|e] s1]; simpl in *.
  - destruct (IH s1 Hx Hok Hg) as [Hst' Hx']. split; [|done].
    by apply (steps_trans _ s1).
  - done.
Qed.

(** One turn of the outer loop. *)
Lemma turn_steps x s : steps s (turn x s).2.
Proof.
  unfold turn, bind at 1.
  pose proof (skipped_spec x s) as Hsk.
  destruct (skipped x s) as [[[|]|e] s1]; simpl.
  - destruct Hsk as [-> _]. constructor.
  - destruct Hsk as (-> & a & Ha & Hok).
    unfold bind, get_rec, ret. rewrite Ha. unfold shape.
    destruct (rec_geometry a) as [geom|] eqn:Hg.
    + destruct (scans_steps x a geom
                  (records_within input_file (buffer geom (radius * 1.1))) s Ha Hok Hg)
        as [Hst Hx].
      destruct (for_each _ _ s) as [[[]|e] s1]; simpl in *; [|done].
      unfold write_flags. simpl. apply steps_write; [done|].
      by exists a, geom.
    + constructor.
  - subst s1. constructor.
Qed.

Lemma turns_steps xs : ∀ s, steps s (for_each xs turn s).2.
Proof.
  induction xs as [|x xs IH]; intros s; [constructor|].
  simpl. unfold bind. pose proof (turn_steps x s) as Hst.
  destruct (turn x s) as [[[]|e] s1]; simpl in *; [|done].
  by apply (steps_trans _ s1).
Qed.

Lemma thin_pass_steps s : steps s (thin_pass s).2.
Proof. apply turns_steps. Qed.

Lemma thin_nodes_state :
  thin_nodes.2 = (thin_pass (State (fiona_read input_file) [])).2.
Proof.
  unfold thin_nodes. by destruct (thin_pass _) as [[[]|e] s].
Qed.

Lemma thin_nodes_steps : steps (State (fiona_read input_file) []) thin_nodes.2.
Proof. rewrite thin_nodes_state. apply thin_pass_steps. Qed.
End Run.

(** ** Histories *)

Lemma history_write rs tr rs' ev :
  history rs tr rs' → history rs (tr ++ [(rs', ev)]) (apply_event ev rs').
Proof.
  induction 1 as [rs|rs ev' tr rs' _ IH]; simpl.
  - constructor. constructor.
  - by constructor.
Qed.

Lemma history_app rs tr1 rs1 tr2 rs2 :
  history rs tr1 rs1 → history rs1 tr2 rs2 → history rs (tr1 ++ tr2) rs2.
Proof. induction 1; simpl; [done|]. intros. constructor. auto. Qed.

(** A property of the list that every tested write preserves holds of
    every entry of a history and of its end. *)
Lemma history_invariant (I : list rec → Prop) (ok : list rec → event → Prop)
    rs tr rs' :
  (∀ rs ev, I rs → ok rs ev → I (apply_event ev rs)) →
  history rs tr rs' →
  Forall (λ e, ok e.1 e.2) tr →
  I rs →
  Forall (λ e, I e.1) tr ∧ I rs'.
Proof.
  intros Hstep. induction 1 as [rs|rs ev tr rs' _ IH]; intros Hok HI.
  - by split.
  - apply Forall_cons in Hok as [Hev Hok]. simpl in Hev.
    destruct (IH Hok (Hstep _ _ HI Hev)) as [Htr Hrs'].
    split; [|done]. by constructor.
Qed.

Lemma same_content_refl r : same_content r r.
Proof. by repeat split. Qed.

Lemma same_content_trans r1 r2 r3 :
  same_content r1 r2 → same_content r2 r3 → same_content r1 r3.
Proof.
  intros (Hi & Hg & Hp) (Hi' & Hg' & Hp'). repeat split; [congruence..|].
  intros key H1 H2. rewrite Hp' by done. by apply Hp.
Qed.

Lemma same_content_set_flags include processed r :
  same_content r (set_flags include processed r).
Proof. repeat split. intros. by apply set_flags_other. Qed.

(** A write keeps the length of [recs] and the content of every record. *)
Lemma apply_event_content ev rs0 rs :
  Forall2 same_content rs0 rs → Forall2 same_content rs0 (apply_event ev rs).
Proof.
  intros H. unfold apply_event. apply Forall2_alter_r; [done|].
  intros r0 r _ _ Hc. eapply same_content_trans; [done|].
  apply same_content_set_flags.
Qed.

Section Traces.
Context `{K : Kernel}.
Variable input_file : list feature.
Variable group_field : string.
Variable radius : Q.

Local Abbreviation steps := (steps group_field radius).
Local Abbreviation event_ok := (event_ok group_field radius).
Local Abbreviation thin_nodes := (thin_nodes input_file group_field radius).

Lemma steps_history s s' :
  steps s s' →
  ∃ tr, trace s' = trace s ++ tr
        ∧ history (recs s) tr (recs s')
        ∧ Forall (λ e, event_ok e.1 e.2) tr.
Proof.
  induction 1 as [s|s s' ev _ (tr & Htr & Hh & Hok) Hev].
  - exists []. rewrite app_nil_r. repeat split; constructor.
  - exists (tr ++ [(recs s', ev)]). simpl. split; [by rewrite Htr, app_assoc|].
    split; [by apply history_write|].
    apply Forall_app. split; [done|]. by repeat constructor.
Qed.

(** The history of a run is faithful, and all its writes are tested. *)
Lemma thin_nodes_history :
  history (fiona_read input_file) (trace thin_nodes.2) (recs thin_nodes.2)
  ∧ Forall (λ e, event_ok e.1 e.2) (trace thin_nodes.2).
Proof.
  destruct (steps_history _ _ (thin_nodes_steps input_file group_field radius))
    as (tr & Htr & Hh & Hok).
  simpl in Htr, Hh. rewrite Htr. done.
Qed.

Lemma thin_nodes_event before ev :
  (before, ev) ∈ trace thin_nodes.2 → event_ok before ev.
Proof.
  intros Hin. destruct thin_nodes_history as [_ Hok].
  rewrite Forall_forall in Hok. exact (Hok _ Hin).
Qed.

(** Every entry of the history, and the final list, has the records of
    the input with their content. *)
Lemma thin_nodes_content :
  Forall (λ e, Forall2 same_content (fiona_read input_file) e.1) (trace thin_nodes.2)
  ∧ Forall2 same_content (fiona_read input_file) (recs thin_nodes.2).
Proof.
  destruct thin_nodes_history as [Hh Hok].
  eapply (history_invariant (Forall2 same_content (fiona_read input_file))
            (λ _ _, True)); [| exact Hh | |].
  - intros rs ev Hrs _. by apply apply_event_content.
  - by apply Forall_true.
  - apply Forall2_same_length_lookup. split; [done|].
    intros i r r' Hr Hr'. rewrite Hr in Hr'. injection Hr' as <-.
    apply same_content_refl.
Qed.
End Traces.

Lemma fiona_read_lookup file i :
  fiona_read file !! i
  = (λ f, Rec (Z.of_nat i) (geometry f) (properties f)) <$> file !! i.
Proof. unfold fiona_read. by rewrite list_lookup_imap. Qed.

Lemma fiona_read_length file : length (fiona_read file) = length file.
Proof. unfold fiona_read. by rewrite length_imap. Qed.

(** ** Who excludes whom *)

(** C7. Two records whose group values differ never exclude one another,
    whatever their distance. The group values are those the records have
    when line 139 compares them; when the group field is not one of the two
    flag fields these are the values of the input file. *)
Theorem group_isolation `{K : Kernel} (input_file : list feature)
    (group_field : string) (radius : Q) :
  let outcome := thin_nodes input_file group_field radius in
  (∀ before probe target,
     (before, Excluded probe target) ∈ trace outcome.2 →
     ∃ a t v,
       before !! probe = Some a ∧ before !! target = Some t
       ∧ rec_properties a !! group_field = Some v
       ∧ rec_properties t !! group_field = Some v)
  ∧ (group_field ≠ "INCLUDE" → group_field ≠ "PROCESSED" →
     ∀ i j fi fj,
       input_file !! i = Some fi → input_file !! j = Some fj →
       properties fi !! group_field ≠ properties fj !! group_field →
       ∀ before,
         ((before, Excluded i j) ∉ trace outcome.2)
         ∧ ((before, Excluded j i) ∉ trace outcome.2)).
Proof.
  intros outcome.
  assert (∀ before probe target,
     (before, Excluded probe target) ∈ trace outcome.2 →
     ∃ a t v,
       before !! probe = Some a ∧ before !! target = Some t
       ∧ rec_properties a !! group_field = Some v
       ∧ rec_properties t !! group_field = Some v) as Hsame.
  { intros before probe target Hin.
    apply thin_nodes_event in Hin
      as (a & t & _ & _ & v & Ha & Ht & _ & _ & _ & _ & _ & Hva & Hvt & _).
    by exists a, t, v. }
  split; [exact Hsame|].
  intros Hg1 Hg2.
  assert (∀ i j fi fj before,
     input_file !! i = Some fi → input_file !! j = Some fj →
     (before, Excluded i j) ∈ trace outcome.2 →
     properties fi !! group_field = properties fj !! group_field) as Hone.
  { intros i j fi fj before Hi Hj Hin.
    destruct (Hsame _ _ _ Hin) as (a & t & v & Ha & Ht & Hva & Hvt).
    destruct (thin_nodes_content input_file group_field radius) as [Hc _].
    rewrite Forall_forall in Hc. specialize (Hc _ Hin). simpl in Hc.
    assert (fiona_read input_file !! i = Some (Rec (Z.of_nat i) (geometry fi) (properties fi)))
      as Hri by (by rewrite fiona_read_lookup, Hi).
    assert (fiona_read input_file !! j = Some (Rec (Z.of_nat j) (geometry fj) (properties fj)))
      as Hrj by (by rewrite fiona_read_lookup, Hj).
    destruct (Forall2_lookup_lr _ _ _ _ _ _ Hc Hri Ha) as (_ & _ & Hpa).
    destruct (Forall2_lookup_lr _ _ _ _ _ _ Hc Hrj Ht) as (_ & _ & Hpt).
    specialize (Hpa group_field Hg1 Hg2). specialize (Hpt group_field Hg1 Hg2).
    simpl in Hpa, Hpt. congruence. }
  intros i j fi fj Hi Hj Hne before. split; intros Hin.
  - apply Hne. by apply (Hone i j fi fj before).
  - apply Hne. symmetry. by apply (Hone j i fj fi before).
Qed.

Lemma group_isolation_witness :
  ((fiona_read Examples.two_groups, Excluded 0 1)
     ∉ trace (thin_nodes Examples.two_groups "label" 500).2)
  ∧ ((fiona_read Examples.two_groups, Excluded 1 0)
       ∉ trace (thin_nodes Examples.two_groups "label" 500).2).
Proof.
  apply (proj2 (group_isolation (K := Planar.kernel) Examples.two_groups "label" 500)
           ltac:(done) ltac:(done) 0 1
           (Examples.node_at 0 0 "I-5" "Y" "N") (Examples.node_at 100 0 "US-101" "Y" "N")
           eq_refl eq_refl).
  vm_compute. congruence.
Defined.

(** C10. Whenever a record is excluded, the active record is another
    record, it has the same group value, and the excluded record passed
    the exact test against its buffer of the thinning radius; where the
    buffer of a point lies in the circle of its radius, the two coordinates
    are at most the radius apart. The search margin decides nothing. *)
Theorem exclusion_within_radius `{K : Kernel} (input_file : list feature)
    (group_field : string) (radius : Q) :
  buffer_inscribed →
  ∀ before probe target,
    (before, Excluded probe target)
      ∈ trace (thin_nodes input_file group_field radius).2 →
    ∃ a t ga gt v,
      before !! probe = Some a ∧ before !! target = Some t
      ∧ probe ≠ target ∧ rec_id a ≠ rec_id t
      ∧ rec_properties a !! group_field = Some v
      ∧ rec_properties t !! group_field = Some v
      ∧ rec_geometry a = Some ga ∧ rec_geometry t = Some gt
      ∧ within gt (buffer ga radius) = true
      ∧ ∀ c p, ga = Point c → gt = Point p → (dist2 c p <= radius * radius)%Q.
Proof.
  intros Hin before probe target Hev.
  apply thin_nodes_event in Hev
    as (a & t & ga & gt & v & Ha & Ht & _ & Hga & Hgt & Hw & Hid & Hva & Hvt & _).
  exists a, t, ga, gt, v. repeat split; try done.
  - intros ->. rewrite Ha in Ht. by injection Ht as <-.
  - intros c p -> ->. by apply Hin.
Qed.

(** The planar kernel is inscribed. *)
Lemma planar_inscribed : buffer_inscribed (K := Planar.kernel).
Proof.
  intros c p r. simpl. unfold Planar.Qlt_bool.
  intros [_ Hlt]%andb_true_iff. apply negb_true_iff in Hlt.
  destruct (Qlt_le_dec (dist2 c p) (r * r)) as [?|Hle]; [by apply Qlt_le_weak|].
  apply Qle_bool_iff in Hle. congruence.
Qed.

Lemma exclusion_within_radius_witness :
  ∃ a t ga gt v,
    fiona_read Examples.three_in_a_row !! 0 = Some a
    ∧ fiona_read Examples.three_in_a_row !! 1 = Some t
    ∧ 0 ≠ 1 ∧ rec_id a ≠ rec_id t
    ∧ rec_properties a !! "label" = Some v
    ∧ rec_properties t !! "label" = Some v
    ∧ rec_geometry a = Some ga ∧ rec_geometry t = Some gt
    ∧ within gt (buffer ga 1500) = true
    ∧ ∀ c p, ga = Point c → gt = Point p → (dist2 c p <= 1500 * 1500)%Q.
Proof.
  apply (exclusion_within_radius (K := Planar.kernel) Examples.three_in_a_row
           "label" 1500 planar_inscribed (fiona_read Examples.three_in_a_row) 0 1).
  apply (list_elem_of_lookup_2 _ 0). vm_compute. reflexivity.
Defined.

(** ** A loop that raises *)

(** An exception in the body of a loop ends the loop. *)
Lemma for_each_raise {A} (body : A → M unit) l1 a l2 s s1 e s2 :
  for_each l1 body s = (Ok tt, s1) →
  body a s1 = (Raise e, s2) →
  for_each (l1 ++ a :: l2) body s = (Raise e, s2).
Proof.
  revert s. induction l1 as [|b l1 IH]; intros s H1 Ha; simpl in *.
  - unfold ret in H1. injection H1 as <-. unfold bind. by rewrite Ha.
  - unfold bind in *. destruct (body b s) as [[[]|e'] s']; [|done]. by apply IH.
Qed.

(** ** The output *)

Section Output.
Context `{K : Kernel}.

Lemma write_kept_spec rs out :
  write_kept rs = Ok out → out = fiona_write <$> filter kept rs.
Proof.
  revert out. induction rs as [|r rs IH]; intros out; simpl.
  { by intros [= <-]. }
  destruct (rec_properties r !! "INCLUDE") as [include|] eqn:Hi; [|done].
  destruct (write_kept rs) as [f_output|]; [|done].
  intros [= <-]. rewrite (IH f_output eq_refl).
  destruct (decide (include = "Y")) as [->|Hn].
  - by rewrite filter_cons_True.
  - rewrite filter_cons_False; [done|]. unfold kept. congruence.
Qed.

Lemma thin_nodes_output input_file group_field radius out :
  (thin_nodes input_file group_field radius).1 = Ok out →
  out = fiona_write <$> filter kept (recs (thin_nodes input_file group_field radius).2).
Proof.
  unfold thin_nodes. destruct (thin_pass _ _ _ _) as [[[]|e] s]; simpl; [|done].
  apply write_kept_spec.
Qed.

Lemma strip_same_content r r' :
  same_content r r' → strip (fiona_write r') = strip (fiona_write r).
Proof.
  intros (_ & Hg & Hp). unfold strip, fiona_write. simpl. f_equal; [done|].
  apply map_eq. intros key.
  destruct (decide (key = "PROCESSED")) as [->|H1]; [by rewrite !lookup_delete_eq|].
  rewrite !(lookup_delete_ne _ "PROCESSED") by done.
  destruct (decide (key = "INCLUDE")) as [->|H2]; [by rewrite !lookup_delete_eq|].
  rewrite !(lookup_delete_ne _ "INCLUDE") by done. by apply Hp.
Qed.

Lemma fiona_write_read file : fiona_write <$> fiona_read file = file.
Proof.
  apply list_eq. intros i. rewrite list_lookup_fmap, fiona_read_lookup.
  destruct (file !! i) as [[g m]|]; done.
Qed.
End Output.

(** C9. The output file holds the records whose ['INCLUDE'] is ['Y'] after
    the pass, in the order of [recs], which is the order of the input file:
    [recs] keeps its length, and every record keeps its id, its geometry
    and every attribute but the two flags. Without the flags, the output
    is a subsequence of the input. *)
Theorem output_is_kept_subsequence `{K : Kernel} (input_file : list feature)
    (group_field : string) (radius : Q) (out : list feature) (s : state) :
  thin_nodes input_file group_field radius = (Ok out, s) →
  out = fiona_write <$> filter kept (recs s)
  ∧ Forall2 same_content (fiona_read input_file) (recs s)
  ∧ strip <$> out `sublist_of` strip <$> input_file.
Proof.
  intros Hrun.
  pose proof (thin_nodes_output input_file group_field radius out) as Hout.
  destruct (thin_nodes_content input_file group_field radius) as [_ Hc].
  rewrite Hrun in Hout, Hc. simpl in Hout, Hc.
  specialize (Hout eq_refl). split; [done|]. split; [done|].
  subst out.
  assert (strip <$> input_file = strip <$> (fiona_write <$> recs s)) as ->.
  { rewrite <- (fiona_write_read input_file) at 1.
    rewrite <- !list_fmap_compose.
    apply list_eq. intros i. rewrite !list_lookup_fmap.
    destruct (fiona_read input_file !! i) as [r0|] eqn:H0.
    - destruct (Forall2_lookup_l _ _ _ _ _ Hc H0) as (r & Hr & Hsame).
      rewrite Hr. simpl. f_equal. symmetry. by apply strip_same_content.
    - apply lookup_ge_None in H0. rewrite (Forall2_length _ _ _ Hc) in H0.
      apply lookup_ge_None in H0. by rewrite H0. }
  apply fmap_sublist, fmap_sublist. apply sublist_filter.
Qed.

Lemma output_is_kept_subsequence_witness :
  ∃ s,
    geometry <$> (fiona_write <$> filter kept (recs s))
    = [Some (Point (0, 0)%Q); Some (Point (2000, 0)%Q)]
    ∧ Forall2 same_content (fiona_read Examples.three_in_a_row) (recs s).
Proof.
  exists (thin_nodes Examples.three_in_a_row "label" 1500).2.
  destruct (output_is_kept_subsequence (K := Planar.kernel) Examples.three_in_a_row
              "label" 1500
              (fiona_write <$> filter kept (recs (thin_nodes Examples.three_in_a_row "label" 1500).2))
              (thin_nodes Examples.three_in_a_row "label" 1500).2)
    as (_ & Hc & _).
  - vm_compute. reflexivity.
  - split; [|exact Hc]. vm_compute. reflexivity.
Defined.

(** ** The flags *)

Lemma standard_flags_open file i r :
  standard_flags file → fiona_read file !! i = Some r → flags r = open_flags.
Proof.
  intros Hstd Hr. rewrite fiona_read_lookup in Hr.
  destruct (file !! i) as [f|] eqn:Hf; [|done]. injection Hr as <-.
  destruct (Hstd f) as [Hi Hp]; [by eapply list_elem_of_lookup_2|].
  unfold flags, open_flags. simpl. by rewrite Hi, Hp.
Qed.





Lemma reaffirm_open x rs r :
  rs !! x = Some r → flags r = open_flags → apply_event (Reaffirmed x) rs = rs.
Proof.
  intros Hr Hf. unfold apply_event. simpl. apply list_eq. intros i.
  destruct (decide (i = x)) as [->|Hne].
  - rewrite list_lookup_alter_eq, Hr. simpl. f_equal. by apply set_flags_same.
  - by rewrite list_lookup_alter_ne.
Qed.

Section Flags.
Context `{K : Kernel}.
Variable input_file : list feature.
Variable group_field : string.
Variable radius : Q.




Lemma skipped_false x s a :
  recs s !! x = Some a → probe_ok a → skipped x s = (Ok false, s).
Proof.
  intros Ha (include & processed & Hi & Hn & Hp & Hy).
  unfold skipped, prop, get_rec, bind, ret. rewrite Ha, Hi.
  rewrite decide_False by done. rewrite Ha, Hp.
  by rewrite bool_decide_eq_false_2.
Qed.

End Flags.






(** ** What a returned pass has settled *)

(** A loop that returns has established its invariant for all elements. *)
Lemma for_each_ok {A} (I : list A → state → Prop) (body : A → M unit) :
  (∀ done a s s', I done s → body a s = (Ok tt, s') → I (done ++ [a]) s') →
  ∀ l done s s', I done s → for_each l body s = (Ok tt, s') → I (done ++ l) s'.
Proof.
  intros Hbody. induction l as [|a l IH]; intros done s s' HI Hrun; simpl in *.
  - unfold ret in Hrun. injection Hrun as <-. by rewrite app_nil_r.
  - unfold bind in Hrun. destruct (body a s) as [[[]|e] s1] eqn:Hb; [|done].
    replace (done ++ a :: l) with ((done ++ [a]) ++ l) by (by rewrite <- app_assoc).
    apply (IH _ s1); [by apply (Hbody _ _ s)|done].
Qed.

Lemma open_flags_fields r :
  flags r = open_flags →
  rec_properties r !! "INCLUDE" = Some "Y" ∧ rec_properties r !! "PROCESSED" = Some "N".
Proof. unfold flags, open_flags. by intros [= -> ->]. Qed.

Lemma open_probe_ok r : flags r = open_flags → probe_ok r.
Proof. intros [Hi Hp]%open_flags_fields. by exists "Y", "N". Qed.

Section Settling.
Context `{K : Kernel}.
Variable input_file : list feature.
Variable group_field : string.
Variable radius : Q.
Hypothesis Hstandard : standard_flags input_file.

Local Abbreviation init := (fiona_read input_file).
Local Abbreviation steps := (steps group_field radius).
Local Abbreviation event_ok := (event_ok group_field radius).
Local Abbreviation checked := (checked group_field radius).
Local Abbreviation settled := (settled group_field radius input_file).
Local Abbreviation scan := (scan group_field).
Local Abbreviation turn := (turn input_file group_field radius).

Lemma excludes_eval x j search_id s a t :
  recs s !! x = Some a → recs s !! j = Some t →
  excludes group_field x j search_id s = (excludes_on group_field a t search_id, s).
Proof.
  intros Ha Ht. unfold excludes, excludes_on, prop, get_rec, bind, ret, raise.
  rewrite Ha, Ht.
  destruct (decide (rec_id a = rec_id t)); [done|].
  destruct (decide (rec_id t = search_id)); [|done].
  rewrite Ha. destruct (rec_properties a !! group_field) as [va|]; [|done].
  rewrite Ht. destruct (rec_properties t !! group_field) as [vt|]; [|done].
  destruct (decide (va = vt)); [|done].
  rewrite Ht. destruct (rec_properties t !! "INCLUDE") as [include|]; [|done].
  destruct (decide (include = "Y")); [|done].
  rewrite Ha. by destruct (rec_properties a !! "PROCESSED").
Qed.

Lemma scan_eval x geom_buffer search_id s j a t gt :
  py_index (length (recs s)) search_id = Some j →
  recs s !! j = Some t → rec_geometry t = Some gt → recs s !! x = Some a →
  scan x geom_buffer search_id s
  = if within gt geom_buffer then
      match excludes_on group_field a t search_id with
      | Ok true => write_flags (Excluded x j) s
      | Ok false => (Ok tt, s)
      | Raise e => (Raise e, s)
      end
    else (Ok tt, s).
Proof.
  intros Hj Ht Hgt Ha. unfold scan, index, get_rec, bind, ret, raise.
  rewrite Hj, Ht. unfold shape. rewrite Hgt.
  destruct (within gt geom_buffer); [|done].
  rewrite (excludes_eval x j search_id s a t Ha Ht).
  by destruct (excludes_on group_field a t search_id) as [[|]|e].
Qed.

Lemma tame_lookup (rs : list rec) j t :
  tame init rs → rs !! j = Some t →
  ∃ t0, init !! j = Some t0 ∧ flags t0 = open_flags
        ∧ (t = t0 ∨ t = set_flags "N" "Y" t0).
Proof.
  intros Htame Ht. destruct (Forall2_lookup_r _ _ _ _ _ Htame Ht) as (t0 & Ht0 & Hcase).
  exists t0. split; [done|]. split; [|done].
  by apply (standard_flags_open input_file j).
Qed.

Lemma excluded_not_open r : flags r = open_flags → set_flags "N" "Y" r ≠ r.
Proof.
  intros Hf Heq. pose proof (set_flags_flags "N" "Y" r) as Hf'.
  rewrite Heq, Hf in Hf'. done.
Qed.

(** An excluded record is never written. *)
Lemma excluded_stable s s' j r :
  steps s s' → recs s !! j = Some r → rec_properties r !! "INCLUDE" = Some "N" →
  recs s' !! j = Some r.
Proof.
  intros Hst Hr Hn. induction Hst as [|s s' ev _ IH Hev]; [done|].
  specialize (IH Hr). simpl. rewrite apply_event_other; [done|].
  intros ->. destruct ev as [probe target|x]; simpl in *.
  - destruct Hev as (a & t & _ & _ & _ & _ & Ht & _ & _ & _ & _ & _ & _ & _ & Hi & _).
    rewrite Ht in IH. injection IH as ->. congruence.
  - destruct Hev as (r' & _ & Hr' & (include & _ & Hi & Hne & _) & _).
    rewrite Hr' in IH. injection IH as ->. congruence.
Qed.

Lemma apply_event_tame ev (rs : list rec) :
  tame init rs → event_ok rs ev → tame init (apply_event ev rs).
Proof.
  intros Htame Hev. unfold apply_event.
  assert (∃ r, rs !! target_of ev = Some r
               ∧ rec_properties r !! "INCLUDE" ≠ Some "N") as (r & Hr & Hne).
  { destruct ev as [probe target|x]; simpl in *.
    - destruct Hev as (a & t & _ & _ & _ & _ & Ht & _ & _ & _ & _ & _ & _ & _ & Hi & _).
      exists t. split; [done|congruence].
    - destruct Hev as (r & _ & Hr & (include & _ & Hi & Hne & _) & _).
      exists r. split; [done|congruence]. }
  destruct (tame_lookup rs _ r Htame Hr) as (r0 & Hr0 & Hopen & [->| ->]).
  - apply Forall2_alter_r; [done|]. intros r0' r' Hr0' Hr' _.
    rewrite Hr0 in Hr0'. injection Hr0' as <-.
    rewrite Hr in Hr'. injection Hr' as <-.
    destruct ev; simpl; [by right|left].
    by apply set_flags_same.
  - exfalso. apply Hne. unfold set_flags. simpl.
    rewrite lookup_insert_ne by done. by rewrite lookup_insert_eq.
Qed.

Lemma tame_steps s s' : tame init (recs s) → steps s s' → tame init (recs s').
Proof.
  intros Htame. induction 1 as [|s s' ev _ IH Hev]; [done|].
  simpl. apply apply_event_tame; [by apply IH|done].
Qed.

Lemma tame_init : tame init init.
Proof. apply Forall_Forall2_diag, Forall_forall. intros r _. by left. Qed.

Lemma checked_stable s s' a ga search_id :
  steps s s' →
  checked init (recs s) a ga search_id → checked init (recs s') a ga search_id.
Proof.
  intros Hst (j & t & gt & Hj & Ht & Hgt & Hc).
  exists j, t, gt. split; [done|]. split; [done|]. split; [done|].
  intros Hw Hid Hsid. destruct (Hc Hw Hid Hsid) as (va & vt & Hva & Hvt & Hex).
  exists va, vt. split; [done|]. split; [done|]. intros Heq.
  apply (excluded_stable s s'); [done| by apply Hex |].
  unfold set_flags. simpl. rewrite lookup_insert_ne by done. by rewrite lookup_insert_eq.
Qed.

(** One candidate, when the scan returns. *)
Lemma scan_checked x a ga search_id s s' :
  tame init (recs s) → init !! x = Some a → recs s !! x = Some a →
  scan x (buffer ga radius) search_id s = (Ok tt, s') →
  checked init (recs s') a ga search_id.
Proof.
  intros Htame Ha0 Ha Hscan.
  pose proof (standard_flags_open input_file x a Hstandard Ha0) as [_ Hap]%open_flags_fields.
  unfold scan, index, get_rec, bind, ret, raise in Hscan.
  destruct (py_index (length (recs s)) search_id) as [j|] eqn:Hj; [|done].
  destruct (recs s !! j) as [t|] eqn:Ht; [|done].
  unfold shape in Hscan. destruct (rec_geometry t) as [gt|] eqn:Hgt; [|done].
  destruct (tame_lookup _ j t Htame Ht) as (t0 & Ht0 & [Hti Htp]%open_flags_fields & Hcase).
  exists j, t0, gt. rewrite (Forall2_length _ _ _ Htame).
  split; [done|]. split; [done|].
  split; [by destruct Hcase as [->| ->]|].
  intros Hw Hid Hsid. rewrite Hw in Hscan.
  rewrite (excludes_eval x j search_id s a t Ha Ht) in Hscan.
  unfold excludes_on in Hscan.
  assert (rec_id t = rec_id t0) as Hidt by (by destruct Hcase as [->| ->]).
  rewrite Hidt in Hscan.
  rewrite decide_False in Hscan by done. rewrite decide_True in Hscan by done.
  destruct (rec_properties a !! group_field) as [va|] eqn:Hva; [|done].
  destruct (rec_properties t !! group_field) as [vt|] eqn:Hvt; [|done].
  destruct Hcase as [->| ->].
  - exists va, vt. split; [done|]. split; [done|]. intros <-.
    rewrite decide_True in Hscan by done. rewrite Hti in Hscan.
    rewrite decide_True in Hscan by done. rewrite Hap in Hscan.
    rewrite bool_decide_eq_true_2 in Hscan by done.
    unfold write_flags in Hscan. injection Hscan as <-. simpl.
    by rewrite (apply_event_target (Excluded x j) _ t0).
  - assert (s' = s) as ->.
    { destruct (decide (va = vt)); [|by injection Hscan].
      unfold set_flags in Hscan. simpl in Hscan.
      rewrite lookup_insert_ne in Hscan by done.
      rewrite lookup_insert_eq in Hscan. rewrite decide_False in Hscan by done.
      by injection Hscan. }
    assert (∃ vt0, rec_properties t0 !! group_field = Some vt0) as [vt0 Hvt0].
    { destruct (decide (group_field = "INCLUDE")) as [->|H1]; [by eexists|].
      destruct (decide (group_field = "PROCESSED")) as [->|H2]; [by eexists|].
      rewrite set_flags_other in Hvt by done. by eexists. }
    exists va, vt0. split; [done|]. split; [done|]. by intros _.
Qed.

(** All candidates, when the loop returns. *)
Lemma scans_checked x a ga search_ids s s' :
  tame init (recs s) → init !! x = Some a → recs s !! x = Some a →
  rec_geometry a = Some ga →
  for_each search_ids (scan x (buffer ga radius)) s = (Ok tt, s') →
  steps s s' ∧ recs s' !! x = Some a
  ∧ ∀ search_id, search_id ∈ search_ids → checked init (recs s') a ga search_id.
Proof.
  intros Htame Ha0 Ha Hga Hrun.
  pose proof (open_probe_ok a (standard_flags_open input_file x a Hstandard Ha0)) as Hok.
  set (I := λ (done : list Z) (s' : state),
         steps s s' ∧ recs s' !! x = Some a
         ∧ ∀ search_id, search_id ∈ done → checked init (recs s') a ga search_id).
  assert (I [] s) as Hinit.
  { split; [constructor|]. split; [done|]. intros sid Hin. by apply elem_of_nil in Hin. }
  assert (∀ done search_id s1 s2,
            I done s1 → scan x (buffer ga radius) search_id s1 = (Ok tt, s2) →
            I (done ++ [search_id]) s2) as Hbody.
  { intros done search_id s1 s2 (Hst & Hx & Hdone) Hscan.
    destruct (scan_steps group_field radius x a ga search_id s1 Hx Hok Hga)
      as [Hst12 Hx2].
    rewrite Hscan in Hst12, Hx2. simpl in Hst12, Hx2.
    split; [by apply (steps_trans group_field radius _ s1)|]. split; [done|].
    intros sid [Hin| ->%list_elem_of_singleton]%elem_of_app.
    - apply (checked_stable s1 s2); [done|]. by apply Hdone.
    - apply (scan_checked x a ga search_id s1 s2); [|done..].
      by apply (tame_steps s s1). }
  exact (for_each_ok I _ Hbody search_ids [] s s' Hinit Hrun).
Qed.

(** One turn, when it returns. *)
Lemma turn_settled x s s' :
  tame init (recs s) → turn x s = (Ok tt, s') → settled (recs s') x.
Proof.
  intros Htame Hturn a Ha0 Hx'.
  pose proof (standard_flags_open input_file x a Hstandard Ha0) as Hopen.
  unfold turn, bind at 1 in Hturn.
  pose proof (skipped_spec x s) as Hsk.
  destruct (skipped x s) as [[[|]|e] s1]; [| |done].
  - destruct Hsk as (-> & r & Hr & Hflag). unfold ret in Hturn. injection Hturn as <-.
    rewrite Hr in Hx'. injection Hx' as ->.
    apply open_flags_fields in Hopen as [Hi Hp]. destruct Hflag; congruence.
  - destruct Hsk as (-> & r & Hr & Hok).
    unfold bind, get_rec, ret in Hturn. rewrite Hr in Hturn. unfold shape in Hturn.
    assert (r = a) as ->.
    { destruct (tame_lookup _ x r Htame Hr) as (a0 & Ha0' & _ & [->| ->]).
      - congruence.
      - destruct Hok as (include & _ & Hi & Hne & _). exfalso. apply Hne.
        unfold set_flags in Hi. simpl in Hi.
        rewrite lookup_insert_ne in Hi by done. rewrite lookup_insert_eq in Hi.
        congruence. }
    destruct (rec_geometry a) as [ga|] eqn:Hga.
    + exists ga. split; [done|].
      destruct (for_each _ _ s) as [[[]|e] s1] eqn:Hloop; [|done].
      apply (scans_checked x a ga _ s s1) in Hloop as (Hst & Hx1 & Hall); [|done..].
      unfold write_flags in Hturn. injection Hturn as <-. simpl.
      rewrite (reaffirm_open x (recs s1) a Hx1 Hopen). exact Hall.
    + done.
Qed.

Lemma settled_stable s s' x :
  tame init (recs s) → steps s s' → settled (recs s) x → settled (recs s') x.
Proof.
  intros Htame Hst Hset a Ha0 Hx'.
  pose proof (standard_flags_open input_file x a Hstandard Ha0) as Hopen.
  destruct (Forall2_lookup_l _ _ _ _ _ Htame Ha0) as (r & Hr & Hcase).
  assert (r = a) as ->.
  { destruct Hcase as [->| ->]; [done|].
    apply (excluded_stable s s') in Hr; [|done|].
    - rewrite Hr in Hx'. injection Hx' as Hx'. by apply excluded_not_open in Hx'.
    - unfold set_flags. simpl. rewrite lookup_insert_ne by done.
      by rewrite lookup_insert_eq. }
  destruct (Hset a Ha0 Hr) as (ga & Hga & Hall). exists ga. split; [done|].
  intros sid Hin. apply (checked_stable s s'); [done|]. by apply Hall.
Qed.

(** The whole pass, when it returns. *)
Lemma thin_pass_settled s :
  thin_pass input_file group_field radius (State init []) = (Ok tt, s) →
  tame init (recs s) ∧ ∀ x, settled (recs s) x.
Proof.
  intros Hpass. unfold thin_pass in Hpass. simpl in Hpass.
  set (I := λ (done : list nat) (s' : state),
         steps (State init []) s' ∧ ∀ x, x ∈ done → settled (recs s') x).
  assert (I [] (State init [])) as Hinit.
  { split; [constructor|]. intros x Hin. by apply elem_of_nil in Hin. }
  assert (∀ done x s1 s2, I done s1 → turn x s1 = (Ok tt, s2) → I (done ++ [x]) s2)
    as Hbody.
  { intros done x s1 s2 [Hst Hdone] Hturn.
    assert (tame init (recs s1)) as Htame
      by (by apply (tame_steps (State init []) s1); [apply tame_init|]).
    pose proof (turn_steps input_file group_field radius x s1) as Hst12.
    rewrite Hturn in Hst12. simpl in Hst12.
    split; [by apply (steps_trans group_field radius _ s1)|].
    intros y [Hin| ->%list_elem_of_singleton]%elem_of_app.
    - apply (settled_stable s1 s2); [done..|]. by apply Hdone.
    - by apply (turn_settled x s1 s2). }
  destruct (for_each_ok I _ Hbody _ [] _ s Hinit Hpass) as [Hst Hall]. simpl in Hall.
  split; [by apply (tame_steps (State init []) s); [apply tame_init|]|].
  intros x. destruct (decide (x < length init)) as [Hlt|Hge].
  - apply Hall, elem_of_seq. lia.
  - intros a Ha0 _. apply lookup_lt_Some in Ha0. lia.
Qed.
End Settling.

(** ** The output of a returned run *)

Lemma py_index_nat n k : k < n → py_index n (Z.of_nat k) = Some k.
Proof.
  intros Hk. unfold py_index. rewrite decide_True by lia. by rewrite Nat2Z.id.
Qed.

Lemma fiona_read_elem file r :
  r ∈ fiona_read file → ∃ k, fiona_read file !! k = Some r ∧ rec_id r = Z.of_nat k.
Proof.
  intros (k & Hk)%list_elem_of_lookup_1. exists k. split; [done|].
  rewrite fiona_read_lookup in Hk. destruct (file !! k); [|done]. by injection Hk as <-.
Qed.



Section Separation.
Context `{K : Kernel}.
Variable input_file : list feature.
Variable group_field : string.
Variable radius : Q.
Hypothesis Hstandard : standard_flags input_file.
Hypothesis Hcomplete : search_complete radius.

Local Abbreviation init := (fiona_read input_file).

(** A kept record of a returned pass is a record of the input, at its
    place, and settled. *)
Lemma kept_record (rs : list rec) a :
  tame init rs → a ∈ filter kept rs →
  ∃ i, init !! i = Some a ∧ rs !! i = Some a ∧ rec_id a = Z.of_nat i.
Proof.
  intros Htame [Hkept (i & Hi)%list_elem_of_lookup_1]%list_elem_of_filter.
  exists i. destruct (tame_lookup input_file Hstandard rs i a Htame Hi)
    as (a0 & Ha0 & _ & [->| ->]).
  - split; [done|]. split; [done|].
    rewrite fiona_read_lookup in Ha0. destruct (input_file !! i); [|done].
    by injection Ha0 as <-.
  - exfalso. unfold kept, set_flags in Hkept. simpl in Hkept.
    rewrite lookup_insert_ne in Hkept by done. by rewrite lookup_insert_eq in Hkept.
Qed.

Lemma tame_NoDup (rs : list rec) : tame init rs → NoDup rs.
Proof.
  intros Htame. apply NoDup_alt. intros i j r Hi Hj.
  destruct (tame_lookup input_file Hstandard rs i r Htame Hi) as (a & Ha & _ & Hca).
  destruct (tame_lookup input_file Hstandard rs j r Htame Hj) as (b & Hb & _ & Hcb).
  rewrite fiona_read_lookup in Ha, Hb.
  destruct (input_file !! i); [|done]. destruct (input_file !! j); [|done].
  injection Ha as <-. injection Hb as <-.
  assert (Z.of_nat i = Z.of_nat j) as Heq;
    [|lia].
  destruct Hca as [->| ->], Hcb as [Hr|Hr]; apply (f_equal rec_id) in Hr; by simpl in Hr.
Qed.

(** The output of a returned run is separated, and its features have the
    flags of new nodes. *)
Lemma output_separated out s :
  thin_nodes input_file group_field radius = (Ok out, s) →
  separated group_field radius out ∧ standard_flags out.
Proof.
  intros Hrun. unfold thin_nodes in Hrun.
  destruct (thin_pass _ _ _ _) as [[[]|e] s1] eqn:Hpass; [|done].
  injection Hrun as Hout <-. apply write_kept_spec in Hout.
  destruct (thin_pass_settled input_file group_field radius Hstandard s1 Hpass)
    as [Htame Hsettled].
  pose proof (tame_NoDup (recs s1) Htame) as Hnodup.
  apply (NoDup_filter kept) in Hnodup.
  split.
  - intros p fp Hp. rewrite Hout, list_lookup_fmap in Hp.
    destruct (filter kept (recs s1) !! p) as [a|] eqn:Hap; [|done].
    injection Hp as <-.
    destruct (kept_record (recs s1) a Htame) as (i & Hai & Has & Hida);
      [by eapply list_elem_of_lookup_2|].
    destruct (Hsettled i a Hai Has) as (ga & Hga & Hall).
    exists ga. split; [done|].
    intros t ft gt Ht Hne Hgt Hw. rewrite Hout, list_lookup_fmap in Ht.
    destruct (filter kept (recs s1) !! t) as [b|] eqn:Hbt; [|done].
    injection Ht as <-. simpl in Hgt.
    destruct (kept_record (recs s1) b Htame) as (j & Hbi & Hbs & Hidb);
      [by eapply list_elem_of_lookup_2|].
    assert (i ≠ j) as Hij.
    { intros ->. rewrite Has in Hbs. injection Hbs as ->.
      apply Hne. by apply (NoDup_lookup _ p t b Hnodup). }
    assert (rec_id b ∈ records_within input_file (buffer ga (radius * 1.1))) as Hin.
    { unfold records_within. apply list_elem_of_fmap_2.
      apply (Hcomplete init ga b gt);
        [by eapply list_elem_of_lookup_2|by rewrite Hgt|done]. }
    destruct (Hall _ Hin) as (j' & b' & gt' & Hj' & Hb' & Hgt' & Hc).
    rewrite Hidb, py_index_nat in Hj' by (by eapply lookup_lt_Some).
    injection Hj' as <-. rewrite Hbi in Hb'. injection Hb' as <-.
    rewrite Hgt in Hgt'. injection Hgt' as <-.
    destruct (Hc Hw) as (va & vb & Hva & Hvb & Hex); [lia|done|].
    exists va, vb. split; [done|]. split; [done|]. intros Heq.
    specialize (Hex Heq). rewrite Hbs in Hex. injection Hex as Hex.
    symmetry in Hex. apply excluded_not_open in Hex; [done|].
    by apply (standard_flags_open input_file j).
  - intros f Hf. rewrite Hout in Hf.
    apply list_elem_of_fmap in Hf as (a & -> & Ha).
    destruct (kept_record (recs s1) a Htame Ha) as (i & Hai & _ & _).
    by apply (standard_flags_open input_file i a Hstandard) in Hai
      as [Hi Hp]%open_flags_fields.
Qed.
End Separation.

(** ** A run on a separated file *)

(** A loop whose body returns and keeps an invariant returns. *)
Lemma for_each_returns {A} (I : state → Prop) (body : A → M unit) l :
  (∀ a s, a ∈ l → I s → ∃ s', body a s = (Ok tt, s') ∧ I s') →
  ∀ s, I s → ∃ s', for_each l body s = (Ok tt, s') ∧ I s'.
Proof.
  induction l as [|a l IH]; intros Hbody s HI; simpl.
  - by exists s.
  - destruct (Hbody a s) as (s1 & Ha & HI1); [by left|done|].
    unfold bind. rewrite Ha. apply IH; [|done].
    intros b s2 Hb. apply Hbody. by right.
Qed.


Lemma read_record file i r :
  fiona_read file !! i = Some r →
  ∃ f, file !! i = Some f ∧ r = Rec (Z.of_nat i) (geometry f) (properties f).
Proof.
  rewrite fiona_read_lookup. destruct (file !! i) as [f|]; [|done].
  intros [= <-]. by exists f.
Qed.

Section SecondRun.
Context `{K : Kernel}.
Variable file : list feature.
Variable group_field : string.
Variable radius : Q.
Hypothesis Hstandard : standard_flags file.
Hypothesis Hseparated : separated group_field radius file.

Local Abbreviation init := (fiona_read file).
Local Abbreviation event_ok := (event_ok group_field radius).
Local Abbreviation scan := (scan group_field).
Local Abbreviation turn := (turn file group_field radius).





Section Returns.
Hypothesis Hsound : search_sound.



End Returns.
End SecondRun.

(** ** The planar kernel meets the conditions *)

Lemma square_bound (d e r : Q) :
  (0 < r)%Q → (d * d + e * e < r * r)%Q → (d <= r * 1.1 ∧ - (r * 1.1) <= d)%Q.
Proof. intros. split; nra. Qed.

Lemma planar_Qlt_bool a b : Planar.Qlt_bool a b = true → (a < b)%Q.
Proof.
  unfold Planar.Qlt_bool. intros Hlt%negb_true_iff.
  destruct (Qlt_le_dec a b) as [|Hle]; [done|].
  apply Qle_bool_iff in Hle. congruence.
Qed.

Lemma planar_complete radius : search_complete (K := Planar.kernel) radius.
Proof.
  intros file geom r gs Hr Hgs Hw. simpl in *. unfold shape in Hgs.
  destruct (rec_geometry r) as [g|] eqn:Hg; [|done]. injection Hgs as ->.
  rename Hg into Hgs.
  unfold Planar.select. apply list_elem_of_filter. split; [|done].
  unfold Planar.selected. rewrite Hgs.
  destruct gs as [p|]; [|done]. destruct geom as [c|]; [|done]. simpl in Hw.
  apply andb_true_iff in Hw as [Hpos%planar_Qlt_bool Hd%planar_Qlt_bool].
  unfold dist2 in Hd. destruct c as [cx cy], p as [px py]. simpl in *.
  destruct (square_bound (cx - px) (cy - py) radius Hpos Hd) as [Hx1 Hx2].
  assert ((cy - py) * (cy - py) + (cx - px) * (cx - px) < radius * radius)%Q as Hd'
    by lra.
  destruct (square_bound (cy - py) (cx - px) radius Hpos Hd') as [Hy1 Hy2].
  rewrite !andb_true_iff, !Qle_bool_iff. repeat split; lra.
Qed.

Lemma planar_sound : search_sound (K := Planar.kernel).
Proof.
  intros file b r. simpl. unfold Planar.select.
  by intros [_ ?]%list_elem_of_filter.
Qed.

(** ** Thinning twice *)




(** ** First index wins, on new nodes *)

(** A loop keeps an invariant of its progress, and a property of the
    state that the body establishes whether it returns or raises. *)
Lemma for_each_both {A} (I : list A → state → Prop) (E : state → Prop)
    (body : A → M unit) l :
  (∀ done a rest s, l = done ++ a :: rest → I done s →
     match body a s with
     | (Ok _, s') => I (done ++ [a]) s'
     | (Raise _, s') => E s'
     end) →
  (∀ s, I l s → E s) →
  ∀ s, I [] s → E (for_each l body s).2.
Proof.
  intros Hbody Hend.
  assert (∀ rest done s, l = done ++ rest → I done s → E (for_each rest body s).2)
    as Hgen.
  { induction rest as [|a rest IH]; intros done s Hl HI; simpl.
    - apply Hend. by rewrite Hl, app_nil_r.
    - unfold bind. specialize (Hbody done a rest s Hl HI).
      destruct (body a s) as [[[]|e] s1]; [|done].
      apply (IH (done ++ [a])); [by rewrite <- app_assoc|done]. }
  intros s HI. by apply (Hgen l [] s).
Qed.

Section Probes.
Context `{K : Kernel}.
Variable input_file : list feature.
Variable group_field : string.
Variable radius : Q.

Local Abbreviation scan := (scan group_field).
Local Abbreviation turn := (turn input_file group_field radius).

(** The writes of a turn are those of its active record. *)
Lemma scan_probe x geom_buffer search_id s :
  ∃ tr, trace (scan x geom_buffer search_id s).2 = trace s ++ tr
        ∧ Forall (λ e, probe_of e.2 = x) tr.
Proof.
  unfold scan, index, get_rec, bind, ret, raise.
  assert (∃ tr, trace s = trace s ++ tr ∧ Forall (λ e, probe_of e.2 = x) tr) as Hnone
    by (exists []; by rewrite app_nil_r).
  destruct (py_index _ _) as [j|]; [|done].
  destruct (recs s !! j) as [t|]; [|done].
  destruct (shape (rec_geometry t)) as [gt|]; [|done].
  destruct (within gt geom_buffer); [|done].
  pose proof (excludes_spec group_field x j search_id s) as Hex.
  destruct (excludes group_field x j search_id s) as [[[|]|e] s'].
  - destruct Hex as [-> _]. exists [(recs s, Excluded x j)]. split; [done|].
    by repeat constructor.
  - by subst s'.
  - by subst s'.
Qed.

Lemma scans_probe x geom_buffer search_ids : ∀ s,
  ∃ tr, trace (for_each search_ids (scan x geom_buffer) s).2 = trace s ++ tr
        ∧ Forall (λ e, probe_of e.2 = x) tr.
Proof.
  induction search_ids as [|search_id search_ids IH]; intros s; simpl.
  { exists []. by rewrite app_nil_r. }
  unfold bind. destruct (scan_probe x geom_buffer search_id s) as (tr1 & Htr1 & Hp1).
  destruct (scan x geom_buffer search_id s) as [[[]|e] s1]; simpl in *.
  - destruct (IH s1) as (tr2 & Htr2 & Hp2). exists (tr1 ++ tr2).
    split; [by rewrite Htr2, Htr1, app_assoc|]. by apply Forall_app.
  - by exists tr1.
Qed.

Lemma turn_probe x s :
  ∃ tr, trace (turn x s).2 = trace s ++ tr ∧ Forall (λ e, probe_of e.2 = x) tr.
Proof.
  assert (∃ tr, trace s = trace s ++ tr ∧ Forall (λ e, probe_of e.2 = x) tr) as Hnone
    by (exists []; by rewrite app_nil_r).
  unfold turn, bind at 1. pose proof (skipped_spec x s) as Hsk.
  destruct (skipped x s) as [[[|]|e] s1]; simpl.
  - by destruct Hsk as [-> _].
  - destruct Hsk as [-> _]. unfold bind, get_rec, ret.
    destruct (recs s !! x) as [a|]; [|done].
    destruct (shape (rec_geometry a)) as [geom|].
    + destruct (scans_probe x (buffer geom radius)
                  (records_within input_file (buffer geom (radius * 1.1))) s)
        as (tr & Htr & Hp).
      destruct (for_each _ _ s) as [[[]|e] s1]; simpl in *; [|by exists tr].
      exists (tr ++ [(recs s1, Reaffirmed x)]).
      split; [by rewrite Htr, app_assoc|].
      apply Forall_app. split; [done|]. by repeat constructor.
    + done.
  - by subst s1.
Qed.
End Probes.

Section Order.
Context `{K : Kernel}.
Variable input_file : list feature.
Variable group_field : string.
Variable radius : Q.
Hypothesis Hstandard : standard_flags input_file.
Hypothesis Hcomplete : search_complete radius.
Hypothesis Hsymmetric : within_symmetric radius.

Local Abbreviation init := (fiona_read input_file).
Local Abbreviation event_ok := (event_ok group_field radius).
Local Abbreviation settled := (settled group_field radius input_file).
Local Abbreviation turn := (turn input_file group_field radius).

Lemma settled_event (rs : list rec) ev y :
  tame init rs → event_ok rs ev → settled rs y → settled (apply_event ev rs) y.
Proof.
  intros Htame Hev Hset.
  apply (settled_stable input_file group_field radius Hstandard
           (State rs []) (State (apply_event ev rs) ([] ++ [(rs, ev)])) y);
    [done| |done].
  apply (steps_write group_field radius (State rs []) (State rs []) ev);
    [constructor|done].
Qed.

(** When the records before [x] are settled, the active record [x] can
    only exclude a record after it: a record before it that it could
    exclude would have excluded it. *)
Lemma exclusion_forward x (rs : list rec) target :
  tame init rs → (∀ y, y < x → settled rs y) →
  event_ok rs (Excluded x target) → x < target.
Proof.
  intros Htame Hset
    (a & t & ga & gt & v & Ha & Ht & Hok & Hga & Hgt & Hw & Hid & Hva & Hvt & Hi & _).
  destruct (tame_lookup input_file Hstandard rs x a Htame Ha)
    as (a0 & Ha0 & Haopen & Hca).
  destruct (tame_lookup input_file Hstandard rs target t Htame Ht)
    as (t0 & Ht0 & Htopen & Hct).
  assert (a = a0) as ->.
  { destruct Hca as [->| ->]; [done|].
    destruct Hok as (include & _ & Hinc & Hne & _). exfalso. apply Hne.
    unfold set_flags in Hinc. simpl in Hinc.
    rewrite lookup_insert_ne in Hinc by done. rewrite lookup_insert_eq in Hinc.
    congruence. }
  assert (t = t0) as ->.
  { destruct Hct as [->| ->]; [done|]. exfalso.
    unfold set_flags in Hi. simpl in Hi.
    rewrite lookup_insert_ne in Hi by done. by rewrite lookup_insert_eq in Hi. }
  destruct (read_record input_file x a0 Ha0) as (fa & _ & Hra).
  destruct (read_record input_file target t0 Ht0) as (ft & _ & Hrt).
  assert (rec_id a0 = Z.of_nat x) as Hida by (by subst a0).
  assert (rec_id t0 = Z.of_nat target) as Hidt by (by subst t0).
  destruct (decide (x < target)) as [|Hge]; [done|exfalso].
  assert (target < x) as Hlt by (rewrite Hida, Hidt in Hid; lia).
  destruct (Hset target Hlt t0 Ht0 Ht) as (gt' & Hgt' & Hall).
  rewrite Hgt in Hgt'. injection Hgt' as <-.
  assert (rec_id a0 ∈ records_within input_file (buffer gt (radius * 1.1))) as Hin.
  { unfold records_within. apply list_elem_of_fmap_2.
    apply (Hcomplete init gt a0 ga);
      [by eapply list_elem_of_lookup_2|by rewrite Hga|].
    by rewrite (Hsymmetric gt ga). }
  destruct (Hall _ Hin) as (j & b & gb & Hj & Hb & Hgb & Hc).
  rewrite Hida, py_index_nat in Hj by (by eapply lookup_lt_Some).
  injection Hj as <-. rewrite Ha0 in Hb. injection Hb as <-.
  rewrite Hga in Hgb. injection Hgb as <-.
  destruct Hc as (vt & va & Hvt' & Hva' & Hex); [by rewrite (Hsymmetric gt ga)|done..|].
  rewrite Hex in Ha by congruence. injection Ha as Ha.
  by apply excluded_not_open in Ha.
Qed.

Lemma turn_ordered x s :
  tame init (recs s) → (∀ y, y < x → settled (recs s) y) →
  ordered (trace s) → ordered (trace (turn x s).2).
Proof.
  intros Htame Hset Hord.
  destruct (steps_history group_field radius _ _
              (turn_steps input_file group_field radius x s))
    as (tr & Htr & Hh & Hok).
  destruct (turn_probe input_file group_field radius x s) as (tr' & Htr' & Hprobe).
  rewrite Htr in Htr'. apply app_inv_head in Htr' as <-.
  destruct (history_invariant
              (λ rs, tame init rs ∧ ∀ y, y < x → settled rs y) event_ok
              (recs s) tr (recs (turn x s).2)) as [Hinv _]; [|done..|].
  { intros rs ev [Ht Hs] Hev.
    split; [by apply (apply_event_tame input_file group_field radius Hstandard)|].
    intros y Hy. apply settled_event; [done..|]. by apply Hs. }
  intros before probe target. rewrite Htr.
  intros [Hin|Hin]%elem_of_app; [by apply (Hord before)|].
  rewrite Forall_forall in Hinv, Hok, Hprobe.
  destruct (Hinv _ Hin) as [Ht Hs]. specialize (Hok _ Hin). specialize (Hprobe _ Hin).
  simpl in *. subst probe. by apply (exclusion_forward x before).
Qed.

(** On new nodes, with a complete search and a symmetric exact test, the
    first index wins: every exclusion of a run is by a record that comes
    before the excluded one. *)
Lemma first_index_wins :
  ordered (trace (thin_nodes input_file group_field radius).2).
Proof.
  rewrite thin_nodes_state. unfold thin_pass. simpl.
  apply (for_each_both
           (λ done s, tame init (recs s) ∧ (∀ y, y ∈ done → settled (recs s) y)
                      ∧ ordered (trace s))
           (λ s, ordered (trace s)) turn (seq 0 (length init))).
  - intros done x rest s Hl (Htame & Hset & Hord).
    assert (∀ y, y < x → y ∈ done) as Hdone.
    { intros y Hy.
      assert (seq 0 (length init) !! y = Some y) as Hy'.
      { apply lookup_seq. split; [done|].
        assert (x ∈ seq 0 (length init)) as Hx
          by (rewrite Hl; apply elem_of_app; right; left).
        apply elem_of_seq in Hx. lia. }
      assert (seq 0 (length init) !! length done = Some x) as Hx
        by (by rewrite Hl, list_lookup_middle).
      apply lookup_seq in Hx as [Hx _]. simpl in Hx.
      rewrite Hl, lookup_app_l in Hy' by lia. by eapply list_elem_of_lookup_2. }
    pose proof (turn_ordered x s Htame (λ y Hy, Hset y (Hdone y Hy)) Hord) as Hord'.
    pose proof (turn_steps input_file group_field radius x s) as Hst.
    destruct (turn x s) as [[[]|e] s1] eqn:Hturn; simpl in *; [|done].
    split; [by apply (tame_steps input_file group_field radius Hstandard s s1)|].
    split; [|done].
    intros y [Hy| ->%list_elem_of_singleton]%elem_of_app.
    + apply (settled_stable input_file group_field radius Hstandard s s1); [done..|].
      by apply Hset.
    + by apply (turn_settled input_file group_field radius Hstandard x s s1).
  - by intros s (_ & _ & Hord).
  - split; [apply tame_init|]. split; [|by intros ? ? ? ?%elem_of_nil].
    by intros ? ?%elem_of_nil.
Qed.
End Order.

Lemma planar_symmetric radius : within_symmetric (K := Planar.kernel) radius.
Proof.
  intros g g'. simpl. destruct g as [[cx cy]|], g' as [[px py]|]; simpl; try done.
  f_equal. unfold Planar.Qlt_bool. f_equal.
  assert (dist2 (cx, cy) (px, py) == dist2 (px, py) (cx, cy))%Q as Heq
    by (unfold dist2; simpl; ring).
  destruct (Qle_bool (radius * radius) (dist2 (cx, cy) (px, py))) eqn:H1,
           (Qle_bool (radius * radius) (dist2 (px, py) (cx, cy))) eqn:H2; try done.
  - apply Qle_bool_iff in H1. rewrite Heq in H1. apply Qle_bool_iff in H1. congruence.
  - apply Qle_bool_iff in H2. rewrite <- Heq in H2. apply Qle_bool_iff in H2. congruence.
Qed.

(** On the planar kernel the first index wins on every file of new nodes. *)
Lemma first_index_wins_planar (input_file : list feature) (group_field : string)
    (radius : Q) :
  standard_flags input_file →
  ordered (trace (thin_nodes (K := Planar.kernel) input_file group_field radius).2).
Proof.
  intros Hstandard. apply first_index_wins; [done| |].
  - apply planar_complete.
  - apply planar_symmetric.
Qed.

(** * Further properties of add_nodes *)

Section AddNodesFile.
Context `{K : Kernel}.

(** Whatever the interval and the fuel, every node written for a geometry
    lies at [d] plus a multiple of the interval, below the length. *)
Lemma sample_loop_sound geom r interval : ∀ fuel d f,
  f ∈ (sample_loop fuel geom r interval d).1 →
  ∃ k : nat,
    f = node geom r (d + Z.of_nat k * interval)
    ∧ (inject_Z (d + Z.of_nat k * interval) < geom_length geom)%Q.
Proof.
  induction fuel as [|fuel IH]; intros d f; simpl.
  { by intros ?%elem_of_nil. }
  destruct (Qlt_le_dec _ _) as [Hlt|_]; [|by intros ?%elem_of_nil].
  destruct (sample_loop fuel geom r interval (d + interval)) as [written p] eqn:Hloop.
  simpl. intros [->|Hin]%elem_of_cons.
  - exists 0. replace (d + Z.of_nat 0 * interval)%Z with d by lia. done.
  - specialize (IH (d + interval)%Z f). rewrite Hloop in IH.
    destruct (IH Hin) as (k & -> & Hk). exists (S k).
    replace (d + Z.of_nat (S k) * interval)%Z
      with (d + interval + Z.of_nat k * interval)%Z by lia.
    done.
Qed.

Lemma add_nodes_sound fuel interval : ∀ f_input f,
  f ∈ (add_nodes fuel f_input interval).1 →
  ∃ rec geom (k : nat),
    rec ∈ f_input ∧ geometry rec = Some geom
    ∧ f = node geom (node_properties rec) (Z.of_nat k * interval)
    ∧ (inject_Z (Z.of_nat k * interval) < geom_length geom)%Q.
Proof.
  induction f_input as [|rec f_input IH]; intros f; simpl.
  { by intros ?%elem_of_nil. }
  assert (f ∈ (sample_line fuel rec interval).1 →
          ∃ geom (k : nat), geometry rec = Some geom
            ∧ f = node geom (node_properties rec) (Z.of_nat k * interval)
            ∧ (inject_Z (Z.of_nat k * interval) < geom_length geom)%Q) as Hline.
  { unfold sample_line, shape. destruct (geometry rec) as [geom|]; simpl;
      [|by intros ?%elem_of_nil].
    intros (k & -> & Hk)%sample_loop_sound. exists geom, k. done. }
  destruct (sample_line fuel rec interval) as [written [| |e]]; simpl in *.
  - destruct (add_nodes fuel f_input interval) as [written' p]. simpl in *.
    intros [Hin|Hin]%elem_of_app.
    + destruct (Hline Hin) as (geom & k & ?). exists rec, geom, k.
      split; [by left|done].
    + destruct (IH f Hin) as (rec' & geom & k & ? & ?). exists rec', geom, k.
      split; [by right|done].
  - intros Hin. destruct (Hline Hin) as (geom & k & ?). exists rec, geom, k.
    split; [by left|done].
  - intros Hin. destruct (Hline Hin) as (geom & k & ?). exists rec, geom, k.
    split; [by left|done].
Qed.

Lemma samples_line (rec : feature) geom interval fuel :
  (0 < interval)%Z → geometry rec = Some geom →
  sample_count (geom_length geom) interval < fuel →
  sample_line fuel rec interval = (samples interval rec, Returned).
Proof.
  intros Hi Hg Hfuel. unfold samples. rewrite Hg.
  by apply sample_line_returns.
Qed.

(** A feature without geometry ends the run at line 74. *)
Lemma sample_line_raises (rec : feature) interval fuel :
  geometry rec = None →
  sample_line fuel rec interval = ([], Raised AttributeError).
Proof. intros Hg. unfold sample_line, shape. by rewrite Hg. Qed.

Lemma add_nodes_file interval fuel : ∀ f_input,
  (0 < interval)%Z →
  (∀ rec, rec ∈ f_input → is_Some (geometry rec)) →
  (∀ rec geom, rec ∈ f_input → geometry rec = Some geom →
     sample_count (geom_length geom) interval < fuel) →
  add_nodes fuel f_input interval = (f_input ≫= samples interval, Returned).
Proof.
  induction f_input as [|rec f_input IH]; intros Hi Hgeo Hfuel; [done|].
  destruct (Hgeo rec) as [geom Hg]; [by left|].
  simpl. rewrite (samples_line rec geom); [|done|done|].
  - rewrite IH; [done|done| |].
    + intros rec' Hin. apply Hgeo. by right.
    + intros rec' geom' Hin. apply Hfuel. by right.
  - apply (Hfuel rec); [by left|done].
Qed.

Lemma add_nodes_stops interval fuel rec after : ∀ before,
  (0 < interval)%Z →
  (∀ rec', rec' ∈ before → is_Some (geometry rec')) →
  (∀ rec' geom, rec' ∈ before → geometry rec' = Some geom →
     sample_count (geom_length geom) interval < fuel) →
  geometry rec = None →
  add_nodes fuel (before ++ rec :: after) interval
  = (before ≫= samples interval, Raised AttributeError).
Proof.
  induction before as [|rec0 before IH]; intros Hi Hgeo Hfuel Hnone.
  - simpl. by rewrite sample_line_raises.
  - destruct (Hgeo rec0) as [geom Hg]; [by left|].
    simpl. rewrite (samples_line rec0 geom); [|done|done|].
    + rewrite IH; [done|done| | |done].
      * intros rec' Hin. apply Hgeo. by right.
      * intros rec' geom' Hin. apply Hfuel. by right.
    + apply (Hfuel rec0); [by left|done].
Qed.
End AddNodesFile.

(** * Further properties of thin_nodes *)

(** A record that is kept at the start of a history and not at its end
    lost its ['INCLUDE'] to one of the writes. *)
Lemma history_unkept rs tr rs' i :
  history rs tr rs' →
  (∃ r, rs !! i = Some r ∧ kept r) →
  (∀ r, rs' !! i = Some r → ¬ kept r) →
  ∃ before ev r,
    (before, ev) ∈ tr ∧ before !! i = Some r ∧ kept r ∧ target_of ev = i
    ∧ ∀ r', apply_event ev before !! i = Some r' → ¬ kept r'.
Proof.
  induction 1 as [rs|rs ev tr rs' _ IH]; intros (r & Hr & Hk) Hne.
  { by destruct (Hne r Hr). }
  destruct (decide (target_of ev = i)) as [Htarget|Hother].
  - destruct (decide (kept (set_flags (flags_of ev).1 (flags_of ev).2 r)))
      as [Hk'|Hk'].
    + destruct IH as (before & ev' & r' & Hin & ?); [|done|].
      * eexists. split; [|exact Hk']. subst i. by apply apply_event_target.
      * exists before, ev', r'. split; [by right|done].
    + exists rs, ev, r. split; [by left|]. do 3 (split; [done|]).
      intros r' Hr'. subst i. rewrite (apply_event_target ev rs r Hr) in Hr'.
      by injection Hr' as <-.
  - destruct IH as (before & ev' & r' & Hin & ?); [|done|].
    + exists r. by rewrite apply_event_other.
    + exists before, ev', r'. split; [by right|done].
Qed.

Section NewNodes.
Context `{K : Kernel}.
Variable input_file : list feature.
Variable group_field : string.
Variable radius : Q.
Hypothesis Hstandard : standard_flags input_file.

Local Abbreviation init := (fiona_read input_file).
Local Abbreviation event_ok := (event_ok group_field radius).
Local Abbreviation thin_nodes := (thin_nodes input_file group_field radius).

(** On new nodes every record is at all times as in the input, or as in
    the input and excluded. *)
Lemma thin_nodes_tame :
  Forall (λ e, tame init e.1) (trace thin_nodes.2) ∧ tame init (recs thin_nodes.2).
Proof.
  destruct (thin_nodes_history input_file group_field radius) as [Hh Hok].
  eapply (history_invariant (tame init) event_ok); [| exact Hh | exact Hok |].
  - intros rs ev. by apply (apply_event_tame input_file group_field radius).
  - by apply tame_init.
Qed.

Lemma tame_open (rs : list rec) i r :
  tame init rs → rs !! i = Some r → probe_ok r → init !! i = Some r.
Proof.
  intros Htame Hr (include & _ & Hi & Hne & _).
  destruct (tame_lookup input_file Hstandard rs i r Htame Hr) as (r0 & Hr0 & _ & [->| ->]);
    [done|].
  exfalso. apply Hne. unfold set_flags in Hi. simpl in Hi.
  rewrite lookup_insert_ne in Hi by done. rewrite lookup_insert_eq in Hi. congruence.
Qed.

Lemma tame_kept (rs : list rec) i r :
  tame init rs → rs !! i = Some r → rec_properties r !! "INCLUDE" = Some "Y" →
  init !! i = Some r.
Proof.
  intros Htame Hr Hi.
  destruct (tame_lookup input_file Hstandard rs i r Htame Hr) as (r0 & Hr0 & _ & [->| ->]);
    [done|].
  exfalso. unfold set_flags in Hi. simpl in Hi.
  rewrite lookup_insert_ne in Hi by done. by rewrite lookup_insert_eq in Hi.
Qed.

(** A record that is not kept at the end was excluded by another record. *)
Lemma excluded_by i r0 :
  init !! i = Some r0 → (∀ r, recs thin_nodes.2 !! i = Some r → ¬ kept r) →
  ∃ before ev,
    (before, ev) ∈ trace thin_nodes.2 ∧ tame init before ∧ event_ok before ev
    ∧ before !! i = Some r0
    ∧ ∃ probe, ev = Excluded probe i.
Proof.
  intros Hr0 Hne.
  destruct (thin_nodes_history input_file group_field radius) as [Hh Hok].
  destruct (history_unkept _ _ _ i Hh) as (before & ev & r & Hin & Hr & Hk & Htarget & Hchange);
    [|done|].
  { exists r0. split; [done|].
    by apply (standard_flags_open input_file i r0 Hstandard) in Hr0
      as [? _]%open_flags_fields. }
  destruct thin_nodes_tame as [Htame _].
  rewrite Forall_forall in Htame, Hok.
  specialize (Htame _ Hin). specialize (Hok _ Hin). simpl in Htame, Hok.
  pose proof (tame_kept before i r Htame Hr Hk) as Hr0'.
  rewrite Hr0 in Hr0'. injection Hr0' as <-.
  exists before, ev. do 4 (split; [done|]).
  destruct ev as [probe target|x]; simpl in Htarget; subst.
  - by exists probe.
  - exfalso. apply (Hchange r0); [|done].
    rewrite (reaffirm_open i before r0); [done..|].
    by apply (standard_flags_open input_file i).
Qed.

(** The records written are features of the input, in the order of the
    input. *)
Lemma tame_sublist (rs0 rs : list rec) :
  Forall (λ r0, flags r0 = open_flags) rs0 → tame rs0 rs →
  fiona_write <$> filter kept rs `sublist_of` fiona_write <$> rs0.
Proof.
  intros Hopen Htame. induction Htame as [|r0 r rs0 rs Hcase _ IH]; [done|].
  apply Forall_cons in Hopen as [Hr0 Hopen]. specialize (IH Hopen).
  destruct Hcase as [->| ->].
  - rewrite filter_cons_True by (by apply open_flags_fields in Hr0 as [? _]).
    simpl. by apply sublist_skip.
  - rewrite filter_cons_False.
    + simpl. by apply sublist_cons.
    + unfold kept, set_flags. simpl. rewrite lookup_insert_ne by done.
      by rewrite lookup_insert_eq.
Qed.

(** Some record with a geometry is as in the input at the end. *)
Lemma some_record_stays :
  (∃ f g, f ∈ input_file ∧ geometry f = Some g) →
  ∃ i r g, init !! i = Some r ∧ rec_geometry r = Some g
           ∧ recs thin_nodes.2 !! i = Some r.
Proof.
  intros (f & g & (i & Hf)%list_elem_of_lookup_1 & Hg).
  destruct (thin_nodes_history input_file group_field radius) as [Hh Hok].
  destruct (history_invariant
              (λ rs, tame init rs
                     ∧ ∃ i r g, init !! i = Some r ∧ rec_geometry r = Some g
                                ∧ rs !! i = Some r)
              event_ok init (trace thin_nodes.2) (recs thin_nodes.2))
    as [_ [_ Hend]]; [|done|done| |done].
  - intros rs ev [Htame (j & r & gr & Hr0 & Hgr & Hr)] Hev.
    split; [by apply (apply_event_tame input_file group_field radius)|].
    pose proof (standard_flags_open input_file j r Hstandard Hr0) as Hopen.
    destruct ev as [probe target|x]; simpl in Hev.
    + destruct Hev as (a & t & ga & gt & v & Ha & Ht & Hpa & Hga & _ & _ & Hid & _).
      destruct (decide (target = j)) as [->|Hne].
      * exists probe, a, ga. split; [by apply (tame_open rs)|]. split; [done|].
        rewrite apply_event_other; [done|]. simpl. intros ->.
        rewrite Ha in Ht. injection Ht as <-. done.
      * exists j, r, gr. do 2 (split; [done|]). by rewrite apply_event_other.
    + exists j, r, gr. do 2 (split; [done|]).
      destruct (decide (x = j)) as [->|Hne].
      * by rewrite (reaffirm_open j rs r).
      * by rewrite apply_event_other.
  - split; [apply tame_init|].
    exists i, (Rec (Z.of_nat i) (geometry f) (properties f)), g.
    split; [by rewrite fiona_read_lookup, Hf|]. split; [done|].
    by rewrite fiona_read_lookup, Hf.
Qed.
End NewNodes.

Lemma kept_written (rs : list rec) i f :
  rs !! i = Some (Rec (Z.of_nat i) (geometry f) (properties f)) →
  properties f !! "INCLUDE" = Some "Y" →
  f ∈ fiona_write <$> filter kept rs.
Proof.
  intros Hr Hk. apply list_elem_of_fmap.
  exists (Rec (Z.of_nat i) (geometry f) (properties f)).
  split; [by destruct f|]. apply list_elem_of_filter. split; [done|].
  by eapply list_elem_of_lookup_2.
Qed.

(** X1. With a positive interval [add_nodes] returns on a file whose
    features all have a geometry: the output holds, in the order of the
    input, the nodes of each line. On a file with a feature without
    geometry it raises [AttributeError] at the first such feature, after
    the nodes of the lines before it; no later line is sampled. *)
Theorem add_nodes_whole_file `{K : Kernel} (f_input : list feature)
    (interval : Z) (fuel : nat) :
  (0 < interval)%Z →
  (∀ rec geom, rec ∈ f_input → geometry rec = Some geom →
     sample_count (geom_length geom) interval < fuel) →
  ((∀ rec, rec ∈ f_input → is_Some (geometry rec)) →
   add_nodes fuel f_input interval = (f_input ≫= samples interval, Returned))
  ∧ (∀ before rec after,
       f_input = before ++ rec :: after →
       (∀ rec', rec' ∈ before → is_Some (geometry rec')) →
       geometry rec = None →
       add_nodes fuel f_input interval
       = (before ≫= samples interval, Raised AttributeError)).
Proof.
  intros Hi Hfuel. split.
  - intros Hgeo. by apply add_nodes_file.
  - intros before rec after -> Hgeo Hnone. apply add_nodes_stops; [done..| |done].
    intros rec' geom Hin. apply Hfuel. apply elem_of_app. by left.
Qed.

(** X2. Whatever the interval and however long the run, every node in the
    output of [add_nodes] was interpolated on a line of the input at a
    multiple of the interval that is strictly below the length of that
    line. *)
Theorem add_nodes_positions `{K : Kernel} (f_input : list feature)
    (interval : Z) (fuel : nat) (f : feature) :
  f ∈ (add_nodes fuel f_input interval).1 →
  ∃ rec geom (k : nat),
    rec ∈ f_input ∧ geometry rec = Some geom
    ∧ geometry f = mapping (interpolate geom (Z.of_nat k * interval))
    ∧ (inject_Z (Z.of_nat k * interval) < geom_length geom)%Q.
Proof.
  intros (rec & geom & k & Hin & Hg & -> & Hk)%add_nodes_sound.
  by exists rec, geom, k.
Qed.

(** X3. Every node in the output of [add_nodes] has ['INCLUDE'] = ['Y'] and
    ['PROCESSED'] = ['N'], whatever its line had there, and every other
    attribute as the line has it on which the node was interpolated. *)
Theorem add_nodes_new_flags `{K : Kernel} (f_input : list feature)
    (interval : Z) (fuel : nat) :
  standard_flags (add_nodes fuel f_input interval).1
  ∧ ∀ f, f ∈ (add_nodes fuel f_input interval).1 →
      ∃ rec geom (k : nat),
        rec ∈ f_input ∧ geometry rec = Some geom
        ∧ geometry f = mapping (interpolate geom (Z.of_nat k * interval))
        ∧ (inject_Z (Z.of_nat k * interval) < geom_length geom)%Q
        ∧ properties f !! "INCLUDE" = Some "Y"
        ∧ properties f !! "PROCESSED" = Some "N"
        ∧ ∀ key, key ≠ "INCLUDE" → key ≠ "PROCESSED" →
            properties f !! key = properties rec !! key.
Proof.
  split.
  - intros f (rec & geom & k & _ & _ & -> & _)%add_nodes_sound.
    unfold node, node_properties. simpl.
    rewrite lookup_insert_ne by done. by rewrite !lookup_insert_eq.
  - intros f (rec & geom & k & Hin & Hg & -> & Hk)%add_nodes_sound.
    exists rec, geom, k. unfold node, node_properties. simpl.
    split_and!; try done.
    + rewrite lookup_insert_ne by done. by rewrite lookup_insert_eq.
    + by rewrite lookup_insert_eq.
    + intros key H1 H2. by rewrite !lookup_insert_ne.
Qed.

(** X4. On new nodes, the output of a run that returns is a subsequence of
    the input file: the written features are features of the input,
    unchanged and in the order of the input, so there are no more of them,
    and they still have the flags of new nodes. *)
Theorem thinned_is_subsequence `{K : Kernel} (input_file : list feature)
    (group_field : string) (radius : Q) (out : list feature) (s : state) :
  standard_flags input_file →
  thin_nodes input_file group_field radius = (Ok out, s) →
  out `sublist_of` input_file
  ∧ length out ≤ length input_file
  ∧ standard_flags out.
Proof.
  intros Hstd Hrun.
  pose proof (thin_nodes_output input_file group_field radius out) as Hout.
  destruct (thin_nodes_tame input_file group_field radius Hstd) as [_ Htame].
  rewrite Hrun in Hout, Htame. simpl in Hout, Htame. specialize (Hout eq_refl).
  assert (out `sublist_of` input_file) as Hsub.
  { rewrite Hout. rewrite <- (fiona_write_read input_file) at 1.
    apply tame_sublist; [|done]. apply Forall_lookup. intros i r.
    by apply standard_flags_open. }
  split; [done|]. split; [by apply sublist_length|].
  intros f Hf. apply Hstd. by eapply sublist_subseteq.
Qed.

(** X5. On new nodes and with a search that misses no record the exact
    test accepts, the output of a run that returns is thinned: no written
    feature lies in the radius buffer of another written feature with the
    same group value, and every written feature has a geometry. *)
Theorem thinned_is_separated `{K : Kernel} (input_file : list feature)
    (group_field : string) (radius : Q) (out : list feature) (s : state) :
  standard_flags input_file →
  search_complete radius →
  thin_nodes input_file group_field radius = (Ok out, s) →
  (∀ p fp, out !! p = Some fp → is_Some (geometry fp))
  ∧ ∀ p t fp ft gp gt v,
      out !! p = Some fp → out !! t = Some ft → p ≠ t →
      geometry fp = Some gp → geometry ft = Some gt →
      properties fp !! group_field = Some v →
      properties ft !! group_field = Some v →
      within gt (buffer gp radius) = false.
Proof.
  intros Hstd Hcomplete Hrun.
  destruct (output_separated input_file group_field radius Hstd Hcomplete out s Hrun)
    as [Hsep _].
  split.
  - intros p fp Hp. destruct (Hsep p fp Hp) as (gp & -> & _). by eexists.
  - intros p t fp ft gp gt v Hp Ht Hne Hgp Hgt Hvp Hvt.
    destruct (Hsep p fp Hp) as (gp' & Hgp' & Hall).
    rewrite Hgp in Hgp'. injection Hgp' as <-.
    destruct (within gt (buffer gp radius)) eqn:Hw; [exfalso|done].
    destruct (Hall t ft gt Ht Hne Hgt Hw) as (vp & vt & Hvp' & Hvt' & Hdiff).
    congruence.
Qed.

(** X6. On new nodes, with a complete search and a symmetric exact test,
    the first index wins: whenever a record is excluded, the active record
    that excludes it comes before it in the file. *)
Theorem exclusions_go_forward `{K : Kernel} (input_file : list feature)
    (group_field : string) (radius : Q) :
  standard_flags input_file →
  search_complete radius →
  within_symmetric radius →
  ∀ before probe target,
    (before, Excluded probe target)
      ∈ trace (thin_nodes input_file group_field radius).2 →
    probe < target.
Proof.
  intros Hstd Hcomplete Hsym.
  apply (first_index_wins input_file group_field radius Hstd Hcomplete Hsym).
Qed.

(** X7. On new nodes thinning never empties a file: when some feature of
    the input has a geometry and the run returns, a feature with a geometry
    is written. *)
Theorem thinning_keeps_a_record `{K : Kernel} (input_file : list feature)
    (group_field : string) (radius : Q) (out : list feature) (s : state) :
  standard_flags input_file →
  (∃ f g, f ∈ input_file ∧ geometry f = Some g) →
  thin_nodes input_file group_field radius = (Ok out, s) →
  ∃ f g, f ∈ out ∧ f ∈ input_file ∧ geometry f = Some g.
Proof.
  intros Hstd Hsome Hrun.
  destruct (some_record_stays input_file group_field radius Hstd Hsome)
    as (i & r & g & Hr0 & Hg & Hr).
  pose proof (thin_nodes_output input_file group_field radius out) as Hout.
  rewrite Hrun in Hout, Hr. simpl in Hout, Hr. specialize (Hout eq_refl).
  destruct (read_record input_file i r Hr0) as (f & Hf & ->).
  exists f, g. split; [|split; [by eapply list_elem_of_lookup_2|done]].
  rewrite Hout. apply (kept_written (recs s) i); [done|].
  apply Hstd. by eapply list_elem_of_lookup_2.
Qed.

(** X8. On new nodes a feature with a geometry whose group value no other
    feature of the file shares is never excluded, and it is written when
    the run returns. *)
Theorem unique_group_survives `{K : Kernel} (input_file : list feature)
    (group_field : string) (radius : Q) (i : nat) (fi : feature) (geom : geom) :
  standard_flags input_file →
  input_file !! i = Some fi →
  geometry fi = Some geom →
  (∀ j fj, j ≠ i → input_file !! j = Some fj →
     properties fj !! group_field ≠ properties fi !! group_field) →
  recs (thin_nodes input_file group_field radius).2 !! i
  = Some (Rec (Z.of_nat i) (geometry fi) (properties fi))
  ∧ ∀ out, (thin_nodes input_file group_field radius).1 = Ok out → fi ∈ out.
Proof.
  intros Hstd Hfi Hgeom Hunique.
  set (r0 := Rec (Z.of_nat i) (geometry fi) (properties fi)).
  assert (fiona_read input_file !! i = Some r0) as Hr0
    by (by rewrite fiona_read_lookup, Hfi).
  destruct (thin_nodes_tame input_file group_field radius Hstd) as [_ Htame].
  assert (recs (thin_nodes input_file group_field radius).2 !! i = Some r0) as Hend.
  { destruct (Forall2_lookup_l _ _ _ _ _ Htame Hr0) as (r & Hr & [->| ->]); [done|].
    exfalso.
    destruct (excluded_by input_file group_field radius Hstd i r0 Hr0)
      as (before & ev & _ & Hbt & Hev & Hbi & [probe ->]).
    - intros r. rewrite Hr. intros [= <-]. unfold kept, set_flags. simpl.
      rewrite lookup_insert_ne by done. by rewrite lookup_insert_eq.
    - destruct Hev as (a & t & _ & _ & v & Ha & Ht & Hok & _ & _ & _ & Hid & Hva & Hvt & _).
      rewrite Hbi in Ht. injection Ht as <-.
      pose proof (tame_open input_file Hstd before probe a Hbt Ha Hok) as Ha0.
      destruct (read_record input_file probe a Ha0) as (fp & Hfp & ->).
      simpl in *. apply (Hunique probe fp); [|done|congruence].
      intros ->. by apply Hid. }
  split; [done|]. intros out Hout.
  apply thin_nodes_output in Hout. rewrite Hout.
  apply (kept_written _ i); [done|]. apply Hstd. by eapply list_elem_of_lookup_2.
Qed.

(** ** The records that exclude are written *)

(** A property of the history so far and of the list that every tested
    write preserves holds at the end of a history. *)
Lemma history_fold (I : list (list rec * event) → list rec → Prop)
    (ok : list rec → event → Prop) rs tr rs' :
  (∀ tr0 rs ev, I tr0 rs → ok rs ev → I (tr0 ++ [(rs, ev)]) (apply_event ev rs)) →
  history rs tr rs' →
  Forall (λ e, ok e.1 e.2) tr →
  ∀ tr0, I tr0 rs → I (tr0 ++ tr) rs'.
Proof.
  intros Hstep. induction 1 as [rs|rs ev tr rs' _ IH]; intros Hok tr0 HI.
  - by rewrite app_nil_r.
  - apply Forall_cons in Hok as [Hev Hok]. simpl in Hev.
    replace (tr0 ++ (rs, ev) :: tr) with ((tr0 ++ [(rs, ev)]) ++ tr)
      by (by rewrite <- app_assoc).
    apply IH; [done|]. by apply Hstep.
Qed.

Lemma seq_middle n (done : list nat) x rest :
  seq 0 n = done ++ x :: rest → x = length done.
Proof.
  intros Hl.
  assert (seq 0 n !! length done = Some x) as Hx by (by rewrite Hl, list_lookup_middle).
  apply lookup_seq in Hx as [Hx _]. by simpl in Hx.
Qed.

Section Domination.
Context `{K : Kernel}.
Variable input_file : list feature.
Variable group_field : string.
Variable radius : Q.
Hypothesis Hstandard : standard_flags input_file.
Hypothesis Hcomplete : search_complete radius.
Hypothesis Hsymmetric : within_symmetric radius.

Local Abbreviation init := (fiona_read input_file).
Local Abbreviation event_ok := (event_ok group_field radius).
Local Abbreviation settled := (settled group_field radius input_file).
Local Abbreviation turn := (turn input_file group_field radius).

Local Abbreviation during := (during group_field radius input_file).

Lemma during_write x tr0 (rs : list rec) ev :
  during x tr0 rs → event_ok rs ev ∧ probe_of ev = x →
  during x (tr0 ++ [(rs, ev)]) (apply_event ev rs).
Proof.
  intros (Htame & Hset & Hbound & Hopen) [Hev Hprobe].
  split; [by apply (apply_event_tame input_file group_field radius Hstandard)|].
  split.
  { intros y Hy. apply (settled_event input_file group_field radius Hstandard);
      [done..|]. by apply Hset. }
  split.
  { intros e [He| ->%list_elem_of_singleton]%elem_of_app; [by apply Hbound|].
    simpl. lia. }
  intros before p t [Hin|Hnew%list_elem_of_singleton]%elem_of_app.
  - destruct (Hopen before p t Hin) as (a & g & Ha0 & Ha & Hg).
    exists a, g. split; [done|]. split; [|done].
    destruct (decide (target_of ev = p)) as [Htarget|Hother];
      [|by rewrite apply_event_other].
    pose proof (Hbound _ Hin) as Hp. simpl in Hp.
    destruct ev as [probe target|y]; simpl in Htarget, Hprobe; subst.
    + pose proof (exclusion_forward input_file group_field radius
                    Hstandard Hcomplete Hsymmetric x rs p Htame Hset Hev). lia.
    + rewrite (reaffirm_open p rs a); [done..|].
      by apply (standard_flags_open input_file p).
  - injection Hnew as -> <-.
    destruct Hev as (a & t' & ga & gt & v & Ha & Ht & Hok & Hga & _ & _ & Hid & _).
    simpl in Hprobe. subst p.
    exists a, ga. split; [by apply (tame_open input_file Hstandard rs)|].
    split; [|done]. rewrite apply_event_other; [done|]. simpl. intros ->.
    rewrite Ha in Ht. injection Ht as <-. done.
Qed.

Lemma turn_during x s :
  during x (trace s) (recs s) → during x (trace (turn x s).2) (recs (turn x s).2).
Proof.
  intros Hd.
  destruct (steps_history group_field radius _ _
              (turn_steps input_file group_field radius x s))
    as (tr & Htr & Hh & Hok).
  destruct (turn_probe input_file group_field radius x s) as (tr' & Htr' & Hprobe).
  rewrite Htr in Htr'. apply app_inv_head in Htr' as <-. rewrite Htr.
  apply (history_fold (during x) (λ rs ev, event_ok rs ev ∧ probe_of ev = x)
           (recs s) tr); [|done| |done].
  - intros tr0 rs ev. apply during_write.
  - rewrite Forall_forall in Hok, Hprobe. apply Forall_forall.
    intros e He. split; [by apply Hok|by apply Hprobe].
Qed.

(** The records that have excluded another record are as in the input at
    the end of the run. *)
Lemma probes_survive :
  probes_open init (trace (thin_nodes input_file group_field radius).2)
    (recs (thin_nodes input_file group_field radius).2).
Proof.
  rewrite thin_nodes_state. unfold thin_pass. simpl.
  apply (for_each_both
           (λ done s, tame init (recs s)
                      ∧ (∀ y, y < length done → settled (recs s) y)
                      ∧ (∀ e, e ∈ trace s → probe_of e.2 < length done)
                      ∧ probes_open init (trace s) (recs s))
           (λ s, probes_open init (trace s) (recs s)) turn (seq 0 (length init))).
  - intros done x rest s Hl (Htame & Hset & Hbound & Hopen).
    apply seq_middle in Hl as Hx. rewrite <- Hx in Hset, Hbound.
    assert (during x (trace s) (recs s)) as Hd.
    { split; [done|]. split; [done|]. split; [|done].
      intros e He. specialize (Hbound e He). lia. }
    apply turn_during in Hd as (Htame' & Hset' & Hbound' & Hopen').
    pose proof (turn_steps input_file group_field radius x s) as Hst.
    destruct (turn x s) as [[[]|e] s1] eqn:Hturn; simpl in *; [|done].
    split; [done|]. rewrite length_app. simpl. rewrite <- Hx.
    split.
    + intros y Hy. destruct (decide (y = x)) as [->|Hne].
      * by apply (turn_settled input_file group_field radius Hstandard x s s1).
      * apply Hset'. lia.
    + split; [|done]. intros e He. specialize (Hbound' e He). lia.
  - by intros s (_ & _ & _ & Hopen).
  - split; [apply tame_init|]. split; [simpl; lia|].
    split; [by intros ? ?%elem_of_nil|]. by intros ? ? ? ?%elem_of_nil.
Qed.
End Domination.

(** X9. On new nodes, with a complete search and a symmetric exact test,
    every feature with a geometry that a returned run does not write lies
    in the radius buffer of a written feature of its group that comes
    before it in the file. *)
Theorem excluded_has_kept_neighbour `{K : Kernel} (input_file : list feature)
    (group_field : string) (radius : Q) (out : list feature) (s : state)
    (i : nat) (fi : feature) (gi : geom) :
  standard_flags input_file →
  search_complete radius →
  within_symmetric radius →
  thin_nodes input_file group_field radius = (Ok out, s) →
  input_file !! i = Some fi →
  geometry fi = Some gi →
  (recs s !! i = Some (Rec (Z.of_nat i) (geometry fi) (properties fi)) ∧ fi ∈ out)
  ∨ ∃ j fj gj v,
      j < i ∧ input_file !! j = Some fj
      ∧ recs s !! j = Some (Rec (Z.of_nat j) (geometry fj) (properties fj))
      ∧ fj ∈ out
      ∧ geometry fj = Some gj
      ∧ within gi (buffer gj radius) = true
      ∧ properties fj !! group_field = Some v
      ∧ properties fi !! group_field = Some v.
Proof.
  intros Hstd Hcomplete Hsym Hrun Hfi Hgi.
  set (r0 := Rec (Z.of_nat i) (geometry fi) (properties fi)).
  assert (fiona_read input_file !! i = Some r0) as Hr0
    by (by rewrite fiona_read_lookup, Hfi).
  pose proof (thin_nodes_output input_file group_field radius out) as Hout.
  destruct (thin_nodes_tame input_file group_field radius Hstd) as [_ Htame].
  pose proof (probes_survive input_file group_field radius Hstd Hcomplete Hsym) as Hopen.
  pose proof (first_index_wins input_file group_field radius Hstd Hcomplete Hsym) as Hord.
  pose proof (excluded_by input_file group_field radius Hstd i r0 Hr0) as Hby.
  rewrite Hrun in Hout, Htame, Hopen, Hord, Hby. simpl in Hout, Htame, Hopen, Hord, Hby.
  specialize (Hout eq_refl).
  destruct (Forall2_lookup_l _ _ _ _ _ Htame Hr0) as (r & Hr & [->| ->]).
  { left. split; [done|]. rewrite Hout. apply (kept_written (recs s) i); [done|].
    apply Hstd. by eapply list_elem_of_lookup_2. }
  right. destruct Hby as (before & ev & Hin & Hbt & Hev & Hbi & [probe ->]).
  - intros r. rewrite Hr. intros [= <-]. unfold kept, set_flags. simpl.
    rewrite lookup_insert_ne by done. by rewrite lookup_insert_eq.
  - pose proof (Hord _ _ _ Hin) as Hlt.
    destruct (Hopen _ _ _ Hin) as (a & g & Ha0 & Ha & Hg).
    destruct Hev as (a' & t & ga & gt & v & Ha' & Ht & Hok & Hga & Hgt & Hw & _ & Hva & Hvt & _).
    rewrite Hbi in Ht. injection Ht as <-.
    pose proof (tame_open input_file Hstd before probe a' Hbt Ha' Hok) as Ha0'.
    rewrite Ha0 in Ha0'. injection Ha0' as <-.
    destruct (read_record input_file probe a Ha0) as (fp & Hfp & ->).
    simpl in *. rewrite Hgi in Hgt. injection Hgt as <-.
    exists probe, fp, ga, v. do 3 (split; [done|]).
    split; [|done]. rewrite Hout. apply (kept_written (recs s) probe); [done|].
    apply Hstd. by eapply list_elem_of_lookup_2.
Qed.

(** ** Runs that return, runs that raise *)

Lemma write_kept_returns rs :
  Forall (λ r, is_Some (rec_properties r !! "INCLUDE")) rs →
  ∃ out, write_kept rs = Ok out.
Proof.
  induction 1 as [|r rs [include Hi] _ [out IH]]; simpl; [by eexists|].
  rewrite Hi, IH. by eexists.
Qed.

Lemma write_kept_reads rs out :
  write_kept rs = Ok out →
  Forall (λ r, is_Some (rec_properties r !! "INCLUDE")) rs.
Proof.
  revert out. induction rs as [|r rs IH]; intros out; simpl; [by constructor|].
  destruct (rec_properties r !! "INCLUDE") as [include|] eqn:Hi; [|done].
  destruct (write_kept rs) as [out'|]; [|done]. intros _.
  constructor; [by rewrite Hi|]. by apply (IH out').
Qed.

Lemma set_flags_fields group_field include processed r :
  has_fields group_field (rec_properties r) →
  has_fields group_field (rec_properties (set_flags include processed r)).
Proof.
  intros (Hi & Hp & Hg). unfold set_flags, has_fields. simpl.
  rewrite lookup_insert_ne by done. rewrite !lookup_insert_eq.
  split; [done|]. split; [done|].
  destruct (decide (group_field = "PROCESSED")) as [->|H1];
    [by rewrite lookup_insert_eq|].
  rewrite lookup_insert_ne by done.
  destruct (decide (group_field = "INCLUDE")) as [->|H2];
    [by rewrite lookup_insert_eq|].
  by rewrite lookup_insert_ne.
Qed.

Section Returning.
Context `{K : Kernel}.
Variable input_file : list feature.
Variable group_field : string.
Variable radius : Q.
Hypothesis Hfields : ∀ f, f ∈ input_file → has_fields group_field (properties f).
Hypothesis Hgeometry : ∀ f, f ∈ input_file → is_Some (geometry f).
Hypothesis Hsound : search_sound.

Local Abbreviation init := (fiona_read input_file).
Local Abbreviation scan := (scan group_field).
Local Abbreviation turn := (turn input_file group_field radius).

(** The records keep their content, and have the three fields. *)
Local Abbreviation sane := (λ s : state,
  Forall2 same_content init (recs s)
  ∧ Forall (λ r, has_fields group_field (rec_properties r)) (recs s)).

Lemma init_geometry k r : init !! k = Some r → is_Some (rec_geometry r).
Proof.
  intros (f & Hf & ->)%read_record. simpl. apply Hgeometry.
  by eapply list_elem_of_lookup_2.
Qed.

Lemma sane_init : sane (State init []).
Proof.
  split.
  - apply Forall2_same_length_lookup. split; [done|].
    intros i r r' Hr Hr'. simpl in Hr'. rewrite Hr in Hr'. injection Hr' as <-.
    apply same_content_refl.
  - apply Forall_lookup. intros i r Hr.
    destruct (read_record input_file i r Hr) as (f & Hf & ->). simpl.
    apply Hfields. by eapply list_elem_of_lookup_2.
Qed.

Lemma sane_write ev s :
  sane s → ∃ s', write_flags ev s = (Ok tt, s') ∧ sane s'.
Proof.
  intros [Hc Hf]. eexists. split; [done|]. simpl. split.
  - by apply apply_event_content.
  - unfold apply_event. apply Forall_alter; [done|].
    intros r _ Hr. by apply set_flags_fields.
Qed.

Lemma excludes_on_returns a t search_id :
  has_fields group_field (rec_properties a) →
  has_fields group_field (rec_properties t) →
  ∃ b, excludes_on group_field a t search_id = Ok b.
Proof.
  intros (_ & [pa Hpa] & [ga Hga]) ([it Hit] & _ & [gt Hgt]). unfold excludes_on.
  destruct (decide (rec_id a = rec_id t)); [by eexists|].
  destruct (decide (rec_id t = search_id)); [|by eexists].
  rewrite Hga, Hgt. destruct (decide (ga = gt)); [|by eexists].
  rewrite Hit. destruct (decide (it = "Y")); [|by eexists].
  rewrite Hpa. by eexists.
Qed.

Lemma sane_scan x geom_buffer search_id s :
  sane s → x < length init →
  (∃ b r, r ∈ store_filter init b ∧ rec_id r = search_id) →
  ∃ s', scan x geom_buffer search_id s = (Ok tt, s') ∧ sane s'.
Proof.
  intros Hsane Hx (b & r & Hr & <-). pose proof Hsane as [Hc Hf].
  apply Hsound in Hr. apply fiona_read_elem in Hr as (k & Hk & Hid).
  destruct (init_geometry k r Hk) as [gt Hgt].
  destruct (Forall2_lookup_l _ _ _ _ _ Hc Hk) as (t & Ht & Hidt & Hgeo & _).
  destruct (lookup_lt_is_Some_2 (recs s) x) as [a Ha];
    [by rewrite <- (Forall2_length _ _ _ Hc)|].
  rewrite (scan_eval group_field x geom_buffer (rec_id r) s k a t gt).
  - destruct (within gt geom_buffer); [|by exists s].
    rewrite Forall_forall in Hf.
    destruct (excludes_on_returns a t (rec_id r)) as [[|] ->].
    + apply Hf. by eapply list_elem_of_lookup_2.
    + apply Hf. by eapply list_elem_of_lookup_2.
    + by apply sane_write.
    + by exists s.
  - rewrite <- (Forall2_length _ _ _ Hc), Hid. apply py_index_nat.
    by eapply lookup_lt_Some.
  - done.
  - by rewrite Hgeo.
  - done.
Qed.

Lemma sane_skipped x s a :
  recs s !! x = Some a → has_fields group_field (rec_properties a) →
  ∃ b, skipped x s = (Ok b, s).
Proof.
  intros Ha ([include Hi] & [processed Hp] & _).
  unfold skipped, prop, get_rec, bind, ret. rewrite Ha, Hi.
  destruct (decide (include = "N")); [by eexists|].
  rewrite Ha, Hp. by eexists.
Qed.

Lemma sane_turn x s :
  sane s → x < length init → ∃ s', turn x s = (Ok tt, s') ∧ sane s'.
Proof.
  intros Hsane Hx. pose proof Hsane as [Hc Hf].
  destruct (lookup_lt_is_Some_2 (recs s) x) as [a Ha];
    [by rewrite <- (Forall2_length _ _ _ Hc)|].
  assert (has_fields group_field (rec_properties a)) as Hfa.
  { rewrite Forall_forall in Hf. apply Hf. by eapply list_elem_of_lookup_2. }
  assert (is_Some (rec_geometry a)) as [geom Hgeom].
  { destruct (Forall2_lookup_r _ _ _ _ _ Hc Ha) as (a0 & Ha0 & _ & -> & _).
    by apply (init_geometry x). }
  unfold turn, bind at 1. destruct (sane_skipped x s a Ha Hfa) as [[|] ->].
  { by exists s. }
  unfold bind, get_rec, ret. rewrite Ha. unfold shape. rewrite Hgeom.
  destruct (for_each_returns sane (scan x (buffer geom radius))
              (records_within input_file (buffer geom (radius * 1.1)))) with (s := s)
    as (s1 & Hloop & Hs1); [|done|].
  2:{ rewrite Hloop. simpl. exact (sane_write (Reaffirmed x) s1 Hs1). }
  intros search_id s0 (r & -> & Hr)%list_elem_of_fmap Hs0.
  apply sane_scan; [done..|]. by eexists _, r.
Qed.

(** The run returns. *)
Lemma sane_returns : ∃ out, (thin_nodes input_file group_field radius).1 = Ok out.
Proof.
  unfold thin_nodes, thin_pass. simpl.
  destruct (for_each_returns sane turn (seq 0 (length init))) with (s := State init [])
    as (s' & -> & [_ Hf]); [|apply sane_init|].
  - intros x s Hx%elem_of_seq Hs. apply sane_turn; [done|lia].
  - simpl. apply write_kept_returns. eapply Forall_impl; [exact Hf|].
    by intros r (? & _).
Qed.
End Returning.

(** X10. On a file of at most 100 records, for which the time estimate of
    lines 117-120 is never computed, the run returns with an output file
    whenever every feature has a geometry and the ['INCLUDE'],
    ['PROCESSED'] and group fields, and the search yields only records of
    the collection: none of the exceptions of [thin_nodes] is then
    raised. *)
Theorem thin_nodes_returns `{K : Kernel} (input_file : list feature)
    (group_field : string) (radius : Q) :
  length input_file ≤ 100 →
  (∀ f, f ∈ input_file → has_fields group_field (properties f)) →
  (∀ f, f ∈ input_file → is_Some (geometry f)) →
  search_sound →
  ∃ out, (thin_nodes input_file group_field radius).1 = Ok out.
Proof. intros _. apply sane_returns. Qed.

(** X11. [thin_nodes] needs the ['INCLUDE'] field: on a file that has
    records and whose collection has no such field, the run raises
    [KeyError] at line 124 for the first record, before any flag is
    written, and writes no output. *)
Theorem thin_nodes_needs_include `{K : Kernel} (input_file : list feature)
    (group_field : string) (radius : Q) :
  input_file ≠ [] →
  (∀ f, f ∈ input_file → properties f !! "INCLUDE" = None) →
  thin_nodes input_file group_field radius
  = (Raise (KeyError "INCLUDE"), State (fiona_read input_file) []).
Proof.
  intros Hne Hnone. destruct input_file as [|f rest]; [done|].
  assert (properties f !! "INCLUDE" = None) as Hf by (apply Hnone; left).
  unfold thin_nodes, thin_pass. cbn [recs]. rewrite fiona_read_length.
  cbn [length seq for_each]. unfold bind at 1.
  unfold turn, bind at 1. unfold skipped, bind at 1.
  unfold prop, bind, get_rec, raise. cbn [recs].
  rewrite fiona_read_lookup. simpl. by rewrite Hf.
Qed.

(** ** A collection without the group field *)

(** A loop whose body returns on the elements that are not bad and raises
    [e] on the others raises [e] unless no element is bad. *)
Lemma for_each_fails {A} (I : state → Prop) (bad : A → Prop) (e : exn)
    (body : A → M unit) (l : list A) :
  (∀ a s, a ∈ l → I s →
     (∃ s', body a s = (Ok tt, s') ∧ I s' ∧ ¬ bad a)
     ∨ (∃ s', body a s = (Raise e, s') ∧ I s')) →
  ∀ s, I s →
    (∃ s', for_each l body s = (Ok tt, s') ∧ I s' ∧ ∀ a, a ∈ l → ¬ bad a)
    ∨ (∃ s', for_each l body s = (Raise e, s') ∧ I s').
Proof.
  induction l as [|a l IH]; intros Hbody s HI; simpl.
  - left. exists s. split; [done|]. split; [done|]. by intros a ?%elem_of_nil.
  - unfold bind.
    destruct (Hbody a s) as [(s1 & -> & HI1 & Hgood)|(s1 & -> & HI1)];
      [by left|done| |].
    + destruct (IH (λ b s0 Hb, Hbody b s0 (list_elem_of_further _ _ _ Hb)) s1 HI1)
        as [(s' & -> & HI' & Hall)|(s' & -> & HI')].
      * left. exists s'. split; [done|]. split; [done|].
        intros b [->|Hb]%elem_of_cons; [done|by apply Hall].
      * right. by exists s'.
    + right. by exists s1.
Qed.

Section Ungrouped.
Context `{K : Kernel}.
Variable input_file : list feature.
Variable group_field : string.
Variable radius : Q.
Hypothesis Hstandard : standard_flags input_file.
Hypothesis Hgeometry : ∀ f, f ∈ input_file → is_Some (geometry f).
Hypothesis Hsound : search_sound.
Hypothesis Hcomplete : search_complete radius.
Hypothesis Hnone : ∀ f, f ∈ input_file → properties f !! group_field = None.

Local Abbreviation init := (fiona_read input_file).
Local Abbreviation scan := (scan group_field).
Local Abbreviation turn := (turn input_file group_field radius).

(** A candidate that is another record inside the buffer ends the run;
    every other candidate changes nothing. *)
Lemma ungrouped_scan x a geom_buffer s j r :
  recs s = init → init !! x = Some a → init !! j = Some r →
  ∃ gt, rec_geometry r = Some gt
    ∧ scan x geom_buffer (rec_id r) s
      = if within gt geom_buffer && negb (bool_decide (j = x))
        then (Raise (KeyError group_field), s) else (Ok tt, s).
Proof.
  intros Hs Ha Hr.
  destruct (read_record input_file x a Ha) as (fa & Hfa & Hra).
  destruct (read_record input_file j r Hr) as (fr & Hfr & Hrr).
  destruct (Hgeometry fr) as [gt Hgt]; [by eapply list_elem_of_lookup_2|].
  exists gt. split; [by subst r|].
  rewrite (scan_eval group_field x geom_buffer (rec_id r) s j a r gt).
  - destruct (within gt geom_buffer); [|done]. simpl.
    unfold excludes_on. subst a r. simpl.
    destruct (decide (Z.of_nat x = Z.of_nat j)) as [Heq|Hdiff].
    + rewrite bool_decide_eq_true_2 by lia. done.
    + rewrite bool_decide_eq_false_2 by lia. simpl.
      rewrite decide_True by done.
      rewrite (Hnone fa) by (by eapply list_elem_of_lookup_2). done.
  - rewrite Hs, Hrr. simpl. apply py_index_nat. rewrite fiona_read_length.
    by eapply lookup_lt_Some.
  - by rewrite Hs.
  - by subst r.
  - by rewrite Hs.
Qed.

Lemma ungrouped_scans x a geom_buffer (cands : list rec) s :
  recs s = init → init !! x = Some a → (∀ r, r ∈ cands → r ∈ init) →
  (for_each (rec_id <$> cands) (scan x geom_buffer) s = (Ok tt, s)
   ∧ ∀ j r gt, r ∈ cands → init !! j = Some r → rec_geometry r = Some gt →
       within gt geom_buffer = true → j = x)
  ∨ for_each (rec_id <$> cands) (scan x geom_buffer) s
    = (Raise (KeyError group_field), s).
Proof.
  intros Hs Ha. induction cands as [|r cands IH]; intros Hin.
  - left. split; [done|]. by intros j r gt ?%elem_of_nil.
  - destruct (fiona_read_elem input_file r) as (j & Hj & Hid); [apply Hin; left|].
    destruct (ungrouped_scan x a geom_buffer s j r Hs Ha Hj) as (gt & Hgt & Hscan).
    assert (for_each (rec_id <$> r :: cands) (scan x geom_buffer) s
            = if within gt geom_buffer && negb (bool_decide (j = x))
              then (Raise (KeyError group_field), s)
              else for_each (rec_id <$> cands) (scan x geom_buffer) s) as ->.
    { rewrite fmap_cons. cbn [for_each]. unfold bind. rewrite Hscan.
      by destruct (within gt geom_buffer && negb (bool_decide (j = x))). }
    destruct (within gt geom_buffer && negb (bool_decide (j = x))) eqn:Hb;
      [by right|].
    destruct IH as [[Hok Hall]|Hraise]; [|left|by right].
    { intros r' Hr'. apply Hin. by right. }
    split; [done|]. intros j' r' gt' [->|Hr']%elem_of_cons Hj' Hgt' Hw.
    + rewrite Hgt in Hgt'. injection Hgt' as <-. rewrite Hw in Hb. simpl in Hb.
      apply negb_false_iff, bool_decide_eq_true in Hb.
      destruct (read_record input_file j' r Hj') as (f' & _ & Hr').
      assert (rec_id r = Z.of_nat j') as Hid' by (by rewrite Hr').
      lia.
    + by apply (Hall j' r' gt').
Qed.

Lemma ungrouped_turn x s :
  recs s = init → x < length init →
  (∃ s', turn x s = (Ok tt, s') ∧ recs s' = init
         ∧ ¬ ∃ t, meet radius input_file x t)
  ∨ (∃ s', turn x s = (Raise (KeyError group_field), s') ∧ recs s' = init).
Proof.
  intros Hs Hx.
  destruct (lookup_lt_is_Some_2 init x Hx) as [a Ha].
  pose proof (standard_flags_open input_file x a Hstandard Ha) as Hopen.
  destruct (read_record input_file x a Ha) as (fa & Hfa & Hra).
  destruct (Hgeometry fa) as [ga Hga]; [by eapply list_elem_of_lookup_2|].
  assert (rec_geometry a = Some ga) as Hga' by (by subst a).
  assert (recs s !! x = Some a) as Hsa by (by rewrite Hs).
  assert (turn x s
          = match for_each
                    (rec_id <$> store_filter init (bounds (buffer ga (radius * 1.1))))
                    (scan x (buffer ga radius)) s with
            | (Ok _, s1) => write_flags (Reaffirmed x) s1
            | (Raise e, s1) => (Raise e, s1)
            end) as ->.
  { unfold turn, bind at 1.
    rewrite (skipped_false x s a Hsa (open_probe_ok a Hopen)).
    unfold bind, get_rec, ret. rewrite Hsa. unfold shape. by rewrite Hga'. }
  destruct (ungrouped_scans x a (buffer ga radius)
              (store_filter init (bounds (buffer ga (radius * 1.1)))) s Hs Ha)
    as [[-> Hall]| ->].
  - intros r. apply Hsound.
  - left. unfold write_flags. eexists. split; [done|]. simpl. split.
    + rewrite Hs. by apply (reaffirm_open x init a).
    + intros (t & Hxt & fx & ft & gx & gt & Hfx & Hft & Hgx & Hgt & Hw).
      rewrite Hfa in Hfx. injection Hfx as <-.
      rewrite Hga in Hgx. injection Hgx as <-.
      set (rt := Rec (Z.of_nat t) (geometry ft) (properties ft)).
      assert (init !! t = Some rt) as Hrt by (by rewrite fiona_read_lookup, Hft).
      apply Hxt. symmetry. apply (Hall t rt gt); [|done|done|done].
      apply (Hcomplete init ga rt gt); [by eapply list_elem_of_lookup_2| |done].
      simpl. by rewrite Hgt.
  - right. exists s. by split.
Qed.

(** The run raises as soon as two features meet. *)
Lemma ungrouped_raises :
  (∃ p t, meet radius input_file p t) →
  (thin_nodes input_file group_field radius).1 = Raise (KeyError group_field)
  ∧ recs (thin_nodes input_file group_field radius).2 = init.
Proof.
  intros (p & t & Hmeet).
  unfold thin_nodes, thin_pass. cbn [recs].
  destruct (for_each_fails (λ s, recs s = init)
              (λ x, ∃ t, meet radius input_file x t) (KeyError group_field)
              turn (seq 0 (length init))) with (s := State init [])
    as [(s' & _ & _ & Hall)|(s' & -> & Hs')]; [|done| |done].
  - intros x s Hx%elem_of_seq Hs. apply ungrouped_turn; [done|lia].
  - exfalso. apply (Hall p); [|by exists t].
    apply elem_of_seq. destruct Hmeet as (_ & fp & _ & _ & _ & Hfp & _).
    apply lookup_lt_Some in Hfp. rewrite fiona_read_length. lia.
Qed.
End Ungrouped.

(** C4, as amended. A record without the group field is never excluded and
    never excludes another record: every exclusion is between two records
    that have it. But the run is not safe from a missing group field. A
    record lacks the field when the collection lacks it, and then line 139
    raises [KeyError] as soon as an active record finds another record in
    its buffer: on new nodes (here of a file of at most 100 records, for
    which the time estimate of lines 117-120 is never computed), with a
    search that is sound and complete, the run ends with this exception
    when two features lie within the radius of one another, with no flag
    changed and no output written. *)
Theorem missing_group_field `{K : Kernel} (input_file : list feature)
    (group_field : string) (radius : Q) :
  let outcome := thin_nodes input_file group_field radius in
  (∀ before probe target,
     (before, Excluded probe target) ∈ trace outcome.2 →
     ∃ a t,
       before !! probe = Some a ∧ before !! target = Some t
       ∧ is_Some (rec_properties a !! group_field)
       ∧ is_Some (rec_properties t !! group_field))
  ∧ (length input_file ≤ 100 →
     standard_flags input_file →
     (∀ f, f ∈ input_file → is_Some (geometry f)) →
     search_sound → search_complete radius →
     (∀ f, f ∈ input_file → properties f !! group_field = None) →
     (∃ p t, meet radius input_file p t) →
     outcome.1 = Raise (KeyError group_field)
     ∧ recs outcome.2 = fiona_read input_file).
Proof.
  intros outcome. split.
  - intros before probe target Hin.
    apply thin_nodes_event in Hin
      as (a & t & _ & _ & v & Ha & Ht & _ & _ & _ & _ & _ & Hva & Hvt & _).
    exists a, t. by rewrite Hva, Hvt.
  - intros _. apply ungrouped_raises.
Qed.

(** ** The theorems at work on the planar kernel *)

Lemma three_in_a_row_standard : standard_flags Examples.three_in_a_row.
Proof.
  intros f Hf. apply list_elem_of_In in Hf. simpl in Hf.
  destruct Hf as [<-|[<-|[<-|[]]]]; split; reflexivity.
Qed.

Lemma two_groups_standard : standard_flags Examples.two_groups.
Proof.
  intros f Hf. apply list_elem_of_In in Hf. simpl in Hf.
  destruct Hf as [<-|[<-|[]]]; split; reflexivity.
Qed.

Lemma three_in_a_row_run :
  thin_nodes Examples.three_in_a_row "label" 1500
  = (Ok MoreExamples.two_apart, (thin_nodes Examples.three_in_a_row "label" 1500).2).
Proof. vm_compute. reflexivity. Qed.

Lemma add_nodes_whole_file_witness :
  add_nodes 10 MoreExamples.two_lines 2500
  = (MoreExamples.two_lines ≫= samples 2500, Returned)
  ∧ add_nodes 10 MoreExamples.mixed_lines 2500
    = ([Examples.line_10km] ≫= samples 2500, Raised AttributeError).
Proof.
  split.
  - apply (proj1 (add_nodes_whole_file (K := Planar.kernel)
                    MoreExamples.two_lines 2500 10 ltac:(lia)
                    ltac:(intros rec geom Hin Hg; apply list_elem_of_In in Hin;
                          simpl in Hin; destruct Hin as [<-|[<-|[]]];
                          simpl in Hg; injection Hg as <-; vm_compute; lia))).
    intros rec Hin. apply list_elem_of_In in Hin. simpl in Hin.
    destruct Hin as [<-|[<-|[]]]; by eexists.
  - apply (proj2 (add_nodes_whole_file (K := Planar.kernel)
                    MoreExamples.mixed_lines 2500 10 ltac:(lia)
                    ltac:(intros rec geom Hin Hg; apply list_elem_of_In in Hin;
                          simpl in Hin; destruct Hin as [<-|[<-|[<-|[]]]];
                          simpl in Hg; [| done |];
                          injection Hg as <-; vm_compute; lia))
             [Examples.line_10km] (Feature None {[ "label" := "I-5" ]})
             [Examples.line_zero]).
    + reflexivity.
    + intros rec ->%list_elem_of_singleton. by eexists.
    + reflexivity.
Defined.

Lemma add_nodes_positions_witness :
  ∃ rec geom (k : nat),
    rec ∈ [Examples.line_10km] ∧ geometry rec = Some geom
    ∧ geometry (node (LineString [(0, 0); (10000, 0)]%Q)
                  (node_properties Examples.line_10km) (-2500))
      = mapping (interpolate geom (Z.of_nat k * -2500))
    ∧ (inject_Z (Z.of_nat k * -2500) < geom_length geom)%Q.
Proof.
  apply (add_nodes_positions (K := Planar.kernel) [Examples.line_10km] (-2500) 3).
  apply (list_elem_of_lookup_2 _ 1). vm_compute. reflexivity.
Defined.

Lemma add_nodes_new_flags_witness :
  ∃ rec geom (k : nat),
    rec ∈ [Examples.line_10km] ∧ geometry rec = Some geom
    ∧ geometry (node (LineString [(0, 0); (10000, 0)]%Q)
                  (node_properties Examples.line_10km) 2500)
      = mapping (interpolate geom (Z.of_nat k * 2500))
    ∧ (inject_Z (Z.of_nat k * 2500) < geom_length geom)%Q
    ∧ properties (node (LineString [(0, 0); (10000, 0)]%Q)
                    (node_properties Examples.line_10km) 2500) !! "INCLUDE"
      = Some "Y"
    ∧ properties (node (LineString [(0, 0); (10000, 0)]%Q)
                    (node_properties Examples.line_10km) 2500) !! "PROCESSED"
      = Some "N"
    ∧ ∀ key, key ≠ "INCLUDE" → key ≠ "PROCESSED" →
        properties (node (LineString [(0, 0); (10000, 0)]%Q)
                      (node_properties Examples.line_10km) 2500) !! key
        = properties rec !! key.
Proof.
  apply (proj2 (add_nodes_new_flags (K := Planar.kernel) [Examples.line_10km] 2500 10)).
  apply (list_elem_of_lookup_2 _ 1). vm_compute. reflexivity.
Defined.

Lemma thinned_is_subsequence_witness :
  MoreExamples.two_apart `sublist_of` Examples.three_in_a_row
  ∧ length MoreExamples.two_apart ≤ length Examples.three_in_a_row
  ∧ standard_flags MoreExamples.two_apart.
Proof.
  apply (thinned_is_subsequence (K := Planar.kernel) Examples.three_in_a_row "label" 1500
           MoreExamples.two_apart (thin_nodes Examples.three_in_a_row "label" 1500).2).
  - apply three_in_a_row_standard.
  - apply three_in_a_row_run.
Defined.

Lemma thinned_is_separated_witness :
  within (Point (2000, 0)%Q) (buffer (Point (0, 0)%Q) 1500) = false.
Proof.
  apply (proj2 (thinned_is_separated (K := Planar.kernel) Examples.three_in_a_row
                  "label" 1500 MoreExamples.two_apart
                  (thin_nodes Examples.three_in_a_row "label" 1500).2
                  three_in_a_row_standard (planar_complete 1500) three_in_a_row_run)
           0 1 (Examples.node_at 0 0 "A" "Y" "N") (Examples.node_at 2000 0 "A" "Y" "N")
           (Point (0, 0)%Q) (Point (2000, 0)%Q) "A");
    [reflexivity | reflexivity | lia | reflexivity | reflexivity
    | reflexivity | reflexivity].
Defined.

Lemma exclusions_go_forward_witness : 0 < 1.
Proof.
  apply (exclusions_go_forward (K := Planar.kernel) Examples.three_in_a_row "label" 1500
           three_in_a_row_standard (planar_complete 1500) (planar_symmetric 1500)
           (fiona_read Examples.three_in_a_row)).
  apply (list_elem_of_lookup_2 _ 0). vm_compute. reflexivity.
Defined.

Lemma thinning_keeps_a_record_witness :
  ∃ f g, f ∈ MoreExamples.two_apart ∧ f ∈ Examples.three_in_a_row
         ∧ geometry f = Some g.
Proof.
  apply (thinning_keeps_a_record (K := Planar.kernel) Examples.three_in_a_row "label" 1500
           MoreExamples.two_apart (thin_nodes Examples.three_in_a_row "label" 1500).2).
  - apply three_in_a_row_standard.
  - exists (Examples.node_at 0 0 "A" "Y" "N"), (Point (0, 0)%Q).
    split; [by left|reflexivity].
  - apply three_in_a_row_run.
Defined.

Lemma unique_group_survives_witness :
  recs (thin_nodes Examples.two_groups "label" 500).2 !! 1
  = Some (Rec 1 (geometry (Examples.node_at 100 0 "US-101" "Y" "N"))
            (properties (Examples.node_at 100 0 "US-101" "Y" "N")))
  ∧ ∀ out, (thin_nodes Examples.two_groups "label" 500).1 = Ok out →
      Examples.node_at 100 0 "US-101" "Y" "N" ∈ out.
Proof.
  apply (unique_group_survives (K := Planar.kernel) Examples.two_groups "label" 500 1
           (Examples.node_at 100 0 "US-101" "Y" "N") (Point (100, 0)%Q)).
  - apply two_groups_standard.
  - reflexivity.
  - reflexivity.
  - intros [|[|j]] fj Hj Hfj; [|done|done]. injection Hfj as <-. vm_compute. congruence.
Defined.

Lemma excluded_has_kept_neighbour_witness :
  (recs (thin_nodes Examples.three_in_a_row "label" 1500).2 !! 1
   = Some (Rec 1 (geometry (Examples.node_at 1000 0 "A" "Y" "N"))
             (properties (Examples.node_at 1000 0 "A" "Y" "N")))
   ∧ Examples.node_at 1000 0 "A" "Y" "N" ∈ MoreExamples.two_apart)
  ∨ ∃ j fj gj v,
      j < 1 ∧ Examples.three_in_a_row !! j = Some fj
      ∧ recs (thin_nodes Examples.three_in_a_row "label" 1500).2 !! j
        = Some (Rec (Z.of_nat j) (geometry fj) (properties fj))
      ∧ fj ∈ MoreExamples.two_apart
      ∧ geometry fj = Some gj
      ∧ within (Point (1000, 0)%Q) (buffer gj 1500) = true
      ∧ properties fj !! "label" = Some v
      ∧ properties (Examples.node_at 1000 0 "A" "Y" "N") !! "label" = Some v.
Proof.
  apply (excluded_has_kept_neighbour (K := Planar.kernel) Examples.three_in_a_row
           "label" 1500 MoreExamples.two_apart
           (thin_nodes Examples.three_in_a_row "label" 1500).2 1
           (Examples.node_at 1000 0 "A" "Y" "N") (Point (1000, 0)%Q)).
  - apply three_in_a_row_standard.
  - apply planar_complete.
  - apply planar_symmetric.
  - apply three_in_a_row_run.
  - reflexivity.
  - reflexivity.
Defined.

Lemma thin_nodes_returns_witness :
  ∃ out, (thin_nodes Examples.three_in_a_row "label" 1500).1 = Ok out.
Proof.
  apply (thin_nodes_returns (K := Planar.kernel) Examples.three_in_a_row "label" 1500).
  - simpl. lia.
  - intros f Hf. apply list_elem_of_In in Hf. simpl in Hf.
    destruct Hf as [<-|[<-|[<-|[]]]]; repeat split; by eexists.
  - intros f Hf. apply list_elem_of_In in Hf. simpl in Hf.
    destruct Hf as [<-|[<-|[<-|[]]]]; by eexists.
  - apply planar_sound.
Defined.

Lemma thin_nodes_needs_include_witness :
  thin_nodes MoreExamples.no_include "label" 1500
  = (Raise (KeyError "INCLUDE"), State (fiona_read MoreExamples.no_include) []).
Proof.
  apply (thin_nodes_needs_include (K := Planar.kernel) MoreExamples.no_include
           "label" 1500).
  - done.
  - intros f Hf. apply list_elem_of_In in Hf. simpl in Hf.
    destruct Hf as [<-|[<-|[]]]; reflexivity.
Defined.

Lemma missing_group_field_witness :
  (thin_nodes Examples.unlabelled "label" 1500).1 = Raise (KeyError "label")
  ∧ recs (thin_nodes Examples.unlabelled "label" 1500).2
    = fiona_read Examples.unlabelled.
Proof.
  apply (proj2 (missing_group_field (K := Planar.kernel) Examples.unlabelled
                  "label" 1500)).
  - simpl. lia.
  - intros f Hf. apply list_elem_of_In in Hf. simpl in Hf.
    destruct Hf as [<-|[<-|[]]]; split; reflexivity.
  - intros f Hf. apply list_elem_of_In in Hf. simpl in Hf.
    destruct Hf as [<-|[<-|[]]]; by eexists.
  - apply planar_sound.
  - apply planar_complete.
  - intros f Hf. apply list_elem_of_In in Hf. simpl in Hf.
    destruct Hf as [<-|[<-|[]]]; reflexivity.
  - exists 0, 1. split; [lia|].
    exists (Feature (Some (Point (0, 0)%Q))
              (<["PROCESSED" := "N"]> {[ "INCLUDE" := "Y" ]})),
      (Feature (Some (Point (1000, 0)%Q))
         (<["PROCESSED" := "N"]> {[ "INCLUDE" := "Y" ]})),
      (Point (0, 0)%Q), (Point (1000, 0)%Q).
    repeat split; reflexivity.
Defined.

(** C4 as stated fails: the collection of two nodes 1000 apart has no
    ['label'] field, and the run with this group field and radius 1500
    ends with [KeyError] when the first node meets the second one, before
    any flag is written, and writes no output. *)
Lemma missing_group_field_counterexample :
  (λ f, properties f !! "label") <$> Examples.unlabelled = [None; None]
  ∧ geometry <$> Examples.unlabelled
    = [Some (Point (0, 0)%Q); Some (Point (1000, 0)%Q)]
  ∧ thin_nodes Examples.unlabelled "label" 1500
    = (Raise (KeyError "label"), State (fiona_read Examples.unlabelled) []).
Proof. vm_compute. repeat split. Qed.

(** X12. With a search that yields only records of the collection, every
    id that [records_within] returns is the index of a record of [recs],
    and that record has this id: line 136 raises no [IndexError] and the
    test [search_rec['id'] == search_id] of line 139 succeeds. *)
Theorem search_ids_index_recs `{K : Kernel} (input_file : list feature)
    (obj : region) (search_id : Z) :
  search_sound →
  search_id ∈ records_within input_file obj →
  ∃ k r,
    py_index (length (fiona_read input_file)) search_id = Some k
    ∧ fiona_read input_file !! k = Some r
    ∧ rec_id r = search_id.
Proof.
  intros Hsound (r & -> & Hr)%list_elem_of_fmap.
  apply Hsound in Hr. apply fiona_read_elem in Hr as (k & Hk & Hid).
  exists k, r. split; [|done]. rewrite Hid. apply py_index_nat.
  by eapply lookup_lt_Some.
Qed.

Lemma search_ids_index_recs_witness :
  ∃ k r,
    py_index (length (fiona_read Examples.three_in_a_row)) 1 = Some k
    ∧ fiona_read Examples.three_in_a_row !! k = Some r
    ∧ rec_id r = 1%Z.
Proof.
  apply (search_ids_index_recs (K := Planar.kernel) Examples.three_in_a_row
           (buffer (Point (0, 0)%Q) 1650) 1 planar_sound).
  apply (list_elem_of_lookup_2 _ 1). vm_compute. reflexivity.
Defined.

(** * ShieldLabels *)

Import Shield.
Import Stdlib.Strings.Ascii.

(** ** Characters and texts *)

Ltac each_char c := destruct c as [[] [] [] [] [] [] [] []]; try reflexivity; try discriminate.

Lemma eq_ci_lower (c d : ascii) : eq_ci c d = true → lower c = lower d.
Proof. unfold eq_ci. by intros ?%Ascii.eqb_eq. Qed.

Lemma is_digit_lower (c : ascii) : is_digit (lower c) = is_digit c.
Proof. each_char c. Qed.

Lemma is_word_lower (c : ascii) : is_word (lower c) = is_word c.
Proof. each_char c. Qed.

Lemma is_space_lower (c : ascii) : is_space (lower c) = is_space c.
Proof. each_char c. Qed.

Lemma is_hyphen_lower (c : ascii) : Ascii.eqb (lower c) "-" = Ascii.eqb c "-".
Proof. each_char c. Qed.

Lemma length_append (s t : string) :
  String.length (s +:+ t) = String.length s + String.length t.
Proof. induction s as [|c s IH]; simpl; [done|]. by rewrite IH. Qed.

Lemma all_chars_append (p : ascii → bool) (s t : string) :
  all_chars p (s +:+ t) = all_chars p s && all_chars p t.
Proof.
  induction s as [|c s IH]; simpl; [done|]. by rewrite IH, andb_assoc.
Qed.

Lemma all_chars_impl (p q : ascii → bool) (s : string) :
  (∀ c, p c = true → q c = true) → all_chars p s = true → all_chars q s = true.
Proof.
  intros Hpq. induction s as [|c s IH]; simpl; [done|].
  intros [Hc Hs]%andb_true_iff. apply andb_true_iff. auto.
Qed.

Lemma digits_of_append (s t : string) :
  digits_of (s +:+ t) = digits_of s +:+ digits_of t.
Proof.
  induction s as [|c s IH]; simpl; [done|].
  destruct (is_digit c); simpl; by rewrite IH.
Qed.

Lemma digits_of_none (s : string) :
  all_chars (λ c, negb (is_digit c)) s = true → digits_of s = "".
Proof.
  induction s as [|c s IH]; simpl; [done|].
  intros [Hc Hs]%andb_true_iff. apply negb_true_iff in Hc. rewrite Hc. auto.
Qed.

Lemma has_digit_digits_of (s : string) :
  has_digit s = false ↔ digits_of s = "".
Proof.
  induction s as [|c s IH]; simpl; [done|].
  destruct (is_digit c); simpl; [|done]. split; discriminate.
Qed.

(** ** split_and_duplicate_segments *)

Lemma re_split_clean (s : string) :
  Forall (λ piece, all_chars (λ c, negb (is_separator c)) piece = true)
    (re_split s).
Proof.
  induction s as [|c s IH]; simpl.
  - by repeat constructor.
  - destruct (is_separator c) eqn:Hc.
    + by constructor.
    + destruct (re_split s) as [|piece pieces].
      * repeat constructor. simpl. by rewrite Hc.
      * inversion IH as [|?? Hpiece Hpieces]; subst.
        constructor; [|done]. simpl. by rewrite Hc.
Qed.

Lemma re_split_single (s : string) :
  all_chars (λ c, negb (is_separator c)) s = true → re_split s = [s].
Proof.
  induction s as [|c s IH]; simpl; [done|].
  intros [Hc Hs]%andb_true_iff. apply negb_true_iff in Hc.
  by rewrite Hc, (IH Hs).
Qed.

Lemma write_each_elem {A} (body : A → result (list item)) (input : list A)
    (it : item) :
  it ∈ (write_each body input).1 →
  ∃ src written, src ∈ input ∧ body src = Done written ∧ it ∈ written.
Proof.
  induction input as [|a input IH]; simpl.
  - by intros ?%elem_of_nil.
  - destruct (body a) as [written|e] eqn:Hbody; simpl.
    + destruct (write_each body input) as [written' e']; simpl in *.
      intros [Hit|Hit]%elem_of_app.
      * exists a, written. split_and!; [left|done..].
      * destruct (IH Hit) as (src & w & Hsrc & Hw & Hin).
        exists src, w. split_and!; [by right|done..].
    + by intros ?%elem_of_nil.
Qed.

Lemma write_each_fixed (body : item → result (list item)) (input : list item) :
  (∀ it, it ∈ input → body it = Done [it]) →
  write_each body input = (input, None).
Proof.
  induction input as [|a input IH]; simpl; [done|].
  intros Hbody. rewrite (Hbody a) by left.
  rewrite IH; [done|]. intros it Hit. apply Hbody. by right.
Qed.

Lemma split_item_written (src it : item) (written : list item) :
  split_item src = Done written → it ∈ written →
  ∃ refTag feature,
    item_properties src !! "ref" = Some (VStr refTag) ∧
    refTag ≠ "None" ∧
    feature ∈ re_split refTag ∧
    it = set_property "ref" (VStr feature) src ∧
    feature ≠ "" ∧
    all_chars (λ c, negb (is_separator c)) feature = true.
Proof.
  unfold split_item.
  destruct (item_properties src !! "ref") as [[|refTag|?|?]|] eqn:Href;
    try discriminate.
  - intros [= <-]. by intros ?%elem_of_nil.
  - destruct (decide (refTag = "None")) as [->|Hnone].
    + intros [= <-]. by intros ?%elem_of_nil.
    + intros [= <-].
      intros (feature & -> & [Hne Hin]%list_elem_of_filter)%list_elem_of_fmap.
      exists refTag, feature. split_and!; try done.
      pose proof (re_split_clean refTag) as Hclean.
      rewrite Forall_forall in Hclean. by apply Hclean.
Qed.

Lemma split_item_single (it : item) (s : string) :
  item_properties it !! "ref" = Some (VStr s) →
  s ≠ "" → s ≠ "None" →
  all_chars (λ c, negb (is_separator c)) s = true →
  split_item it = Done [it].
Proof.
  intros Href Hne Hnone Hclean. unfold split_item. rewrite Href.
  destruct (decide (s = "None")) as [|_]; [done|].
  rewrite (re_split_single s Hclean).
  rewrite filter_cons_True, filter_nil by done. simpl.
  do 2 f_equal. unfold set_property. destruct it as [g props]; simpl in *.
  f_equal. by apply insert_id.
Qed.

(** X13. Every item that split_and_duplicate_segments writes is an input
    item whose ref was a string other than 'None', with the ref replaced by
    one of the pieces of that string between its ',' and ';': the piece is
    not empty and holds no ',' and no ';'. Geometry and the other
    attributes are those of the input item. This holds for what was
    written before an exception too. *)
Theorem split_refs_are_single (input : list item) (it : item) :
  it ∈ (split_and_duplicate_segments input).1 →
  ∃ src refTag feature,
    src ∈ input ∧
    item_properties src !! "ref" = Some (VStr refTag) ∧
    refTag ≠ "None" ∧
    feature ∈ re_split refTag ∧
    it = set_property "ref" (VStr feature) src ∧
    feature ≠ "" ∧
    all_chars (λ c, negb (is_separator c)) feature = true.
Proof.
  intros (src & written & Hsrc & Hbody & Hit)%write_each_elem.
  destruct (split_item_written src it written Hbody Hit)
    as (refTag & feature & ? & ? & ? & ? & ? & ?).
  by exists src, refTag, feature.
Qed.

Lemma split_refs_are_single_witness :
  Roads.road (VStr "US 1") ∈ (split_and_duplicate_segments Roads.two_refs).1 ∧
  ∃ src refTag feature,
    src ∈ Roads.two_refs ∧
    item_properties src !! "ref" = Some (VStr refTag) ∧
    refTag ≠ "None" ∧
    feature ∈ re_split refTag ∧
    Roads.road (VStr "US 1") = set_property "ref" (VStr feature) src ∧
    feature ≠ "" ∧
    all_chars (λ c, negb (is_separator c)) feature = true.
Proof.
  assert (Roads.road (VStr "US 1")
          ∈ (split_and_duplicate_segments Roads.two_refs).1) as Hin.
  { vm_compute. do 2 right. left. }
  split; [exact Hin|].
  exact (split_refs_are_single _ _ Hin).
Defined.

(** X14. Splitting is done once: when split_and_duplicate_segments ran
    without an exception and none of the refs it wrote is the string
    'None', running it on its own output writes that output again,
    unchanged. *)
Theorem split_twice (input out : list item) :
  split_and_duplicate_segments input = (out, None) →
  (∀ it, it ∈ out → item_properties it !! "ref" ≠ Some (VStr "None")) →
  split_and_duplicate_segments out = (out, None).
Proof.
  intros Hrun Hnone. apply write_each_fixed. intros it Hit.
  assert (it ∈ (split_and_duplicate_segments input).1) as Hin
    by by rewrite Hrun.
  apply write_each_elem in Hin
    as (src & written & Hsrc & Hbody & Hwritten).
  destruct (split_item_written src it written Hbody Hwritten)
    as (refTag & feature & Href & _ & _ & Heq & Hne & Hclean).
  assert (item_properties it !! "ref" = Some (VStr feature)) as Hitref.
  { subst it. unfold set_property; simpl. by rewrite lookup_insert_eq. }
  apply (split_item_single it feature); try done.
  intros ->. by apply (Hnone it Hit).
Qed.

Lemma split_twice_witness :
  split_and_duplicate_segments Roads.two_refs = (Roads.single_refs, None) ∧
  (∀ it, it ∈ Roads.single_refs →
         item_properties it !! "ref" ≠ Some (VStr "None")) ∧
  split_and_duplicate_segments Roads.single_refs = (Roads.single_refs, None).
Proof.
  assert (split_and_duplicate_segments Roads.two_refs
          = (Roads.single_refs, None)) as Hrun
    by (vm_compute; reflexivity).
  assert (∀ it, it ∈ Roads.single_refs →
                item_properties it !! "ref" ≠ Some (VStr "None")) as Hnone.
  { intros it Hit. unfold Roads.single_refs in Hit.
    repeat (apply elem_of_cons in Hit as [->|Hit]);
      [vm_compute; discriminate..|by apply elem_of_nil in Hit]. }
  split; [exact Hrun|]. split; [exact Hnone|].
  exact (split_twice _ _ Hrun Hnone).
Defined.

(** ** create_shield_type *)

Lemma eq_ci_same (p c d : ascii) : eq_ci c d = true → eq_ci p c = eq_ci p d.
Proof. intros H%eq_ci_lower. unfold eq_ci. by rewrite H. Qed.

Lemma is_word_same (c d : ascii) : eq_ci c d = true → is_word c = is_word d.
Proof.
  intros H%eq_ci_lower. by rewrite <-(is_word_lower c), H, is_word_lower.
Qed.

Lemma is_space_same (c d : ascii) : eq_ci c d = true → is_space c = is_space d.
Proof.
  intros H%eq_ci_lower. by rewrite <-(is_space_lower c), H, is_space_lower.
Qed.

Lemma is_hyphen_same (c d : ascii) :
  eq_ci c d = true → Ascii.eqb c "-" = Ascii.eqb d "-".
Proof.
  intros H%eq_ci_lower. by rewrite <-(is_hyphen_lower c), H, is_hyphen_lower.
Qed.

Lemma prefix_ci_same (pat s t : string) :
  same_ci s t = true → prefix_ci pat s = prefix_ci pat t.
Proof.
  revert s t. induction pat as [|p pat IH]; intros [|c s] [|d t]; simpl;
    try done.
  intros [Hcd Hst]%andb_true_iff.
  by rewrite (eq_ci_same p c d Hcd), (IH s t Hst).
Qed.

Lemma drop_chars_same (n : nat) (s t : string) :
  same_ci s t = true → same_ci (drop_chars n s) (drop_chars n t) = true.
Proof.
  revert s t. induction n as [|n IH]; intros [|c s] [|d t]; simpl; try done.
  intros [_ Hst]%andb_true_iff. by apply IH.
Qed.

Lemma boundary_same (s t : string) :
  same_ci s t = true → boundary s = boundary t.
Proof.
  destruct s as [|c s], t as [|d t]; simpl; try done.
  intros [Hcd _]%andb_true_iff. by rewrite (is_word_same c d Hcd).
Qed.

Lemma state_here_same (s t : string) :
  same_ci s t = true → state_here s = state_here t.
Proof.
  intros Hst. unfold state_here.
  induction state_hwys as [|w ws IH]; simpl; [done|].
  rewrite IH, (prefix_ci_same w s t Hst).
  by rewrite (boundary_same _ _ (drop_chars_same (String.length w) s t Hst)).
Qed.

Lemma state_from_same (after_word : bool) (s t : string) :
  same_ci s t = true → state_from after_word s = state_from after_word t.
Proof.
  revert after_word t. induction s as [|c s IH]; intros b [|d t] Hst;
    try done.
  pose proof Hst as [Hcd Hst']%andb_true_iff.
  cbn [state_from].
  by rewrite (state_here_same _ _ Hst), (is_word_same c d Hcd), (IH _ t Hst').
Qed.

(** X15. The shield type does not depend on the case of the letters of the
    ref: two items whose refs differ in case only get the same answer from
    create_shield_type, in every region. *)
Theorem shield_type_ignores_case (it it' : item) (s t region : string) :
  item_properties it !! "ref" = Some (VStr s) →
  item_properties it' !! "ref" = Some (VStr t) →
  same_ci s t = true →
  create_shield_type it region = create_shield_type it' region.
Proof.
  intros Hs Ht Hst. unfold create_shield_type. rewrite Hs, Ht.
  destruct (decide (region = "USA")); [|done].
  assert (interstates_match s = interstates_match t) as ->.
  { destruct s as [|c0 [|c1 s]], t as [|d0 [|d1 t]]; simpl in *; try done;
      try by rewrite andb_false_r in Hst.
    apply andb_true_iff in Hst as [H0 [H1 _]%andb_true_iff].
    by rewrite (eq_ci_same _ _ _ H0), (is_space_same _ _ H1),
      (is_hyphen_same _ _ H1). }
  assert (us_hwys_match s = us_hwys_match t) as ->.
  { destruct s as [|c0 [|c1 [|c2 s]]], t as [|d0 [|d1 [|d2 t]]];
      simpl in *; try done;
      try (by rewrite ?andb_false_r in Hst).
    apply andb_true_iff in Hst
      as [H0 [H1 [H2 _]%andb_true_iff]%andb_true_iff].
    by rewrite (eq_ci_same _ _ _ H0), (eq_ci_same _ _ _ H1),
      (is_space_same _ _ H2), (is_hyphen_same _ _ H2). }
  unfold state_hwys_match. by rewrite (state_from_same false s t Hst).
Qed.

Lemma shield_type_ignores_case_witness :
  same_ci "us-101" "Us-101" = true ∧
  create_shield_type (Roads.road (VStr "us-101")) "USA"
  = create_shield_type (Roads.road (VStr "Us-101")) "USA".
Proof.
  split; [reflexivity|].
  exact (shield_type_ignores_case (Roads.road (VStr "us-101"))
           (Roads.road (VStr "Us-101")) "us-101" "Us-101" "USA"
           eq_refl eq_refl eq_refl).
Defined.

(** ** create_label, region USA *)

Lemma is_digit_same (p c : ascii) : eq_ci p c = true → is_digit c = is_digit p.
Proof.
  intros H%eq_ci_lower. by rewrite <-(is_digit_lower c), <-H, is_digit_lower.
Qed.

Lemma prefix_ci_no_digit (pat s : string) :
  all_chars (λ c, negb (is_digit c)) pat = true →
  prefix_ci pat s = true →
  all_chars (λ c, negb (is_digit c)) (take_chars (String.length pat) s) = true.
Proof.
  revert s. induction pat as [|p pat IH]; intros [|c s]; simpl; try done.
  intros [Hp Hpat]%andb_true_iff [Hpc Hpre]%andb_true_iff.
  by rewrite (is_digit_same p c Hpc), Hp, (IH s Hpat Hpre).
Qed.

(** A substitution whose pattern and replacement hold no digit keeps the
    digits of the text. *)
Lemma sub_from_digits (pat repl : string) :
  pat ≠ "" →
  all_chars (λ c, negb (is_digit c)) pat = true →
  all_chars (λ c, negb (is_digit c)) repl = true →
  ∀ (s : string) (skip : nat),
    all_chars (λ c, negb (is_digit c)) (take_chars skip s) = true →
    digits_of (sub_from pat repl skip s) = digits_of s.
Proof.
  intros Hne Hpat Hrepl. induction s as [|c s IH]; intros skip Hskip;
    [done|].
  destruct skip as [|n]; cbn [sub_from].
  - destruct (prefix_ci pat (String c s)) eqn:Hpre.
    + pose proof (prefix_ci_no_digit pat (String c s) Hpat Hpre) as Hfirst.
      destruct pat as [|p pat]; [done|]. simpl in Hfirst.
      apply andb_true_iff in Hfirst as [Hc Hfirst].
      rewrite digits_of_append, (digits_of_none repl Hrepl). simpl.
      apply negb_true_iff in Hc. rewrite Hc.
      apply IH. simpl. by rewrite Nat.sub_0_r.
    + simpl. by rewrite (IH 0%nat eq_refl).
  - simpl in Hskip. apply andb_true_iff in Hskip as [Hc Hskip].
    simpl. apply negb_true_iff in Hc. rewrite Hc. by apply IH.
Qed.

Lemma re_sub_digits (pat repl s : string) :
  pat ≠ "" →
  all_chars (λ c, negb (is_digit c)) pat = true →
  all_chars (λ c, negb (is_digit c)) repl = true →
  digits_of (re_sub pat repl s) = digits_of s.
Proof. intros. by apply sub_from_digits. Qed.

Lemma usa_clean_digits (s : string) : digits_of (usa_clean s) = digits_of s.
Proof.
  unfold usa_clean.
  assert (Forall (λ sub : string * string,
            sub.1 ≠ "" ∧
            all_chars (λ c, negb (is_digit c)) sub.1 = true ∧
            all_chars (λ c, negb (is_digit c)) sub.2 = true)
            usa_substitutions) as Hsubs.
  { unfold usa_substitutions. repeat constructor; done. }
  revert s. induction Hsubs as [|[pat repl] subs (? & ? & ?) _ IH];
    intros s; simpl; [done|].
  by rewrite IH, re_sub_digits.
Qed.

Lemma from_first_digit_spec (s : string) :
  match digits_of s with
  | EmptyString => from_first_digit s = ""
  | String d _ =>
      ∃ t, from_first_digit s = String d t ∧ is_digit d = true
  end.
Proof.
  induction s as [|c s IH]; simpl; [done|].
  destruct (is_digit c) eqn:Hc; [|done]. by exists s.
Qed.

Lemma usa_label_match_spec (s : string) :
  match digits_of s with
  | EmptyString => usa_label_match s = None
  | String d _ => ∃ rest, usa_label_match s = Some (String d rest)
  end.
Proof.
  unfold usa_label_match. pose proof (from_first_digit_spec s) as H.
  destruct (digits_of s) as [|d ds].
  - by rewrite H.
  - destruct H as (t & -> & Hd). simpl. rewrite Hd.
    destruct (span_digits t) as [digits rest]. simpl. by eexists.
Qed.

(** X16. In region USA create_label returns a label exactly for the refs
    that hold a digit, and the label starts with the first digit of the
    ref: the substitutions before the match remove and abbreviate words,
    never a digit. *)
Theorem usa_label_starts_at_first_digit (strips : ascii → bool) (it : item)
    (s : string) :
  item_properties it !! "ref" = Some (VStr s) →
  match digits_of s with
  | EmptyString => create_label strips it "USA" = Done None
  | String d _ =>
      ∃ rest, create_label strips it "USA" = Done (Some (String d rest))
  end.
Proof.
  intros Href. unfold create_label. rewrite Href.
  destruct (decide ("USA" = "USA")) as [_|]; [|done].
  pose proof (usa_label_match_spec (usa_clean s)) as H.
  rewrite usa_clean_digits in H.
  destruct (digits_of s) as [|d ds].
  - by rewrite H.
  - destruct H as [rest ->]. by exists rest.
Qed.

Lemma usa_label_starts_at_first_digit_witness :
  ∃ rest,
    create_label is_space (Roads.road (VStr "US 101 Business West")) "USA"
    = Done (Some (String "1" rest)).
Proof.
  exact (usa_label_starts_at_first_digit is_space
           (Roads.road (VStr "US 101 Business West"))
           "US 101 Business West" eq_refl).
Defined.

Lemma span_digits_spec (s : string) :
  s = (span_digits s).1 +:+ (span_digits s).2 ∧
  all_chars is_digit (span_digits s).1 = true ∧
  match (span_digits s).2 with
  | EmptyString => True
  | String c _ => is_digit c = false
  end.
Proof.
  induction s as [|c s (IH1 & IH2 & IH3)]; simpl; [done|].
  destruct (is_digit c) eqn:Hc.
  - destruct (span_digits s) as [digits rest]; simpl in *.
    rewrite Hc. split_and!; [|done..].
    change (String c s = String c (digits +:+ rest)). by f_equal.
  - by simpl.
Qed.

Lemma append_cons (c : ascii) (s t : string) :
  String c s +:+ t = String c (s +:+ t).
Proof. done. Qed.

Lemma up_to_last_letter_end (s : string) :
  match up_to_last_letter s with
  | EmptyString => True
  | String c more =>
      ∃ body e, String c more = body +:+ String e "" ∧ is_alpha e = true
  end.
Proof.
  induction s as [|c s IH]; simpl; [done|].
  destruct (up_to_last_letter s) as [|c' more].
  - destruct (is_alpha c) eqn:Hc; [|done]. by exists "", c.
  - destruct IH as (body & e & Heq & He).
    exists (String c body), e. by rewrite append_cons, <-Heq.
Qed.

Lemma label_suffix_end (rest : string) :
  match label_suffix rest with
  | EmptyString => True
  | String c more =>
      ∃ body e, String c more = body +:+ String e "" ∧ is_word e = true
  end.
Proof.
  unfold label_suffix. destruct rest as [|c rest]; [done|].
  destruct (is_word c) eqn:Hc.
  - by exists "", c.
  - destruct (Ascii.eqb c "-" || Ascii.eqb c " "); [|done].
    pose proof (up_to_last_letter_end (letters_and_spaces rest)) as H.
    destruct (up_to_last_letter (letters_and_spaces rest)) as [|c' more];
      [done|].
    destruct H as (body & e & Heq & He).
    exists (String c body), e. rewrite append_cons, <-Heq. split; [done|].
    unfold is_word. by rewrite He.
Qed.

Lemma digits_end (digits : string) :
  all_chars is_digit digits = true → digits ≠ "" →
  ∃ body e, digits = body +:+ String e "" ∧ is_word e = true.
Proof.
  induction digits as [|c s IH]; [done|]. simpl.
  intros [Hc Hs]%andb_true_iff _.
  destruct s as [|c' s].
  - exists "", c. split; [done|]. unfold is_word. rewrite Hc.
    by rewrite orb_true_r.
  - destruct (IH Hs) as (body & e & Heq & He); [done|].
    exists (String c body), e. by rewrite append_cons, <-Heq.
Qed.

Lemma append_assoc (s t u : string) : (s +:+ t) +:+ u = s +:+ (t +:+ u).
Proof. induction s as [|c s IH]; [done|]. by rewrite !append_cons, IH. Qed.

Lemma usa_label_match_end (s label : string) :
  usa_label_match s = Some label →
  ∃ body e, label = body +:+ String e "" ∧ is_word e = true.
Proof.
  unfold usa_label_match. pose proof (from_first_digit_spec s) as H.
  destruct (digits_of s) as [|d ds].
  - by rewrite H.
  - destruct H as (t & -> & Hd).
    pose proof (span_digits_spec (String d t)) as (_ & Hdigits & _).
    assert ((span_digits (String d t)).1 ≠ "") as Hne.
    { simpl. rewrite Hd. by destruct (span_digits t). }
    destruct (span_digits (String d t)) as [digits rest]; simpl in *.
    intros [= <-].
    pose proof (label_suffix_end rest) as Hsuffix.
    destruct (label_suffix rest) as [|c more].
    + destruct (digits_end digits Hdigits Hne) as (body & e & -> & He).
      exists body, e. split; [|done].
      by rewrite append_assoc.
    + destruct Hsuffix as (body & e & -> & He).
      exists (digits +:+ body), e. by rewrite append_assoc.
Qed.

(** X17. A label that create_label returns in region USA ends with a
    letter, a digit or an underscore: never with the space or the hyphen
    that may follow the number. *)
Theorem usa_label_ends_in_word_char (strips : ascii → bool) (it : item)
    (label : string) :
  create_label strips it "USA" = Done (Some label) →
  ∃ body e, label = body +:+ String e "" ∧ is_word e = true.
Proof.
  unfold create_label.
  destruct (item_properties it !! "ref") as [[|s|?|?]|]; try done.
  destruct (decide ("USA" = "USA")) as [_|]; [|done].
  intros [= H]. by apply usa_label_match_end in H.
Qed.

Lemma usa_label_ends_in_word_char_witness :
  create_label is_space (Roads.road (VStr "CA 1 North - ")) "USA"
  = Done (Some "1 N") ∧
  ∃ body e, "1 N" = body +:+ String e "" ∧ is_word e = true.
Proof.
  split; [reflexivity|].
  exact (usa_label_ends_in_word_char is_space
           (Roads.road (VStr "CA 1 North - ")) "1 N" eq_refl).
Defined.

(** ** create_label, region Global *)

Lemma drop_chars_length (n : nat) (s : string) :
  String.length (drop_chars n s) ≤ String.length s.
Proof.
  revert s. induction n as [|n IH]; intros [|c s]; simpl; try lia.
  specialize (IH s). lia.
Qed.

Lemma after_mex_length (c : ascii) (s : string) :
  String.length (after_mex (String c s)) ≤ String.length s.
Proof.
  unfold after_mex.
  pose proof (drop_chars_length 3 (String c s)) as H3.
  assert (String.length (drop_chars 3 (String c s)) ≤ String.length s) as H.
  { destruct s as [|c1 [|c2 s]]; simpl; lia. }
  destruct (drop_chars 3 (String c s)) as [|c1 s1]; [simpl in *; lia|].
  assert (String.length (if is_space c1 then s1 else String c1 s1)
          ≤ String.length s) as H'
    by (destruct (is_space c1); simpl in *; lia).
  destruct (if is_space c1 then s1 else String c1 s1) as [|c2 s2];
    [simpl in *; lia|].
  destruct (Ascii.eqb c2 "-"); simpl in *; lia.
Qed.

(** The fuel of [remove_mex] is enough: more of it changes nothing. *)
Lemma remove_mex_from_enough (n m : nat) (s : string) :
  String.length s ≤ n → String.length s ≤ m →
  remove_mex_from n s = remove_mex_from m s.
Proof.
  revert m s. induction n as [|n IH]; intros [|m] [|c s];
    cbn [remove_mex_from String.length]; try lia; try done.
  intros Hn Hm. pose proof (after_mex_length c s).
  destruct (prefix_ci "MEX" (String c s)).
  - apply IH; lia.
  - f_equal. apply IH; lia.
Qed.

Lemma take_chars_length (n : nat) (s : string) :
  String.length (take_chars n s) ≤ n.
Proof.
  revert s. induction n as [|n IH]; intros [|c s]; simpl; try lia.
  specialize (IH s). lia.
Qed.

Section StripFacts.
Variable strips : ascii → bool.

Lemma lstrip_length (s : string) :
  String.length (lstrip strips s) ≤ String.length s.
Proof.
  induction s as [|c s IH]; simpl; [done|].
  destruct (strips c); simpl; lia.
Qed.

Lemma rstrip_length (s : string) :
  String.length (rstrip strips s) ≤ String.length s.
Proof.
  induction s as [|c s IH]; simpl; [done|].
  destruct (rstrip strips s); [destruct (strips c)|]; simpl in *; lia.
Qed.

Lemma lstrip_start (s : string) :
  match lstrip strips s with
  | EmptyString => True
  | String c _ => strips c = false
  end.
Proof.
  induction s as [|c s IH]; simpl; [done|].
  by destruct (strips c) eqn:Hc.
Qed.

Lemma rstrip_start (c : ascii) (s : string) :
  strips c = false → ∃ t, rstrip strips (String c s) = String c t.
Proof.
  intros Hc. simpl. rewrite Hc.
  destruct (rstrip strips s); by eexists.
Qed.

Lemma rstrip_end (s : string) :
  match rstrip strips s with
  | EmptyString => True
  | String c more =>
      ∃ body e, String c more = body +:+ String e "" ∧ strips e = false
  end.
Proof.
  induction s as [|c s IH]; simpl; [done|].
  destruct (rstrip strips s) as [|c' more].
  - destruct (strips c) eqn:Hc; [done|]. by exists "", c.
  - destruct IH as (body & e & Heq & He).
    exists (String c body), e. by rewrite append_cons, <-Heq.
Qed.

Lemma strip_spec (s : string) :
  String.length (strip strips s) ≤ String.length s ∧
  (strip strips s ≠ "" →
   (∃ c t, strip strips s = String c t ∧ strips c = false) ∧
   (∃ body e, strip strips s = body +:+ String e "" ∧ strips e = false)).
Proof.
  unfold strip. split.
  { pose proof (rstrip_length (lstrip strips s)).
    pose proof (lstrip_length s). lia. }
  intros Hne. split.
  - pose proof (lstrip_start s) as Hstart.
    destruct (lstrip strips s) as [|c t]; [done|].
    destruct (rstrip_start c t Hstart) as [t' Heq]. by exists c, t'.
  - pose proof (rstrip_end (lstrip strips s)) as Hend.
    by destruct (rstrip strips (lstrip strips s)).
Qed.
End StripFacts.

Lemma global_label_spec (strips : ascii → bool) (refText : value)
    (l : string) :
  global_label strips refText = Some l →
  String.length l ≤ 7 ∧ has_digit l = true ∧
  (∃ c t, l = String c t ∧ strips c = false) ∧
  (∃ body e, l = body +:+ String e "" ∧ strips e = false).
Proof.
  unfold global_label. destruct refText as [|s| |]; try done.
  destruct (has_digit (remove_mex s)); [|done].
  destruct (has_digit (strip strips (take_chars 7 (remove_mex s)))) eqn:Hd;
    [|done].
  intros Heq. apply (inj Some) in Heq. subst l.
  pose proof (strip_spec strips (take_chars 7 (remove_mex s))) as [Hlen Hends].
  pose proof (take_chars_length 7 (remove_mex s)).
  split; [lia|]. split; [done|]. apply Hends.
  intros Hempty. by rewrite Hempty in Hd.
Qed.

(** X18. In region Global create_label never raises on an item that has a
    ref attribute, whatever its value, and a label it returns has at most
    seven characters, holds a digit, and neither starts nor ends with a
    character that strip() removes. *)
Theorem global_label_is_short (strips : ascii → bool) (it : item) :
  is_Some (item_properties it !! "ref") →
  ∃ label,
    create_label strips it "Global" = Done label ∧
    ∀ l, label = Some l →
      String.length l ≤ 7 ∧ has_digit l = true ∧
      (∃ c t, l = String c t ∧ strips c = false) ∧
      (∃ body e, l = body +:+ String e "" ∧ strips e = false).
Proof.
  intros [refText Href]. unfold create_label. rewrite Href.
  destruct (decide ("Global" = "USA")) as [|_]; [done|].
  destruct (decide ("Global" = "Global")) as [_|]; [|done].
  eexists. split; [done|]. intros l. apply global_label_spec.
Qed.

Lemma global_label_is_short_witness :
  ∃ label,
    create_label is_space (Roads.road (VStr "MEX 15D toll road")) "Global"
    = Done label ∧
    ∀ l, label = Some l →
      String.length l ≤ 7 ∧ has_digit l = true ∧
      (∃ c t, l = String c t ∧ is_space c = false) ∧
      (∃ body e, l = body +:+ String e "" ∧ is_space e = false).
Proof.
  exact (global_label_is_short is_space
           (Roads.road (VStr "MEX 15D toll road"))
           (ex_intro _ (VStr "MEX 15D toll road") eq_refl)).
Defined.

(** ** process_file *)

Lemma create_label_ref (strips : ascii → bool) (a b : item) (region : string) :
  item_properties a !! "ref" = item_properties b !! "ref" →
  create_label strips a region = create_label strips b region.
Proof. intros H. unfold create_label. by rewrite H. Qed.

Ltac inserted :=
  rewrite ?lookup_insert_ne by done; rewrite ?lookup_insert_eq.

(** process_item writes nothing or one item, and what the item is made
    of. *)
Lemma process_item_one `{K : Kernel} (strips : ascii → bool)
    (region : string) (src : item) (written : list item) :
  process_item strips region src = Done written →
  written = [] ∨
  ∃ g shield l,
    item_geometry src = Some g ∧
    create_shield_type src region = Done shield ∧
    create_label strips src region = Done (Some l) ∧
    (region = "USA" → 1 ≤ String.length l ≤ 5) ∧
    written =
      [Item (Some g)
         (<["label_len" := VInt (Z.of_nat (String.length l))]>
            (<["seg_len" := VFloat (geom_length g)]>
               (<["label" := VStr l]>
                  (<["shield_typ" := value_of shield]>
                     (item_properties src)))))].
Proof.
  unfold process_item.
  destruct (create_shield_type src region) as [shield|] eqn:Hshield;
    [|done].
  rewrite (create_label_ref strips _ src region)
    by (simpl; by rewrite lookup_insert_ne).
  destruct (create_label strips src region) as [[l|]|] eqn:Hlabel;
    simpl; unfold shape; destruct (item_geometry src) as [g|] eqn:Hg;
    try done; try (intros [= <-]; by left).
  destruct (bool_decide (region = "USA")
            && ((5 <? String.length l)%nat || (String.length l =? 0)%nat))
    eqn:Htest.
  { intros [= <-]. by left. }
  intros [= <-]. right.
  exists g, shield, l. split_and!; try done.
  intros ->. rewrite bool_decide_eq_true_2 in Htest by done.
  simpl in Htest. apply orb_false_iff in Htest as [H5 H0].
  apply Nat.ltb_ge in H5. apply Nat.eqb_neq in H0. lia.
Qed.

Lemma process_item_written `{K : Kernel} (strips : ascii → bool)
    (region : string) (src it : item) (written : list item) :
  process_item strips region src = Done written → it ∈ written →
  ∃ g shield l,
    item_geometry src = Some g ∧
    create_shield_type src region = Done shield ∧
    create_label strips src region = Done (Some l) ∧
    (region = "USA" → 1 ≤ String.length l ≤ 5) ∧
    it = Item (Some g)
           (<["label_len" := VInt (Z.of_nat (String.length l))]>
              (<["seg_len" := VFloat (geom_length g)]>
                 (<["label" := VStr l]>
                    (<["shield_typ" := value_of shield]>
                       (item_properties src))))).
Proof.
  intros [->|(g & shield & l & ? & ? & ? & ? & ->)]%process_item_one.
  - by intros ?%elem_of_nil.
  - intros ->%list_elem_of_singleton. by exists g, shield, l.
Qed.

(** X19. In region USA every item that process_file writes has a geometry
    and carries its label, of one to five characters, the number of these
    characters as label_len, the length of the geometry as seg_len, and as
    shield_typ one of 'I', 'US', 'ST' or None. This holds for what was
    written before an exception too. *)
Theorem process_file_usa_output `{K : Kernel} (strips : ascii → bool)
    (input : list item) (it : item) :
  it ∈ (process_file strips input "USA").1 →
  ∃ g l shield,
    item_geometry it = Some g ∧
    item_properties it !! "label" = Some (VStr l) ∧
    1 ≤ String.length l ≤ 5 ∧
    item_properties it !! "label_len"
    = Some (VInt (Z.of_nat (String.length l))) ∧
    item_properties it !! "seg_len" = Some (VFloat (geom_length g)) ∧
    item_properties it !! "shield_typ" = Some shield ∧
    shield ∈ [VStr "I"; VStr "US"; VStr "ST"; VNone].
Proof.
  intros (src & written & Hsrc & Hbody & Hit)%write_each_elem.
  destruct (process_item_written strips "USA" src it written Hbody Hit)
    as (g & shield & l & Hg & Hshield & Hlabel & Hlen & ->).
  exists g, l, (value_of shield). simpl.
  split_and!; try done.
  - by inserted.
  - by apply Hlen.
  - by apply Hlen.
  - by inserted.
  - by inserted.
  - by inserted.
  - unfold create_shield_type in Hshield.
    destruct (item_properties src !! "ref") as [[|s| |]|]; try done.
    destruct (decide ("USA" = "USA")) as [_|]; [|done].
    destruct (interstates_match s);
      [injection Hshield as <-; repeat constructor|].
    destruct (us_hwys_match s);
      [injection Hshield as <-; repeat constructor|].
    destruct (state_hwys_match s); injection Hshield as <-;
      repeat constructor.
Qed.

Lemma process_file_usa_output_witness :
  Roads.labelled "I-5" "I" "5"
  ∈ (process_file is_space Roads.mixed_refs "USA").1 ∧
  ∃ g l shield,
    item_geometry (Roads.labelled "I-5" "I" "5") = Some g ∧
    item_properties (Roads.labelled "I-5" "I" "5") !! "label"
    = Some (VStr l) ∧
    1 ≤ String.length l ≤ 5 ∧
    item_properties (Roads.labelled "I-5" "I" "5") !! "label_len"
    = Some (VInt (Z.of_nat (String.length l))) ∧
    item_properties (Roads.labelled "I-5" "I" "5") !! "seg_len"
    = Some (VFloat (geom_length g)) ∧
    item_properties (Roads.labelled "I-5" "I" "5") !! "shield_typ"
    = Some shield ∧
    shield ∈ [VStr "I"; VStr "US"; VStr "ST"; VNone].
Proof.
  assert (Roads.labelled "I-5" "I" "5"
          ∈ (process_file is_space Roads.mixed_refs "USA").1) as Hin.
  { vm_compute. left. }
  split; [exact Hin|].
  exact (process_file_usa_output is_space Roads.mixed_refs _ Hin).
Defined.

(** X20. In region Global every item that process_file writes has a
    geometry and carries the shield type 'GLOBAL', its label, of at most
    seven characters with a digit among them, the number of these
    characters as label_len and the length of the geometry as seg_len. *)
Theorem process_file_global_output `{K : Kernel} (strips : ascii → bool)
    (input : list item) (it : item) :
  it ∈ (process_file strips input "Global").1 →
  ∃ g l,
    item_geometry it = Some g ∧
    item_properties it !! "label" = Some (VStr l) ∧
    String.length l ≤ 7 ∧ has_digit l = true ∧
    item_properties it !! "label_len"
    = Some (VInt (Z.of_nat (String.length l))) ∧
    item_properties it !! "seg_len" = Some (VFloat (geom_length g)) ∧
    item_properties it !! "shield_typ" = Some (VStr "GLOBAL").
Proof.
  intros (src & written & Hsrc & Hbody & Hit)%write_each_elem.
  destruct (process_item_written strips "Global" src it written Hbody Hit)
    as (g & shield & l & Hg & Hshield & Hlabel & _ & ->).
  unfold create_label in Hlabel. unfold create_shield_type in Hshield.
  destruct (item_properties src !! "ref") as [refText|]; [|done].
  destruct (decide ("Global" = "USA")) as [|_]; [done|].
  destruct (decide ("Global" = "Global")) as [_|]; [|done].
  assert (global_label strips refText = Some l) as Hl by congruence.
  destruct (global_label_spec strips refText l Hl)
    as (Hlen & Hdigit & _).
  injection Hshield as <-.
  exists g, l. simpl. split_and!; try done; by inserted.
Qed.

Lemma process_file_global_output_witness :
  Roads.labelled "MEX 15D toll road" "GLOBAL" "15D tol"
  ∈ (process_file is_space Roads.mixed_refs "Global").1 ∧
  ∃ g l,
    item_geometry (Roads.labelled "MEX 15D toll road" "GLOBAL" "15D tol")
    = Some g ∧
    item_properties (Roads.labelled "MEX 15D toll road" "GLOBAL" "15D tol")
      !! "label" = Some (VStr l) ∧
    String.length l ≤ 7 ∧ has_digit l = true ∧
    item_properties (Roads.labelled "MEX 15D toll road" "GLOBAL" "15D tol")
      !! "label_len" = Some (VInt (Z.of_nat (String.length l))) ∧
    item_properties (Roads.labelled "MEX 15D toll road" "GLOBAL" "15D tol")
      !! "seg_len" = Some (VFloat (geom_length g)) ∧
    item_properties (Roads.labelled "MEX 15D toll road" "GLOBAL" "15D tol")
      !! "shield_typ" = Some (VStr "GLOBAL").
Proof.
  assert (Roads.labelled "MEX 15D toll road" "GLOBAL" "15D tol"
          ∈ (process_file is_space Roads.mixed_refs "Global").1) as Hin.
  { vm_compute. right. left. }
  split; [exact Hin|].
  exact (process_file_global_output is_space Roads.mixed_refs _ Hin).
Defined.

(** X21. process_file writes nothing for a region other than 'USA' and
    'Global' (the comparison is exact: 'GLOBAL' and 'usa' are other
    regions), whatever the input holds. *)
Theorem process_file_other_region `{K : Kernel} (strips : ascii → bool)
    (input : list item) (region : string) :
  region ≠ "USA" → region ≠ "Global" →
  (process_file strips input region).1 = [].
Proof.
  intros Husa Hglobal.
  destruct (process_file strips input region).1 as [|it out] eqn:Hout;
    [done|].
  assert (it ∈ (process_file strips input region).1) as Hin
    by (rewrite Hout; left).
  apply write_each_elem in Hin as (src & written & _ & Hbody & Hit).
  destruct (process_item_written strips region src it written Hbody Hit)
    as (g & shield & l & _ & _ & Hlabel & _).
  unfold create_label in Hlabel.
  destruct (item_properties src !! "ref"); [|done].
  destruct (decide (region = "USA")); [done|].
  by destruct (decide (region = "Global")).
Qed.

Lemma process_file_other_region_witness :
  "GLOBAL" ≠ "USA" ∧ "GLOBAL" ≠ "Global" ∧
  (process_file is_space Roads.mixed_refs "GLOBAL").1 = [].
Proof.
  split; [done|]. split; [done|].
  exact (process_file_other_region is_space Roads.mixed_refs "GLOBAL"
           ltac:(done) ltac:(done)).
Defined.

Lemma write_each_filtered {A} (R : A → item → Prop)
    (body : A → result (list item)) (input : list A) :
  (∀ src written, body src = Done written →
     written = [] ∨ ∃ it, written = [it] ∧ R src it) →
  ∃ kept, kept `sublist_of` input ∧ Forall2 R kept (write_each body input).1.
Proof.
  intros Hbody. induction input as [|a input (kept & Hsub & Hall)]; simpl.
  - exists []. by split.
  - destruct (body a) as [written|e] eqn:Ha; simpl.
    + destruct (write_each body input) as [written' e']; simpl in *.
      destruct (Hbody a written Ha) as [->|(it & -> & HR)].
      * exists kept. split; [by apply sublist_cons|done].
      * exists (a :: kept). split; [by apply sublist_skip|].
        by constructor.
    + exists []. split; [apply sublist_nil_l|constructor].
Qed.

(** X22. process_file writes at most one item for an input item, in the
    order of the input, with the geometry of the input item and with
    its attributes, ref among them, apart from the four that
    process_file sets. *)
Theorem process_file_keeps_lines `{K : Kernel} (strips : ascii → bool)
    (input : list item) (region : string) :
  ∃ kept,
    kept `sublist_of` input ∧
    Forall2
      (λ src it,
         item_geometry it = item_geometry src ∧
         ∀ key, key ∉ ["shield_typ"; "label"; "seg_len"; "label_len"] →
                item_properties it !! key = item_properties src !! key)
      kept (process_file strips input region).1.
Proof.
  apply write_each_filtered. intros src written Hbody.
  destruct (process_item_one strips region src written Hbody)
    as [->|(g & shield & l & Hg & _ & _ & _ & ->)]; [by left|].
  right. eexists. split; [done|]. simpl. split; [done|].
  intros key Hkey.
  rewrite !lookup_insert_ne; [done|intros <-; apply Hkey..].
  - do 0 right. left.
  - do 1 right. left.
  - do 2 right. left.
  - do 3 right. left.
Qed.

(** ** split_and_duplicate_segments, then process_file *)

Lemma drop_chars_all (p : ascii → bool) (n : nat) (s : string) :
  all_chars p s = true → all_chars p (drop_chars n s) = true.
Proof.
  revert s. induction n as [|n IH]; intros [|c s]; simpl; try done.
  intros [_ Hs]%andb_true_iff. by apply IH.
Qed.

Lemma take_chars_all (p : ascii → bool) (n : nat) (s : string) :
  all_chars p s = true → all_chars p (take_chars n s) = true.
Proof.
  revert s. induction n as [|n IH]; intros [|c s]; simpl; try done.
  intros [Hc Hs]%andb_true_iff. by rewrite Hc, (IH s Hs).
Qed.

Lemma after_mex_all (p : ascii → bool) (s : string) :
  all_chars p s = true → all_chars p (after_mex s) = true.
Proof.
  intros Hs. unfold after_mex.
  pose proof (drop_chars_all p 3 s Hs) as H3.
  destruct (drop_chars 3 s) as [|c1 s1]; [done|].
  assert (all_chars p (if is_space c1 then s1 else String c1 s1) = true)
    as H'.
  { destruct (is_space c1); [|done].
    simpl in H3. by apply andb_true_iff in H3 as [_ ?]. }
  destruct (if is_space c1 then s1 else String c1 s1) as [|c2 s2]; [done|].
  destruct (Ascii.eqb c2 "-"); [|done].
  simpl in H'. by apply andb_true_iff in H' as [_ ?].
Qed.

Lemma remove_mex_all (p : ascii → bool) (s : string) :
  all_chars p s = true → all_chars p (remove_mex s) = true.
Proof.
  unfold remove_mex. generalize (String.length s) as fuel.
  intros fuel. revert s. induction fuel as [|fuel IH]; intros s Hs;
    [done|].
  cbn [remove_mex_from]. destruct s as [|c s]; [done|].
  destruct (prefix_ci "MEX" (String c s)).
  - apply IH. by apply after_mex_all.
  - simpl in *. apply andb_true_iff in Hs as [Hc Hs].
    by rewrite Hc, (IH s Hs).
Qed.

Lemma lstrip_all (strips p : ascii → bool) (s : string) :
  all_chars p s = true → all_chars p (lstrip strips s) = true.
Proof.
  induction s as [|c s IH]; simpl; [done|].
  intros H. destruct (strips c); [|done].
  apply andb_true_iff in H as [_ Hs]. by apply IH.
Qed.

Lemma rstrip_all (strips p : ascii → bool) (s : string) :
  all_chars p s = true → all_chars p (rstrip strips s) = true.
Proof.
  induction s as [|c s IH]; simpl; [done|].
  intros [Hc Hs]%andb_true_iff. specialize (IH Hs).
  destruct (rstrip strips s) as [|c' more].
  - destruct (strips c); simpl; [done|]. by rewrite Hc.
  - change (p c && all_chars p (String c' more) = true). by rewrite Hc, IH.
Qed.

Lemma global_label_all (strips p : ascii → bool) (s l : string) :
  all_chars p s = true → global_label strips (VStr s) = Some l →
  all_chars p l = true.
Proof.
  intros Hs. unfold global_label.
  destruct (has_digit (remove_mex s)); [|done].
  destruct (has_digit (strip strips (take_chars 7 (remove_mex s))));
    [|done].
  intros Heq. apply (inj Some) in Heq. subst l.
  unfold strip. apply rstrip_all, lstrip_all, take_chars_all.
  by apply remove_mex_all.
Qed.

Lemma letters_and_spaces_chars (s : string) :
  all_chars label_char (letters_and_spaces s) = true.
Proof.
  induction s as [|c s IH]; simpl; [done|].
  destruct (is_alpha c || Ascii.eqb c " ") eqn:Hc; [|done].
  simpl. rewrite IH, andb_true_r. unfold label_char, is_word.
  apply orb_true_iff in Hc as [->| ->]; [done|]. by rewrite orb_true_r.
Qed.

Lemma up_to_last_letter_all (p : ascii → bool) (s : string) :
  all_chars p s = true → all_chars p (up_to_last_letter s) = true.
Proof.
  induction s as [|c s IH]; simpl; [done|].
  intros [Hc Hs]%andb_true_iff. specialize (IH Hs).
  destruct (up_to_last_letter s) as [|c' more].
  - destruct (is_alpha c); simpl; [|done]. by rewrite Hc.
  - change (p c && all_chars p (String c' more) = true). by rewrite Hc, IH.
Qed.

Lemma label_suffix_chars (rest : string) :
  all_chars label_char (label_suffix rest) = true.
Proof.
  unfold label_suffix. destruct rest as [|c rest]; [done|].
  destruct (is_word c) eqn:Hw.
  - simpl. unfold label_char. by rewrite Hw.
  - destruct (Ascii.eqb c "-" || Ascii.eqb c " ") eqn:Hc; [|done].
    pose proof (up_to_last_letter_all label_char _
                  (letters_and_spaces_chars rest)) as H.
    destruct (up_to_last_letter (letters_and_spaces rest)) as [|c' more];
      [done|].
    change (label_char c && all_chars label_char (String c' more) = true).
    rewrite H, andb_true_r.
    unfold label_char. by rewrite Hw, <-orb_assoc, Hc.
Qed.

Lemma usa_label_match_chars (s l : string) :
  usa_label_match s = Some l → all_chars label_char l = true.
Proof.
  unfold usa_label_match.
  destruct (from_first_digit s) as [|c t]; [done|].
  pose proof (span_digits_spec (String c t)) as (_ & Hdigits & _).
  destruct (span_digits (String c t)) as [digits rest]; simpl in Hdigits.
  intros [= <-]. rewrite all_chars_append, label_suffix_chars, andb_true_r.
  apply (all_chars_impl is_digit); [|done].
  intros d Hd. unfold label_char, is_word. rewrite Hd.
  by rewrite orb_true_r.
Qed.

Lemma label_char_no_separator (c : ascii) :
  label_char c = true → negb (is_separator c) = true.
Proof. each_char c. Qed.

Lemma write_each_returns {A} (body : A → result (list item))
    (input : list A) :
  (∀ src, src ∈ input → ∃ written, body src = Done written) →
  (write_each body input).2 = None.
Proof.
  induction input as [|a input IH]; simpl; [done|].
  intros Hbody. destruct (Hbody a) as [written ->]; [left|].
  specialize (IH (λ src Hsrc, Hbody src (list_elem_of_further _ _ _ Hsrc))).
  by destruct (write_each body input).
Qed.

Lemma process_item_returns `{K : Kernel} (strips : ascii → bool)
    (region : string) (src : item) (s : string) (g : geom) :
  item_properties src !! "ref" = Some (VStr s) →
  item_geometry src = Some g →
  ∃ written, process_item strips region src = Done written.
Proof.
  intros Href Hg. unfold process_item.
  assert (∃ shield, create_shield_type src region = Done shield)
    as [shield ->].
  { unfold create_shield_type. rewrite Href.
    destruct (decide (region = "USA")).
    - destruct (interstates_match s); [by eexists|].
      destruct (us_hwys_match s); [by eexists|].
      destruct (state_hwys_match s); by eexists.
    - destruct (decide (region = "Global")); by eexists. }
  rewrite (create_label_ref strips _ src region)
    by (simpl; by rewrite lookup_insert_ne).
  assert (∃ label, create_label strips src region = Done label)
    as [label ->].
  { unfold create_label. rewrite Href.
    destruct (decide (region = "USA")); [by eexists|].
    destruct (decide (region = "Global")); by eexists. }
  simpl. unfold shape. rewrite Hg.
  destruct label as [l|]; [|by eexists].
  destruct (bool_decide (region = "USA") && _); by eexists.
Qed.

Lemma process_item_returns_elsewhere `{K : Kernel} (strips : ascii → bool)
    (region : string) (src : item) (v : value) (g : geom) :
  region ≠ "USA" →
  item_properties src !! "ref" = Some v →
  item_geometry src = Some g →
  ∃ written, process_item strips region src = Done written.
Proof.
  intros Hregion Href Hg. unfold process_item.
  assert (∃ shield, create_shield_type src region = Done shield)
    as [shield ->].
  { unfold create_shield_type. rewrite Href.
    destruct (decide (region = "USA")); [done|].
    destruct (decide (region = "Global")); by eexists. }
  rewrite (create_label_ref strips _ src region)
    by (simpl; by rewrite lookup_insert_ne).
  assert (∃ label, create_label strips src region = Done label)
    as [label ->].
  { unfold create_label. rewrite Href.
    destruct (decide (region = "USA")); [done|].
    destruct (decide (region = "Global")); by eexists. }
  simpl. unfold shape. rewrite Hg.
  destruct label as [l|]; [|by eexists].
  destruct (bool_decide (region = "USA") && _); by eexists.
Qed.

(** X23. After split_and_duplicate_segments no label that process_file
    writes holds a ',' or a ';', in any region. *)
Theorem labels_hold_no_separator `{K : Kernel} (strips : ascii → bool)
    (input : list item) (region : string) (it : item) (l : string) :
  it ∈ (process_file strips (split_and_duplicate_segments input).1 region).1 →
  item_properties it !! "label" = Some (VStr l) →
  all_chars (λ c, negb (is_separator c)) l = true.
Proof.
  intros (mid & written & Hmid & Hbody & Hit)%write_each_elem.
  destruct (process_item_written strips region mid it written Hbody Hit)
    as (g & shield & l' & _ & _ & Hlabel & _ & ->).
  simpl. rewrite lookup_insert_ne, lookup_insert_ne, lookup_insert_eq by done.
  intros [= <-].
  apply write_each_elem in Hmid as (src & pieces & _ & Hsplit & Hpiece).
  destruct (split_item_written src mid pieces Hsplit Hpiece)
    as (refTag & feature & _ & _ & _ & -> & _ & Hclean).
  unfold create_label, set_property in Hlabel. simpl in Hlabel.
  rewrite lookup_insert_eq in Hlabel.
  destruct (decide (region = "USA")).
  - injection Hlabel as Hlabel. apply usa_label_match_chars in Hlabel.
    revert Hlabel. apply all_chars_impl, label_char_no_separator.
  - destruct (decide (region = "Global")); [|done].
    injection Hlabel as Hlabel.
    by apply (global_label_all strips _ feature).
Qed.

Lemma labels_hold_no_separator_witness :
  Roads.labelled "E 20" "GLOBAL" "E 20"
  ∈ (process_file is_space
       (split_and_duplicate_segments Roads.european).1 "Global").1 ∧
  item_properties (Roads.labelled "E 20" "GLOBAL" "E 20") !! "label"
  = Some (VStr "E 20") ∧
  all_chars (λ c, negb (is_separator c)) "E 20" = true.
Proof.
  assert (Roads.labelled "E 20" "GLOBAL" "E 20"
          ∈ (process_file is_space
               (split_and_duplicate_segments Roads.european).1 "Global").1)
    as Hin.
  { vm_compute. right. left. }
  split; [exact Hin|]. split; [reflexivity|].
  exact (labels_hold_no_separator is_space Roads.european "Global" _ "E 20"
           Hin eq_refl).
Defined.

(** X24. Each of the two steps runs to its end on a collection that is
    fit for it: split_and_duplicate_segments raises no exception when the
    ref of every item is None or a string, and process_file raises none
    when every item has a geometry and a ref that is a string; for a
    region other than 'USA' any value of the ref will do. *)
Theorem steps_return `{K : Kernel} (strips : ascii → bool)
    (input : list item) (region : string) :
  ((∀ it, it ∈ input →
      item_properties it !! "ref" = Some VNone ∨
      ∃ s, item_properties it !! "ref" = Some (VStr s)) →
   (split_and_duplicate_segments input).2 = None)
  ∧ ((∀ it, it ∈ input →
        is_Some (item_geometry it) ∧
        ((∃ s, item_properties it !! "ref" = Some (VStr s)) ∨
         (region ≠ "USA" ∧ is_Some (item_properties it !! "ref")))) →
     (process_file strips input region).2 = None).
Proof.
  split.
  - intros Hinput. apply write_each_returns. intros src Hsrc.
    destruct (Hinput src Hsrc) as [Href|[s Href]];
      unfold split_item; rewrite Href; [by eexists|].
    destruct (decide (s = "None")); by eexists.
  - intros Hinput. apply write_each_returns. intros src Hsrc.
    destruct (Hinput src Hsrc) as [[g Hg] [[s Href]|[Hregion [v Href]]]].
    + by apply (process_item_returns strips region src s g).
    + by apply (process_item_returns_elsewhere strips region src v g).
Qed.

Lemma steps_return_witness :
  (split_and_duplicate_segments Roads.european).2 = None
  ∧ (process_file is_space Roads.mixed_refs "USA").2 = None.
Proof.
  split.
  - apply (proj1 (steps_return (K := Planar.kernel) is_space Roads.european "USA")).
    intros it Hit. unfold Roads.european in Hit.
    apply elem_of_cons in Hit as [->|Hit].
    + right. by eexists.
    + apply list_elem_of_singleton in Hit as ->. by left.
  - apply (proj2 (steps_return (K := Planar.kernel) is_space Roads.mixed_refs "USA")).
    intros it Hit. unfold Roads.mixed_refs in Hit.
    repeat (apply elem_of_cons in Hit as [->|Hit]);
      [split; [by eexists|left; by eexists]..|by apply elem_of_nil in Hit].
Defined.
